(** * AccountingNews: relevance scoring, admission filter and search core

    A shallow embedding of

    - [backend/app/libs/priority_scorer.py]  (class [PriorityScorer]),
    - [backend/app/libs/content_filter.py]   (class [TaxReformContentFilter]),
    - [backend/app/apis/search/__init__.py]  ([sanitize_search_query],
      [search_content], [get_search_facets]),

    followed by the properties of these functions.

    Python values are modelled as the interpreter has them: a [str] is a
    sequence of Unicode code points, an [int] is a [Z], a [float] is an
    IEEE 754 binary64 number (the Standard Library's executable
    [SpecFloat] operations at precision 53), a [dict] with string keys is
    a finite map, and the dictionaries handed around in lists live in a
    store indexed by object identity, because [filter_items_list] writes
    into the dictionaries it is given while [score_batch] copies them. *)

From Stdlib Require Import ZArith NArith List String Ascii Bool Lia.
From Stdlib Require Import Floats.SpecFloat Sorting.Permutation Sorting.Sorted.
From stdpp Require Import base option gmap strings.
Import ListNotations.

Local Open Scope Z_scope.

(** ** Python runtime values *)

Module Py.

(** A code point, and a [str] as the sequence of its code points. *)
Definition cp := N.
Definition str := list cp.

(** String literals of this file are written as UTF-8 text; [lit s] is the
    [str] those bytes encode. *)
Fixpoint utf8_decode (bs : list N) : str :=
  match bs with
  | [] => []
  | b :: r =>
      if (b <? 128)%N then b :: utf8_decode r
      else if (b <? 224)%N then
        match r with
        | b1 :: r1 => ((b - 192) * 64 + (b1 - 128))%N :: utf8_decode r1
        | _ => []
        end
      else if (b <? 240)%N then
        match r with
        | b1 :: b2 :: r2 =>
            ((b - 224) * 4096 + (b1 - 128) * 64 + (b2 - 128))%N :: utf8_decode r2
        | _ => []
        end
      else
        match r with
        | b1 :: b2 :: b3 :: r3 =>
            ((b - 240) * 262144 + (b1 - 128) * 4096 + (b2 - 128) * 64 + (b3 - 128))%N
              :: utf8_decode r3
        | _ => []
        end
  end.

Definition lit (s : string) : str :=
  utf8_decode (List.map N_of_ascii (list_ascii_of_string s)).

Definition sp : cp := 32%N.

(** [Py_UNICODE_ISSPACE]: the code points for which [str.isspace] holds.
    The same predicate decides [\s] in a [str] pattern of [re] and what
    [str.split()] and [str.strip()] treat as white space. *)
Definition isspace (c : cp) : bool :=
  ((9 <=? c) && (c <=? 13) || (28 <=? c) && (c <=? 32)
   || (c =? 133) || (c =? 160) || (c =? 5760)
   || (8192 <=? c) && (c <=? 8202)
   || (c =? 8232) || (c =? 8233) || (c =? 8239) || (c =? 8287) || (c =? 12288))%N.

(** [s.strip()] *)
Fixpoint lstrip (s : str) : str :=
  match s with
  | c :: s' => if isspace c then lstrip s' else s
  | [] => []
  end.

Definition rstrip (s : str) : str := rev (lstrip (rev s)).
Definition strip (s : str) : str := rstrip (lstrip s).

(** [s.split()]: the maximal runs of non-space code points, in order.
    [cur] is the word being read, reversed. *)
Fixpoint split_from (cur : str) (s : str) : list str :=
  match s with
  | [] => match cur with [] => [] | _ => [rev cur] end
  | c :: s' =>
      if isspace c
      then match cur with [] => split_from [] s' | _ => rev cur :: split_from [] s' end
      else split_from (c :: cur) s'
  end.

Definition split (s : str) : list str := split_from [] s.

(** [sep.join(words)] *)
Fixpoint join (sep : str) (words : list str) : str :=
  match words with
  | [] => []
  | [w] => w
  | w :: ws => w ++ sep ++ join sep ws
  end.

(** [kw in s] on two [str]s: [kw] occurs in [s] as a contiguous run. *)
Fixpoint startswith (kw s : str) : bool :=
  match kw, s with
  | [], _ => true
  | a :: kw', b :: s' => (a =? b)%N && startswith kw' s'
  | _ :: _, [] => false
  end.

Fixpoint str_in (kw s : str) : bool :=
  startswith kw s ||
  match s with
  | [] => false
  | _ :: s' => str_in kw s'
  end.

(** [re.sub(r'[cls]', repl, text)] for a class [cls] of single code
    points. *)
Definition sub_class (cls : str) (repl : cp) (text : str) : str :=
  List.map (fun c => if existsb (N.eqb c) cls then repl else c) text.

(** [str(n)] for an [int]. *)
Fixpoint uint_digits (d : Decimal.uint) : str :=
  match d with
  | Decimal.Nil => []
  | Decimal.D0 d => 48%N :: uint_digits d
  | Decimal.D1 d => 49%N :: uint_digits d
  | Decimal.D2 d => 50%N :: uint_digits d
  | Decimal.D3 d => 51%N :: uint_digits d
  | Decimal.D4 d => 52%N :: uint_digits d
  | Decimal.D5 d => 53%N :: uint_digits d
  | Decimal.D6 d => 54%N :: uint_digits d
  | Decimal.D7 d => 55%N :: uint_digits d
  | Decimal.D8 d => 56%N :: uint_digits d
  | Decimal.D9 d => 57%N :: uint_digits d
  end.

Definition str_of_int (n : Z) : str :=
  match Z.to_int n with
  | Decimal.Pos d => uint_digits d
  | Decimal.Neg d => 45%N :: uint_digits d
  end.

(** A [datetime]: the wall-clock reading in microseconds and the attached
    time zone, if any (its UTC offset).  [replace(tzinfo=None)] drops
    the zone and keeps the reading. *)
Record datetime := { ticks : Z; tzinfo : option Z }.

Definition replace_tzinfo_None (d : datetime) : datetime :=
  {| ticks := ticks d; tzinfo := None |}.

(** [(a - b).days] for two naive datetimes: a [timedelta] is normalised
    with [0 <= seconds], so [days] is the floor of the quotient. *)
Definition days_between (a b : datetime) : Z :=
  (ticks a - ticks b) / 86400000000.

(** The objects that occur as dictionary values in this code. *)
Inductive value :=
  | VNone
  | VStr (s : str)
  | VInt (n : Z)
  | VList (l : list str)
  | VDate (d : datetime).

(** Truth value of an object (as tested by [if x:] and [x or y]). *)
Definition truthy (v : value) : bool :=
  match v with
  | VNone => false
  | VStr s => match s with [] => false | _ => true end
  | VInt n => negb (n =? 0)
  | VList l => match l with [] => false | _ => true end
  | VDate _ => true
  end.

(** What the interpreter supplies beyond this repository: the Unicode
    case mapping behind [str.lower], the alphanumeric classification
    behind [\w] and [\b], and [str()] of an object that is not a [str]
    (used when an f-string formats it). *)
Class Runtime := {
  lower : str -> str;
  isalnum : cp -> bool;
  str_of : value -> str
}.

(** [f"{v}"] *)
Definition format {rt : Runtime} (v : value) : str :=
  match v with
  | VStr s => s
  | _ => str_of v
  end.

(** The interpreter's tables on U+0000..U+00FF (Basic Latin and Latin-1
    Supplement), used to run the functions on concrete texts.  Code
    points above U+00FF are left as they are and count as non-alphanumeric
    here, and [str()] of a list or of a datetime, which no example below
    formats, is left empty. *)
Definition lower_cp (c : cp) : cp :=
  if ((65 <=? c) && (c <=? 90) || (192 <=? c) && (c <=? 222) && negb (c =? 215))%N
  then (c + 32)%N else c.

Definition isalnum_latin1 (c : cp) : bool :=
  ((48 <=? c) && (c <=? 57) || (65 <=? c) && (c <=? 90) || (97 <=? c) && (c <=? 122)
   || (c =? 170) || (c =? 178) || (c =? 179) || (c =? 181) || (c =? 185) || (c =? 186)
   || (188 <=? c) && (c <=? 190)
   || (192 <=? c) && (c <=? 214) || (216 <=? c) && (c <=? 246)
   || (248 <=? c) && (c <=? 255))%N.

Definition str_of_latin1 (v : value) : str :=
  match v with
  | VNone => lit "None"
  | VInt n => str_of_int n
  | VStr s => s
  | VList _ | VDate _ => []
  end.

Definition latin1 : Runtime :=
  {| lower := List.map lower_cp; isalnum := isalnum_latin1; str_of := str_of_latin1 |}.

(** *** Floating point

    A [float] is a binary64 number; the operations round to nearest,
    ties to even, as the hardware does. *)
Definition float := spec_float.
Definition prec : Z := 53.
Definition emax : Z := 1024.

Definition fmul : float -> float -> float := SFmul prec emax.
Definition fadd : float -> float -> float := SFadd prec emax.

(** [float(n)] for an [int] (exact for [|n| <= 2^53]; used below on
    scores and bonuses, which are at most 100). *)
Definition float_of_int (n : Z) : float := binary_normalize prec emax n 0 false.

(** The value of a decimal literal [num/den], such as [0.7 = 7/10]: the
    binary64 number nearest to the quotient. *)
Definition literal (num den : Z) : float :=
  SFdiv prec emax (float_of_int num) (float_of_int den).

(** [a / b] on two [int]s (true division): the quotient rounded once to
    binary64.  [None] stands for the exception raised instead
    ([ZeroDivisionError], or [OverflowError] when the quotient exceeds the
    range of a float). *)
Definition int_truediv (a b : Z) : option float :=
  if b =? 0 then None
  else if a =? 0 then Some (S754_zero (b <? 0))
  else
    let '(q, e, l) := SFdiv_core_binary prec emax (Z.abs a) 0 (Z.abs b) 0 in
    match binary_round_aux prec emax (xorb (a <? 0) (b <? 0)) q e l with
    | S754_infinity _ => None
    | x => Some x
    end.

(** [x >= n] for a float [x] and an [int] [n] that a float holds exactly. *)
Definition fge_int (x : float) (n : Z) : bool := SFleb (float_of_int n) x.
Definition fle (x y : float) : bool := SFleb x y.

(** *** Dictionaries and the object store *)

(** A [dict] with [str] keys. *)
Abbreviation dict := (gmap string value).

(** [item.get(key, default)] *)
Definition get (item : dict) (key : string) (dflt : value) : value :=
  default dflt (item !! key).

(** Dictionaries are objects: a list of items is a list of references
    into the store. *)
Abbreviation loc := positive.
Abbreviation heap := (gmap loc dict).

Definition deref (h : heap) (l : loc) : dict := default ∅ (h !! l).

(** [l.sort(key=key, reverse=True)]: the sort is stable, also when
    reversed: items with equal keys keep their order.  [insert_desc]
    places [x], which precedes the items of [l], ahead of the first item
    whose key is not greater. *)
Fixpoint insert_desc {A} (key : A -> Z) (x : A) (l : list A) : list A :=
  match l with
  | [] => [x]
  | y :: l' => if key x <? key y then y :: insert_desc key x l' else x :: l
  end.

Fixpoint sort_desc {A} (key : A -> Z) (l : list A) : list A :=
  match l with
  | [] => []
  | x :: l' => insert_desc key x (sort_desc key l')
  end.

End Py.
Import Py.

(** ** [PriorityScorer] ([libs/priority_scorer.py]) *)

Module PriorityScorer.

(** The class attribute [TAX_REFORM_KEYWORDS], in the order of the
    dictionary display (the order in which a [dict] is iterated). *)
Definition TAX_REFORM_KEYWORDS : list (str * Z) :=
  [ (lit "reforma tributária", 100);
    (lit "reforma tributaria", 100);
    (lit "ibs", 95);
    (lit "cbs", 95);
    (lit "imposto único", 90);
    (lit "imposto unico", 90);
    (lit "iva brasileiro", 90);
    (lit "iva", 85);
    (lit "pec 45", 85);
    (lit "pec 110", 85);
    (lit "emenda constitucional", 80);
    (lit "proposta de emenda", 80);
    (lit "lei complementar", 75);
    (lit "codigo tributario", 75);
    (lit "código tributário", 75);
    (lit "icms", 70);
    (lit "iss", 70);
    (lit "pis", 65);
    (lit "cofins", 65);
    (lit "simples nacional", 60);
    (lit "regime tributário", 60);
    (lit "regime tributario", 60);
    (lit "tributação", 55);
    (lit "tributacao", 55);
    (lit "arrecadação", 55);
    (lit "arrecadacao", 55);
    (lit "imposto", 40);
    (lit "tributo", 40);
    (lit "receita federal", 35);
    (lit "ministério da fazenda", 35);
    (lit "ministerio da fazenda", 35);
    (lit "fisco", 30);
    (lit "contribuinte", 25) ].

(** [SOURCE_MULTIPLIERS] *)
Definition SOURCE_MULTIPLIERS : list (str * float) :=
  [ (lit "receita federal", literal 1 1);
    (lit "ministério da fazenda", literal 1 1);
    (lit "ministerio da fazenda", literal 1 1);
    (lit "senado federal", literal 95 100);
    (lit "câmara dos deputados", literal 95 100);
    (lit "camara dos deputados", literal 95 100);
    (lit "portal da transparência", literal 85 100);
    (lit "portal da transparencia", literal 85 100);
    (lit "governo federal", literal 8 10);
    (lit "congresso nacional", literal 9 10) ].

Inductive category := tax_reform | legislation | economy | regulation | general.

(** [CATEGORIES] *)
Definition CATEGORIES : list (category * list str) :=
  [ (tax_reform, [lit "reforma tributária"; lit "reforma tributaria"; lit "ibs";
                  lit "cbs"; lit "pec 45"; lit "pec 110"]);
    (legislation, [lit "lei"; lit "emenda"; lit "proposta"; lit "projeto";
                   lit "medida provisória"; lit "medida provisoria"]);
    (economy, [lit "economia"; lit "pib"; lit "inflação"; lit "inflacao";
               lit "mercado"; lit "investimento"]);
    (regulation, [lit "regulamentação"; lit "regulamentacao"; lit "norma";
                  lit "instrução"; lit "instrucao"; lit "portaria"]);
    (general, []) ].

Definition category_name (c : category) : str :=
  match c with
  | tax_reform => lit "tax_reform"
  | legislation => lit "legislation"
  | economy => lit "economy"
  | regulation => lit "regulation"
  | general => lit "general"
  end.

Definition category_eqb (a b : category) : bool :=
  match a, b with
  | tax_reform, tax_reform | legislation, legislation | economy, economy
  | regulation, regulation | general, general => true
  | _, _ => false
  end.

(** The three priority levels the scorer returns. *)
Inductive priority := high | medium | low.

Definition priority_name (p : priority) : str :=
  match p with
  | high => lit "high"
  | medium => lit "medium"
  | low => lit "low"
  end.

(** The class [[a-záàâãéèêíìîóòôõúùûç\s]] of the first [re.sub]. *)
Definition kept (c : cp) : bool :=
  ((97 <=? c) && (c <=? 122))%N
  || existsb (N.eqb c) (lit "áàâãéèêíìîóòôõúùûç")
  || isspace c.

(** [re.sub(r'[^...]', ' ', s)] *)
Definition sub_not_kept (s : str) : str :=
  List.map (fun c => if kept c then c else sp) s.

(** [re.sub(r'\s+', ' ', s)]: every maximal run of white space becomes
    one space.  [in_run] tells that the previous code point was white
    space. *)
Fixpoint sub_space_runs (in_run : bool) (s : str) : str :=
  match s with
  | [] => []
  | c :: s' =>
      if isspace c
      then if in_run then sub_space_runs true s' else sp :: sub_space_runs true s'
      else c :: sub_space_runs false s'
  end.

(** [f"{title} {description} {content}"] *)
Definition combined (title description content : str) : str :=
  title ++ [sp] ++ description ++ [sp] ++ content.

Section WithRuntime.
Context {rt : Runtime}.

Definition calculate_relevance_score (title description content : str) : Z :=
  let full_text := lower (combined title description content) in
  let full_text := sub_not_kept full_text in
  let full_text := strip (sub_space_runs false full_text) in
  let '(score, matched_keywords) :=
    fold_left
      (fun '(score, matched_keywords) '(keyword, weight) =>
         if str_in keyword full_text
         then (score + weight, matched_keywords ++ [keyword])
         else (score, matched_keywords))
      TAX_REFORM_KEYWORDS (0, []) in
  let score :=
    if (1 <? length matched_keywords)%nat
    then score + Z.of_nat (length matched_keywords) * 5
    else score in
  let title_lower := lower title in
  let score :=
    fold_left
      (fun score keyword => if str_in keyword title_lower then score + 20 else score)
      matched_keywords score in
  Z.min score 100.

(** The loop over [SOURCE_MULTIPLIERS] with its [break]. *)
Fixpoint find_multiplier (table : list (str * float)) (source_lower : str)
    (source_multiplier : float) : float :=
  match table with
  | [] => source_multiplier
  | (source_key, multiplier) :: rest =>
      if str_in source_key source_lower then multiplier
      else find_multiplier rest source_lower source_multiplier
  end.

Definition credibility_factor (source_credibility : Z) : option float :=
  q ← int_truediv source_credibility 100;
  Some (fadd (literal 7 10) (fmul q (literal 6 10))).

Definition recency_bonus (now : datetime) (pub_date : option datetime) : Z :=
  match pub_date with
  | Some d =>
      let days_old := days_between now (replace_tzinfo_None d) in
      if days_old <=? 1 then 10
      else if days_old <=? 7 then 5
      else if days_old <=? 30 then 2
      else 0
  | None => 0
  end.

Definition final_score (relevance : Z) (source_multiplier factor : float)
    (bonus : Z) : float :=
  fadd (fmul (fmul (float_of_int relevance) source_multiplier) factor)
       (float_of_int bonus).

Definition level_of (final : float) : priority :=
  if fge_int final 80 then high
  else if fge_int final 50 then medium
  else low.

(** [now] is the reading of [datetime.utcnow()].  The result is [None]
    when the call raises (the division of an enormous
    [source_credibility] overflows). *)
Definition calculate_priority (now : datetime) (title description content : str)
    (source_credibility : Z) (source_name : str) (pub_date : option datetime)
    : option priority :=
  let relevance := calculate_relevance_score title description content in
  let source_lower := lower source_name in
  let source_multiplier :=
    find_multiplier SOURCE_MULTIPLIERS source_lower (literal 1 1) in
  factor ← credibility_factor source_credibility;
  let bonus := recency_bonus now pub_date in
  Some (level_of (final_score relevance source_multiplier factor bonus)).

Definition extract_keywords (title description content : str) : list str :=
  let full_text := lower (combined title description content) in
  List.map fst
    (List.filter (fun '(keyword, _) => str_in keyword full_text) TAX_REFORM_KEYWORDS).

(** The two nested loops of [categorize_content]; the table is walked in
    order and [general] is skipped. *)
Fixpoint first_category (table : list (category * list str)) (full_text : str)
    : category :=
  match table with
  | [] => general
  | (cat, keywords) :: rest =>
      if category_eqb cat general then first_category rest full_text
      else if existsb (fun keyword => str_in keyword full_text) keywords then cat
      else first_category rest full_text
  end.

Definition categorize_content (title description content : str) : category :=
  let full_text := lower (combined title description content) in
  first_category CATEGORIES full_text.

(** [score_batch] hands entries of the item to the methods above.  An
    argument that an f-string formats may be any object; [title] and
    [source_name] must have [.lower()], that is, be a [str];
    [source_credibility] is divided; [pub_date] is tested for truth and,
    when true, must be a datetime.  [None] stands for the exception that
    is raised otherwise. *)
Definition as_str (v : value) : option str :=
  match v with VStr s => Some s | _ => None end.

Definition as_int (v : value) : option Z :=
  match v with VInt n => Some n | _ => None end.

Definition as_pub_date (v : value) : option (option datetime) :=
  if truthy v
  then match v with VDate d => Some (Some d) | _ => None end
  else Some None.

(** The body of the loop of [score_batch]: the enhanced copy of one item. *)
Definition enhance (now : datetime) (item : dict) : option dict :=
  title ← as_str (get item "title" (VStr []));
  let description := format (get item "description" (VStr [])) in
  let content := format (get item "content" (VStr [])) in
  let relevance_score := calculate_relevance_score title description content in
  source_name ← as_str (get item "source_name" (VStr []));
  source_credibility ← as_int (get item "source_credibility" (VInt 70));
  pub_date ← as_pub_date (get item "pub_date" VNone);
  priority ← calculate_priority now title description content
               source_credibility source_name pub_date;
  let keywords := extract_keywords title description content in
  let category := categorize_content title description content in
  let enhanced_item := item in
  Some (<["category" := VStr (category_name category)]>
        (<["keywords" := VList keywords]>
         (<["priority" := VStr (priority_name priority)]>
          (<["relevance_score" := VInt relevance_score]> enhanced_item)))).

(** [score_batch]: [clock i] is the reading of the clock while item [i]
    is scored; each [item.copy()] is a new object of the store. *)
Fixpoint score_batch_from (clock : nat -> datetime) (i : nat) (h : heap)
    (items : list loc) : option (heap * list loc) :=
  match items with
  | [] => Some (h, [])
  | item :: rest =>
      enhanced_item ← enhance (clock i) (deref h item);
      let l := fresh (dom h) in
      '(h', enhanced_items) ← score_batch_from clock (S i) (<[l := enhanced_item]> h) rest;
      Some (h', l :: enhanced_items)
  end.

Definition score_batch (clock : nat -> datetime) (h : heap) (items : list loc)
    : option (heap * list loc) :=
  score_batch_from clock 0 h items.

End WithRuntime.
End PriorityScorer.

(** ** [TaxReformContentFilter] ([libs/content_filter.py]) *)

Module ContentFilter.

Record FilterResult := {
  is_relevant : bool;
  relevance_score : Z;
  matched_keywords : list str;
  filter_reason : option str
}.

(** The attributes set by [__init__]. *)
Definition primary_keywords : list str :=
  [ lit "reforma tributária"; lit "reforma tributaria"; lit "ibs"; lit "cbs" ].

Definition secondary_keywords : list str :=
  [ lit "imposto sobre bens e serviços";
    lit "contribuição sobre bens e serviços";
    lit "sistema tributário nacional";
    lit "código tributário nacional";
    lit "simplificação tributária";
    lit "unificação de impostos";
    lit "icms"; lit "iss"; lit "pis"; lit "cofins";
    lit "ministério da fazenda";
    lit "receita federal";
    lit "congresso nacional";
    lit "proposta de emenda constitucional";
    lit "pec";
    lit "emenda constitucional";
    lit "tributação";
    lit "arrecadação" ].

Definition exclusion_keywords : list str :=
  [ lit "esporte"; lit "futebol"; lit "música"; lit "entretenimento";
    lit "celebridade"; lit "novela"; lit "filme"; lit "show";
    lit "crime"; lit "acidente"; lit "trânsito";
    lit "meteorologia"; lit "tempo"; lit "chuva" ].

(** A dictionary from keywords to counts, in insertion order. *)
Definition counts := list (str * Z).

Definition str_eqb (a b : str) : bool :=
  if decide (a = b) then true else false.

(** [matches[keyword] = count] *)
Fixpoint counts_set (matches : counts) (keyword : str) (count : Z) : counts :=
  match matches with
  | [] => [(keyword, count)]
  | (k, c) :: rest =>
      if str_eqb k keyword then (k, count) :: rest
      else (k, c) :: counts_set rest keyword count
  end.

Definition keys (matches : counts) : list str := List.map fst matches.
Definition values (matches : counts) : list Z := List.map snd matches.

(** [sum(...)] *)
Definition sum (l : list Z) : Z := fold_left Z.add l 0.

Section WithRuntime.
Context {rt : Runtime}.

Definition normalize_text (text : str) : str :=
  match text with
  | [] => []
  | _ =>
      let text := strip (lower text) in
      let text := sub_class (lit "àáâãäå") 97%N text in
      let text := sub_class (lit "èéêë") 101%N text in
      let text := sub_class (lit "ìíîï") 105%N text in
      let text := sub_class (lit "òóôõö") 111%N text in
      let text := sub_class (lit "ùúûü") 117%N text in
      let text := sub_class (lit "ç") 99%N text in
      text
  end.

(** [\w]: alphanumeric or the underscore. *)
Definition is_word (c : cp) : bool := isalnum c || (c =? 95)%N.

(** [\b] between two neighbouring positions; [None] is an end of the
    text. *)
Definition word_char (c : option cp) : bool :=
  match c with Some c => is_word c | None => false end.

Definition boundary (before after : option cp) : bool :=
  xorb (word_char before) (word_char after).

(** The pattern [\b] + [re.escape(kw)] + [\b] matches at the front of
    [s], where [before] is the code point preceding [s]. *)
Definition match_here (kw : str) (before : option cp) (s : str) : bool :=
  boundary before (head s)
  && startswith kw s
  && boundary (match kw with [] => before | _ => Some (List.last kw 0%N) end)
              (head (drop (length kw) s)).

(** [len(re.findall(pattern, s))]: the matches are found from left to
    right and do not overlap; [skip] code points are still covered by
    the last match. *)
Fixpoint findall_from (kw : str) (before : option cp) (s : str) (skip : nat) : nat :=
  match skip with
  | S k =>
      match s with
      | [] => 0
      | c :: s' => findall_from kw (Some c) s' k
      end
  | O =>
      let found := match_here kw before s in
      ((if found then 1 else 0) +
       match s with
       | [] => 0
       | c :: s' => findall_from kw (Some c) s' (if found then length kw - 1 else 0)
       end)%nat
  end.

Definition findall_count (kw text : str) : nat := findall_from kw None text 0.

Definition count_keyword_matches (text : str) (keywords : list str) : counts :=
  let normalized_text := normalize_text text in
  fold_left
    (fun matches keyword =>
       let normalized_keyword := normalize_text keyword in
       let count := Z.of_nat (findall_count normalized_keyword normalized_text) in
       if 0 <? count then counts_set matches keyword count else matches)
    keywords [].

Definition calculate_relevance_score
    (primary_matches secondary_matches exclusion_matches : counts) : Z :=
  let primary_score := sum (List.map (fun count => count * 20) (values primary_matches)) in
  let secondary_score := sum (List.map (fun count => count * 5) (values secondary_matches)) in
  let exclusion_penalty := sum (List.map (fun count => count * 10) (values exclusion_matches)) in
  let primary_score :=
    if (1 <? length primary_matches)%nat then primary_score + 15 else primary_score in
  let final_score := primary_score + secondary_score - exclusion_penalty in
  Z.max 0 (Z.min 100 final_score).

(** [x or ''] inside an f-string. *)
Definition or_empty (v : value) : str :=
  if truthy v then format v else [].

(** [f"{title or ''} {description or ''} {content or ''}"] *)
Definition combined (title description content : value) : str :=
  or_empty title ++ [sp] ++ or_empty description ++ [sp] ++ or_empty content.

Definition filter_content (title description content : value) : FilterResult :=
  let full_text := combined title description content in
  match strip full_text with
  | [] =>
      {| is_relevant := false; relevance_score := 0; matched_keywords := [];
         filter_reason := Some (lit "No content to analyze") |}
  | _ =>
      let primary_matches := count_keyword_matches full_text primary_keywords in
      let secondary_matches := count_keyword_matches full_text secondary_keywords in
      let exclusion_matches := count_keyword_matches full_text exclusion_keywords in
      let relevance_score :=
        calculate_relevance_score primary_matches secondary_matches exclusion_matches in
      let has_primary_keyword := (0 <? length primary_matches)%nat in
      let min_score_threshold := 15 in
      let is_relevant := has_primary_keyword && (min_score_threshold <=? relevance_score) in
      let all_matched := keys primary_matches ++ keys secondary_matches in
      let filter_reason :=
        if negb is_relevant then
          if negb has_primary_keyword then Some (lit "No tax reform keywords found")
          else if relevance_score <? min_score_threshold
               then Some (lit "Low relevance score: " ++ str_of_int relevance_score)
               else None
        else None in
      {| is_relevant := is_relevant; relevance_score := relevance_score;
         matched_keywords := all_matched; filter_reason := filter_reason |}
  end.

(** The verdict on an item: the first four statements of the loop body
    of [filter_items_list]. *)
Definition verdict_of (item : dict) : FilterResult :=
  let title := get item "title" (VStr []) in
  let description := get item "description" (VStr []) in
  let content := get item "content" (VStr []) in
  filter_content title description content.

Definition verdict (h : heap) (item : loc) : FilterResult :=
  verdict_of (deref h item).

(** The loop of [filter_items_list]: a relevant item is written to, in
    place, and appended to [filtered_items]. *)
Definition filter_step (st : heap * list loc) (item : loc) : heap * list loc :=
  let '(h, filtered_items) := st in
  let filter_result := verdict h item in
  if is_relevant filter_result then
    let d := deref h item in
    let d := <["relevance_score" := VInt (relevance_score filter_result)]> d in
    let d := <["matched_keywords" := VList (matched_keywords filter_result)]> d in
    (<[item := d]> h, filtered_items ++ [item])
  else (h, filtered_items).

(** The sort key [x.get('relevance_score', 0)]; every item that reaches
    the sort carries the [int] written by the loop. *)
Definition sort_key (h : heap) (item : loc) : Z :=
  match get (deref h item) "relevance_score" (VInt 0) with
  | VInt n => n
  | _ => 0
  end.

Definition filter_items_list (h : heap) (items : list loc) : heap * list loc :=
  let '(h', filtered_items) := fold_left filter_step items (h, []) in
  (h', sort_desc (sort_key h') filtered_items).

End WithRuntime.
End ContentFilter.

(** ** Search ([apis/search/__init__.py]) *)

Module Search.

Definition sanitize_search_query (query : str) : str :=
  let query := sub_class (lit "<>()&|!") sp query in
  let words :=
    List.map strip
      (List.filter (fun word => match strip word with [] => false | _ => true end)
                   (split query)) in
  match words with
  | [] => []
  | _ => join (lit " & ") words
  end.

(** *** The data store

    The rows of the three tables the search reads.  Columns that the
    response model declares [Optional] may be [NULL]. *)
Record feed_item := {
  id : Z;
  source_id : Z;
  title : str;
  description : option str;
  content : option str;
  link : str;
  pub_date : option Z;
  priority : str;
  relevance_score : Z;
  keywords : option (list str);
  category : str;
  created_at : Z
}.

Record rss_source := { rs_id : Z; rs_name : str }.

Record user_bookmark := { ub_id : Z; ub_feed_item_id : Z; ub_user_id : str }.

Record database := {
  online : bool;
  rss_feed_items : list feed_item;
  rss_sources : list rss_source;
  user_bookmarks : list user_bookmark
}.

(** PostgreSQL's text search, which the queries call: [to_tsquery]
    parses the sanitized query ([None]: it is rejected as malformed),
    [ts_match doc q] is [to_tsvector('portuguese', doc) @@ q],
    [ts_rank_cd] the rank of a match, and [order_by] the order in which
    the server returns rows under an [ORDER BY] clause. *)
Inductive sort_column := by_search_rank | by_pub_date | by_priority.
Inductive sort_direction := ASC | DESC.

Abbreviation joined_row := (feed_item * option rss_source * option user_bookmark)%type.

Class TextSearch := {
  tsquery : Type;
  to_tsquery : str -> option tsquery;
  ts_match : str -> tsquery -> bool;
  ts_rank_cd : str -> tsquery -> float;
  order_by : tsquery -> sort_column -> sort_direction -> list joined_row -> list joined_row
}.

(** *** Requests and responses *)
Record SearchFilters := {
  date_from : option Z;
  date_to : option Z;
  source_ids : option (list Z);
  categories : option (list str);
  priorities : option (list str);
  min_relevance : option Z;
  f_keywords : option (list str);
  exclude_keywords : option (list str);
  bookmarked_only : option bool
}.

Record SearchRequest := {
  query : str;
  filters : option SearchFilters;
  page : Z;
  per_page : Z;
  sort_by : str;
  sort_order : str
}.

(** A [SearchResult] without the highlighted copies of its texts. *)
Record SearchResult := {
  row : feed_item;
  source_name : option str;
  is_bookmarked : bool;
  search_rank : float
}.

Record Facets := {
  facet_categories : list (str * Z);
  facet_sources : list (option str * Z);
  facet_priorities : list (str * Z)
}.

(** A [SearchResponse] without [search_time_ms]. *)
Record SearchResponse := {
  results : list SearchResult;
  total_results : Z;
  resp_page : Z;
  resp_per_page : Z;
  total_pages : Z;
  facets : Facets
}.

(** What the handler raises, and what the client receives. *)
Inductive exception :=
  | HTTPException (status_code : Z)
  | ConnectionError
  | PostgresError.

Inductive outcome :=
  | Sent (r : SearchResponse)
  | Failed (status_code : Z).

(** Calls on the data store, in the order they are made. *)
Inductive event := Connect | Fetchval | Fetch | Execute | Close.

(** The handler's effects: the data store calls made so far, and either
    a value or the exception that ended the computation. *)
Definition M (A : Type) : Type := list event -> list event * (exception + A).

Definition ret {A} (a : A) : M A := fun tr => (tr, inr a).
Definition raise {A} (e : exception) : M A := fun tr => (tr, inl e).
Definition bind {A B} (m : M A) (k : A -> M B) : M B :=
  fun tr => match m tr with
            | (tr', inr a) => k a tr'
            | (tr', inl e) => (tr', inl e)
            end.
Definition call (e : event) : M unit := fun tr => (tr ++ [e], inr tt).

(** [try: body finally: cleanup] *)
Definition finally {A} (body : M A) (cleanup : M unit) : M A :=
  fun tr => match body tr with
            | (tr', r) =>
                match cleanup tr' with
                | (tr'', inr _) => (tr'', r)
                | (tr'', inl e) => (tr'', inl e)
                end
            end.

Notation "'let*' x := m 'in' k" := (bind m (fun x => k))
  (at level 10, x name, k at level 200).
Notation "m >> k" := (bind m (fun _ => k))
  (at level 100, k at level 200, right associativity).

(** Truth of an optional list parameter: [None] and [[]] are false. *)
Definition given {A} (o : option (list A)) : option (list A) :=
  match o with
  | Some (_ :: _) => o
  | _ => None
  end.

Definition mem_Z (x : Z) (l : list Z) : bool := existsb (Z.eqb x) l.
Definition mem_str (x : str) (l : list str) : bool :=
  existsb (fun y => if decide (x = y) then true else false) l.

(** The array operator [a && b]: the two arrays share an element. *)
Definition overlap (a b : list str) : bool := existsb (fun x => mem_str x b) a.

(** A [date] parameter compared with a timestamp column: midnight. *)
Definition midnight (day : Z) : Z := day * 86400000000.

(** [left_join on l r]: [l LEFT JOIN r ON on]. *)
Definition left_join {A B} (on : A -> B -> bool) (l : list A) (r : list B)
    : list (A * option B) :=
  flat_map
    (fun a =>
       match List.filter (on a) r with
       | [] => [(a, None)]
       | matches => List.map (fun b => (a, Some b)) matches
       end) l.

(** The text that is searched:
    [fi.title || ' ' || COALESCE(fi.description, '') || ' ' || COALESCE(fi.content, '')] *)
Definition document (fi : feed_item) : str :=
  title fi ++ [sp] ++ default [] (description fi) ++ [sp] ++ default [] (content fi).

(** [GROUP BY key] with [COUNT( * )]: one row per distinct key. *)
Fixpoint bump {K} (eqb : K -> K -> bool) (k : K) (groups : list (K * Z)) : list (K * Z) :=
  match groups with
  | [] => [(k, 1)]
  | (k', n) :: rest =>
      if eqb k' k then (k', n + 1) :: rest else (k', n) :: bump eqb k rest
  end.

Definition group_count {K} (eqb : K -> K -> bool) (ks : list K) : list (K * Z) :=
  fold_left (fun groups k => bump eqb k groups) ks [].

(** [... GROUP BY key ORDER BY count DESC].  (The server leaves the order
    of groups with equal counts open; the stable sort fixes one such
    order.) *)
Definition count_by {K} (eqb : K -> K -> bool) (ks : list K) : list (K * Z) :=
  sort_desc snd (group_count eqb ks).

Definition str_eqb (a b : str) : bool := if decide (a = b) then true else false.
Definition opt_str_eqb (a b : option str) : bool := if decide (a = b) then true else false.

Section WithTextSearch.
Context {rt : Runtime} {ts : TextSearch}.

(** The conditions appended to the [WHERE] clause, one per filter that is
    present; a comparison with [NULL] does not hold. *)
Definition filter_conditions (request : SearchRequest) (user : option str)
    : list (joined_row -> bool) :=
  match filters request with
  | None => []
  | Some f =>
      (match date_from f with
       | Some d => [fun '(fi, _, _) =>
                      match pub_date fi with Some p => midnight d <=? p | None => false end]
       | None => [] end) ++
      (match date_to f with
       | Some d => [fun '(fi, _, _) =>
                      match pub_date fi with Some p => p <=? midnight d | None => false end]
       | None => [] end) ++
      (match given (source_ids f) with
       | Some ids => [fun '(fi, _, _) => mem_Z (source_id fi) ids]
       | None => [] end) ++
      (match given (categories f) with
       | Some cs => [fun '(fi, _, _) => mem_str (category fi) cs]
       | None => [] end) ++
      (match given (priorities f) with
       | Some ps => [fun '(fi, _, _) => mem_str (priority fi) ps]
       | None => [] end) ++
      (match min_relevance f with
       | Some m => [fun '(fi, _, _) => m <=? relevance_score fi]
       | None => [] end) ++
      (match given (f_keywords f) with
       | Some ks => [fun '(fi, _, _) =>
                       match keywords fi with Some a => overlap a ks | None => false end]
       | None => [] end) ++
      (match given (exclude_keywords f) with
       | Some ks => [fun '(fi, _, _) =>
                       match keywords fi with Some a => negb (overlap a ks) | None => false end]
       | None => [] end) ++
      (match bookmarked_only f, user with
       | Some true, Some _ => [fun '(_, _, ub) =>
                                 match ub with Some _ => true | None => false end]
       | _, _ => [] end)
  end.

(** The rows of [base_query]: the two joins, the text match and the
    filter conditions. *)
Definition base_rows (db : database) (q : tsquery) (request : SearchRequest)
    (user : option str) : list joined_row :=
  let user_id := default [] user in
  let with_source :=
    left_join (fun fi rs => source_id fi =? rs_id rs) (rss_feed_items db) (rss_sources db) in
  let with_bookmark :=
    left_join (fun '(fi, _) ub =>
                 (id fi =? ub_feed_item_id ub) && str_eqb (ub_user_id ub) user_id)
              with_source (user_bookmarks db) in
  List.filter
    (fun r => let '(fi, _, _) := r in
              ts_match (document fi) q
              && forallb (fun cond => cond r) (filter_conditions request user))
    with_bookmark.

Definition sort_column_of (sort_by : str) : sort_column :=
  if str_eqb sort_by (lit "relevance") then by_search_rank
  else if str_eqb sort_by (lit "date") then by_pub_date
  else if str_eqb sort_by (lit "priority") then by_priority
  else by_search_rank.

Definition to_result (q : tsquery) (r : joined_row) : SearchResult :=
  let '(fi, rs, ub) := r in
  {| row := fi;
     source_name := rs_name <$> rs;
     is_bookmarked := match ub with Some _ => true | None => false end;
     search_rank := ts_rank_cd (document fi) q |}.

(** A statement that passes the sanitized query to [to_tsquery]; the
    server rejects it when the query is malformed. *)
Definition parse (e : event) (query : str) : M tsquery :=
  call e >>
  match to_tsquery query with
  | Some q => ret q
  | None => raise PostgresError
  end.

Definition get_db_connection (db : database) : M unit :=
  call Connect >> if online db then ret tt else raise ConnectionError.

Definition get_search_facets (db : database) (query : str) (user_id : str) : M Facets :=
  get_db_connection db >>
  finally
    (let* q := parse Fetch query in
     let category_facets :=
       count_by str_eqb
         (List.map category
            (List.filter (fun fi => ts_match (document fi) q) (rss_feed_items db))) in
     let* q := parse Fetch query in
     let source_facets :=
       count_by opt_str_eqb
         (List.map (fun '(_, rs) => rs_name <$> rs)
            (List.filter (fun '(fi, _) => ts_match (document fi) q)
               (left_join (fun fi rs => source_id fi =? rs_id rs)
                          (rss_feed_items db) (rss_sources db)))) in
     let* q := parse Fetch query in
     let priority_facets :=
       count_by str_eqb
         (List.map priority
            (List.filter (fun fi => ts_match (document fi) q) (rss_feed_items db))) in
     ret {| facet_categories := category_facets;
            facet_sources := source_facets;
            facet_priorities := priority_facets |})
    (call Close).

(** [record_search_analytics] and [record_user_search_history]: one
    statement each, on a connection of its own.  The tables they write
    are not read by the search. *)
Definition record_search (db : database) : M unit :=
  get_db_connection db >> finally (call Execute) (call Close).

(** The body of the [try] block of [search_content]. *)
Definition search_body (db : database) (request : SearchRequest) (user : option str)
    : M SearchResponse :=
  get_db_connection db >>
  let sanitized_query := sanitize_search_query (query request) in
  match sanitized_query with
  | [] => raise (HTTPException 400)
  | _ =>
      let* q := parse Fetchval sanitized_query in
      let rows := base_rows db q request user in
      let sort_col := sort_column_of (sort_by request) in
      let sort_direction :=
        if str_eqb (lower (sort_order request)) (lit "asc") then ASC else DESC in
      let total_results := Z.of_nat (length rows) in
      let offset := (page request - 1) * per_page request in
      let* q := parse Fetch sanitized_query in
      let page_rows :=
        take (Z.to_nat (per_page request))
          (drop (Z.to_nat offset) (order_by q sort_col sort_direction rows)) in
      let results := List.map (to_result q) page_rows in
      call Close >>
      let total_pages := (total_results + per_page request - 1) / per_page request in
      record_search db >>
      match user with Some _ => record_search db | None => ret tt end >>
      let* facets := get_search_facets db sanitized_query (default [] user) in
      ret {| results := results;
             total_results := total_results;
             resp_page := page request;
             resp_per_page := per_page request;
             total_pages := total_pages;
             facets := facets |}
  end.

(** [search_content]: the [try] block and its handler
    [except Exception as e: raise HTTPException(status_code=500, ...)].
    [HTTPException] is an [Exception], so the handler also receives the
    one raised in the block. *)
Definition search_content (db : database) (request : SearchRequest) (user : option str)
    : list event * outcome :=
  match search_body db request user [] with
  | (tr, inr response) => (tr, Sent response)
  | (tr, inl e) => (tr, Failed 500)
  end.

End WithTextSearch.
End Search.

(** * [re]: the two patterns of [email_authorization.py]

    A pattern is a regular expression over code points.  Whether a
    string matches does not depend on how the engine searches, so the
    matcher below takes the derivative of the pattern by each code point
    in turn. *)
Module Re.
Import Py.

Inductive re :=
  | Void
  | Eps
  | Cls (p : cp -> bool)
  | Seq (r1 r2 : re)
  | Alt (r1 r2 : re)
  | Star (r : re).

(** A literal code point, [r+] and [r{n,}]. *)
Definition Chr (c : cp) : re := Cls (N.eqb c).
Definition Plus (r : re) : re := Seq r (Star r).
Fixpoint AtLeast (n : nat) (r : re) : re :=
  match n with
  | O => Star r
  | S n' => Seq r (AtLeast n' r)
  end.

Fixpoint nullable (r : re) : bool :=
  match r with
  | Void => false
  | Eps => true
  | Cls _ => false
  | Seq r1 r2 => nullable r1 && nullable r2
  | Alt r1 r2 => nullable r1 || nullable r2
  | Star _ => true
  end.

Fixpoint deriv (c : cp) (r : re) : re :=
  match r with
  | Void => Void
  | Eps => Void
  | Cls p => if p c then Eps else Void
  | Seq r1 r2 =>
      if nullable r1 then Alt (Seq (deriv c r1) r2) (deriv c r2)
      else Seq (deriv c r1) r2
  | Alt r1 r2 => Alt (deriv c r1) (deriv c r2)
  | Star r' => Seq (deriv c r') (Star r')
  end.

(** The whole of [s] matches [r]. *)
Definition fullmatch (r : re) (s : str) : bool :=
  nullable (fold_left (fun r c => deriv c r) s r).

(** [s] without the newline that ends it, if one does. *)
Definition before_final_newline (s : str) : option str :=
  match rev s with
  | 10%N :: s' => Some (rev s')
  | _ => None
  end.

(** [bool(re.match('^' r '$', s))]: [$] matches at the end of the string
    and just before a newline that ends the string. *)
Definition match_anchored (r : re) (s : str) : bool :=
  fullmatch r s
  || match before_final_newline s with
     | Some s' => fullmatch r s'
     | None => false
     end.

(** [lo-hi] inside a class. *)
Definition range (lo hi : string) (c : cp) : bool :=
  match lit lo, lit hi with
  | [a], [b] => (a <=? c)%N && (c <=? b)%N
  | _, _ => false
  end.

Definition one_of (cs : string) (c : cp) : bool := existsb (N.eqb c) (lit cs).

End Re.

(** * [email_authorization.py] *)
Module EmailAuthorization.
Import Py Re.

Record state := {
  authorized_emails : gset str;
  authorized_domains : gset str;
  admin_emails : gset str
}.

(** [__init__] *)
Definition init : state :=
  {| authorized_emails :=
       {[ lit "fernando@forvismazars.com"; lit "fernando.xavier@forvismazars.com" ]};
     authorized_domains := {[ lit "forvismazars.com" ]};
     admin_emails :=
       {[ lit "fernando@forvismazars.com"; lit "fernando.xavier@forvismazars.com" ]} |}.

(** [[a-zA-Z0-9._%+-]], [[a-zA-Z0-9.-]] and [[a-zA-Z]] *)
Definition local_char (c : cp) : bool :=
  range "a" "z" c || range "A" "Z" c || range "0" "9" c || one_of "._%+-" c.
Definition domain_char (c : cp) : bool :=
  range "a" "z" c || range "A" "Z" c || range "0" "9" c || one_of ".-" c.
Definition letter (c : cp) : bool := range "a" "z" c || range "A" "Z" c.

Definition at_sign : cp := 64%N.
Definition dot : cp := 46%N.

(** [[a-zA-Z0-9.-]+\.[a-zA-Z]{2,}] *)
Definition domain_pattern : re :=
  Seq (Plus (Cls domain_char)) (Seq (Chr dot) (AtLeast 2 (Cls letter))).

(** [[a-zA-Z0-9._%+-]+@[a-zA-Z0-9.-]+\.[a-zA-Z]{2,}] *)
Definition email_pattern : re :=
  Seq (Plus (Cls local_char)) (Seq (Chr at_sign) domain_pattern).

Definition _is_valid_email (email : str) : bool := match_anchored email_pattern email.
Definition _is_valid_domain (domain : str) : bool := match_anchored domain_pattern domain.

(** [s.split(sep)] for a separator of one code point. *)
Fixpoint split_on (sep : cp) (s : str) : list str :=
  match s with
  | [] => [[]]
  | c :: s' =>
      if (c =? sep)%N then [] :: split_on sep s'
      else match split_on sep s' with
           | part :: parts => (c :: part) :: parts
           | [] => [[c]]
           end
  end.

(** [None]: [IndexError]. *)
Definition _extract_domain (email : str) : option str :=
  if str_in [at_sign] email then nth_error (split_on at_sign email) 1
  else Some [].

Section WithRuntime.
Context {rt : Runtime}.

(** [email.lower().strip()] *)
Definition normalized (s : str) : str := strip (lower s).

(** The methods take any object; [None] as a result stands for an
    exception that leaves the method ([AttributeError] where a method of
    [str] is called on another object). *)
Definition is_email_authorized (self : state) (email : value) : option bool :=
  match email with
  | VStr e =>
      if negb (truthy email) then Some false
      else
        let email := normalized e in
        if negb (_is_valid_email email) then Some false
        else if decide (email ∈ authorized_emails self) then Some true
        else
          match _extract_domain email with
          | Some domain =>
              if decide (domain ∈ authorized_domains self) then Some true
              else Some false
          | None => None
          end
  | _ => Some false
  end.

Definition is_admin (self : state) (email : value) : option bool :=
  if negb (truthy email) then Some false
  else match email with
       | VStr e => Some (bool_decide (normalized e ∈ admin_emails self))
       | _ => None
       end.

Definition add_authorized_email (self : state) (email : value) : state * bool :=
  match email with
  | VStr e =>
      if negb (truthy email) then (self, false)
      else
        let email := normalized e in
        if negb (_is_valid_email email) then (self, false)
        else ({| authorized_emails := {[ email ]} ∪ authorized_emails self;
                 authorized_domains := authorized_domains self;
                 admin_emails := admin_emails self |}, true)
  | _ => (self, false)
  end.

Definition remove_authorized_email (self : state) (email : value)
    : option (state * bool) :=
  if negb (truthy email) then Some (self, false)
  else match email with
       | VStr e =>
           let email := normalized e in
           if decide (email ∈ authorized_emails self)
           then Some ({| authorized_emails := authorized_emails self ∖ {[ email ]};
                         authorized_domains := authorized_domains self;
                         admin_emails := admin_emails self |}, true)
           else Some (self, false)
       | _ => None
       end.

Definition add_authorized_domain (self : state) (domain : value) : state * bool :=
  match domain with
  | VStr d =>
      if negb (truthy domain) then (self, false)
      else
        let domain := normalized d in
        if negb (_is_valid_domain domain) then (self, false)
        else ({| authorized_emails := authorized_emails self;
                 authorized_domains := {[ domain ]} ∪ authorized_domains self;
                 admin_emails := admin_emails self |}, true)
  | _ => (self, false)
  end.

Definition remove_authorized_domain (self : state) (domain : value)
    : option (state * bool) :=
  if negb (truthy domain) then Some (self, false)
  else match domain with
       | VStr d =>
           let domain := normalized d in
           if decide (domain ∈ authorized_domains self)
           then Some ({| authorized_emails := authorized_emails self;
                         authorized_domains := authorized_domains self ∖ {[ domain ]};
                         admin_emails := admin_emails self |}, true)
           else Some (self, false)
       | _ => None
       end.

Inductive authorization_type := individual_email | authorized_domain.

(** The dictionary that [get_authorization_summary] returns. *)
Record summary := {
  s_email : option str;
  s_is_authorized : bool;
  s_is_admin : bool;
  s_authorization_type : option authorization_type;
  s_domain : option str
}.

Definition get_authorization_summary (self : state) (email : value) : option summary :=
  if negb (truthy email)
  then Some {| s_email := None; s_is_authorized := false; s_is_admin := false;
               s_authorization_type := None; s_domain := None |}
  else match email with
       | VStr e =>
           let email := normalized e in
           match _extract_domain email with
           | None => None
           | Some domain =>
               match is_email_authorized self (VStr email) with
               | None => None
               | Some is_authorized =>
                   match is_admin self (VStr email) with
                   | None => None
                   | Some is_admin =>
                       let authorization_type :=
                         if is_authorized : bool
                         then if decide (email ∈ authorized_emails self)
                              then Some individual_email
                              else if decide (domain ∈ authorized_domains self)
                                   then Some authorized_domain
                                   else None
                         else None in
                       Some {| s_email := Some email; s_is_authorized := is_authorized;
                               s_is_admin := is_admin;
                               s_authorization_type := authorization_type;
                               s_domain := Some domain |}
                   end
               end
           end
       | _ => None
       end.

End WithRuntime.
End EmailAuthorization.

(** * [access_middleware.py]

    The [print] calls of the module are left out. *)
Module AccessMiddleware.
Import Py EmailAuthorization.

(** The two attributes that the middleware reads with
    [getattr(user, name, None)]. *)
Record AuthorizedUser := {
  sub : value;
  email : value
}.

(** [HTTPException] with its status and the [code] of its detail, or
    an exception that comes out of [email_auth]. *)
Inductive exception :=
  | HTTPException (status_code : Z) (code : string)
  | Uncaught.

Definition fixed_user_id : str := lit "6a7b599d-bd37-4a57-b92f-f95715e8c332".

Definition is_str (s : str) (v : value) : bool :=
  match v with
  | VStr s' => if decide (s' = s) then true else false
  | _ => false
  end.

Section WithRuntime.
Context {rt : Runtime}.

(** [email_auth] is the module's one [EmailAuthorization] object. *)
Definition verify_email_authorization (email_auth : state) (user : AuthorizedUser)
    : exception + AuthorizedUser :=
  let user_email := email user in
  let user_sub := sub user in
  if is_str fixed_user_id user_sub then inr user
  else if negb (truthy user_email) then inl (HTTPException 403 "NO_EMAIL")
  else
    match is_email_authorized email_auth user_email with
    | None => inl Uncaught
    | Some false =>
        match get_authorization_summary email_auth user_email with
        | None => inl Uncaught
        | Some auth_details => inl (HTTPException 403 "EMAIL_NOT_AUTHORIZED")
        end
    | Some true => inr user
    end.

Definition check_admin_access (email_auth : state) (user : AuthorizedUser)
    : option bool :=
  let user_email := email user in
  if negb (truthy user_email) then Some false
  else is_admin email_auth user_email.

Definition require_admin_access (email_auth : state) (user : AuthorizedUser)
    : exception + AuthorizedUser :=
  match verify_email_authorization email_auth user with
  | inl e => inl e
  | inr user =>
      match check_admin_access email_auth user with
      | None => inl Uncaught
      | Some false => inl (HTTPException 403 "NOT_ADMIN")
      | Some true => inr user
      end
  end.

End WithRuntime.
End AccessMiddleware.

(** ** A small text search for the examples

    Stands in for PostgreSQL where a statement is run on concrete rows:
    the query is its words, and a document matches when every word
    occurs in it, ignoring case. *)
Definition word_search : Search.TextSearch :=
  {| Search.tsquery := list str;
     Search.to_tsquery := fun s =>
       Some (List.filter (fun w => negb (Search.str_eqb w (lit "&"))) (split s));
     Search.ts_match := fun doc q =>
       forallb (fun w => str_in (List.map lower_cp w) (List.map lower_cp doc)) q;
     Search.ts_rank_cd := fun _ _ => S754_zero false;
     Search.order_by := fun _ _ _ rows => rows |}.

Import PriorityScorer.

(** ** Vocabulary of the statements *)

(** [kw] occurs in [s]. *)
Definition substring (kw s : str) : Prop := exists pre post, s = pre ++ kw ++ post.

(** The filter counts at least one match of [keyword] in [text]. *)
Definition keyword_matches {rt : Runtime} (keyword text : str) : Prop :=
  (0 < ContentFilter.findall_count (ContentFilter.normalize_text keyword)
                                   (ContentFilter.normalize_text text))%nat.

Definition some_primary_keyword_matches {rt : Runtime} (text : str) : Prop :=
  exists keyword, In keyword ContentFilter.primary_keywords /\ keyword_matches keyword text.

(** The keyword list of a category in [CATEGORIES], and the position of
    the category in that table. *)
Definition category_keywords (c : category) : list str :=
  match List.find (fun entry => category_eqb (fst entry) c) CATEGORIES with
  | Some (_, keywords) => keywords
  | None => []
  end.

Definition category_rank (c : category) : nat :=
  match c with
  | tax_reform => 0
  | legislation => 1
  | economy => 2
  | regulation => 3
  | general => 4
  end.

(** Some keyword of category [c] occurs in [text]. *)
Definition category_matches (c : category) (text : str) : Prop :=
  exists keyword, In keyword (category_keywords c) /\ substring keyword text.

(** The order [low < medium < high]. *)
Definition priority_rank (p : priority) : Z :=
  match p with
  | low => 0
  | medium => 1
  | high => 2
  end.

(** *** Tables for the exhaustive check of the priority formula

    The final score depends on the text only through the relevance
    (0..100), on the source only through the multiplier (one of the
    values of [SOURCE_MULTIPLIERS], or the default 1.0), and on the dates
    only through the bonus (0, 2, 5 or 10). *)
Definition float_eq_dec (x y : float) : {x = y} + {x <> y}.
Proof.
  decide equality; try apply Z.eq_dec; try apply Pos.eq_dec; apply Bool.bool_dec.
Defined.

Definition credibilities : list Z := List.map Z.of_nat (seq 0 101).

Definition factor_of (c : Z) : float := default S754_nan (credibility_factor c).

Definition multipliers : list float :=
  nodup float_eq_dec (literal 1 1 :: List.map snd SOURCE_MULTIPLIERS).

Definition bonuses : list Z := [0; 2; 5; 10].

Fixpoint nondecreasing (l : list Z) : bool :=
  match l with
  | a :: (b :: _) as rest => (a <=? b) && nondecreasing rest
  | _ => true
  end.

(** Every float of the list is at most itself and every later one. *)
Fixpoint ascending (l : list float) : bool :=
  match l with
  | [] => true
  | x :: rest => forallb (fle x) l && ascending rest
  end.

(** [levels_nondecreasing ms rs bs cs]: for every multiplier of [ms],
    relevance of [rs] and bonus of [bs], the priority levels obtained
    at the credibilities [cs], in this order, never decrease. *)
Definition levels_nondecreasing (ms : list float) (rs bs cs : list Z) : bool :=
  let factors := List.map factor_of cs in
  forallb
    (fun multiplier =>
       forallb
         (fun relevance =>
            let scaled := fmul (float_of_int relevance) multiplier in
            let products := List.map (fmul scaled) factors in
            forallb
              (fun bonus =>
                 nondecreasing
                   (List.map
                      (fun product =>
                         priority_rank (level_of (fadd product (float_of_int bonus))))
                      products))
              bs)
         rs)
    ms.

(** What [filter_items_list] writes into a relevant item. *)
Definition with_verdict (r : ContentFilter.FilterResult) (item : dict) : dict :=
  <["matched_keywords" := VList (ContentFilter.matched_keywords r)]>
    (<["relevance_score" := VInt (ContentFilter.relevance_score r)]> item).

(** The state [st] of the loop of [filter_items_list] after the items
    [items]: the store [h0] it started from, with the relevant ones of
    these items written to, and the list of the relevant ones. *)
Definition loop_state {rt : Runtime} (h0 : heap) (items : list loc)
    (st : heap * list loc) : Prop :=
  (forall l, ContentFilter.verdict (fst st) l = ContentFilter.verdict h0 l)
  /\ snd st
     = List.filter (fun l => ContentFilter.is_relevant (ContentFilter.verdict h0 l)) items
  /\ (forall l, In l (snd st) ->
        fst st !! l = Some (with_verdict (ContentFilter.verdict h0 l) (deref h0 l)))
  /\ (forall l, ~ In l (snd st) -> fst st !! l = h0 !! l).

(** An item that [score_batch] can score: the entries it reads, where
    present, have the types the scorer's methods need. *)
Definition scorable (item : dict) : bool :=
  match as_str (get item "title" (VStr [])),
        as_str (get item "source_name" (VStr [])),
        as_int (get item "source_credibility" (VInt 70)),
        as_pub_date (get item "pub_date" VNone) with
  | Some _, Some _, Some credibility, Some _ =>
      match credibility_factor credibility with Some _ => true | None => false end
  | _, _, _, _ => false
  end.

Definition scorable_at (h : heap) (l : loc) : bool :=
  match h !! l with
  | Some item => scorable item
  | None => false
  end.

(** The keys that [score_batch] sets. *)
Definition enrichment_keys : list string :=
  ["relevance_score"; "priority"; "keywords"; "category"].

(** The item [item] with the four enrichment values. *)
Definition enriched (item : dict) (relevance_score : Z) (p : priority)
    (keywords : list str) (c : category) : dict :=
  <["category" := VStr (category_name c)]>
    (<["keywords" := VList keywords]>
       (<["priority" := VStr (priority_name p)]>
          (<["relevance_score" := VInt relevance_score]> item))).

(** Two items, the first listed twice. *)
Definition example_item_1 : dict :=
  <["title" := VStr (lit "Reforma tributária: IBS e CBS")]>
    (<["source_credibility" := VInt 80]> ∅).

Definition example_item_2 : dict :=
  <["title" := VStr (lit "Jogo de futebol")]>
    (<["description" := VNone]> (<["link" := VStr (lit "http://example.org/2")]> ∅)).

Definition example_heap : heap :=
  <[1%positive := example_item_1]> (<[2%positive := example_item_2]> ∅).

Definition example_items : list loc := [1%positive; 2%positive; 1%positive].

Definition example_clock (i : nat) : datetime := {| ticks := 0; tzinfo := None |}.

(** A small data store: two items of one source, both about the IBS,
    one of high and one of low priority. *)
Definition example_feed_item (n : Z) (text prio : string) : Search.feed_item :=
  {| Search.id := n; Search.source_id := 1; Search.title := lit text;
     Search.description := None; Search.content := None;
     Search.link := lit "http://example.org"; Search.pub_date := None;
     Search.priority := lit prio; Search.relevance_score := 95;
     Search.keywords := Some [lit "ibs"]; Search.category := lit "tax_reform";
     Search.created_at := 0 |}.

Definition example_db : Search.database :=
  {| Search.online := true;
     Search.rss_feed_items :=
       [example_feed_item 1 "IBS aprovado" "high"; example_feed_item 2 "IBS adiado" "low"];
     Search.rss_sources := [{| Search.rs_id := 1; Search.rs_name := lit "Senado Federal" |}];
     Search.user_bookmarks :=
       [{| Search.ub_id := 1; Search.ub_feed_item_id := 2; Search.ub_user_id := lit "u1" |}] |}.

Definition example_request (q : string) (f : option Search.SearchFilters)
    : Search.SearchRequest :=
  {| Search.query := lit q; Search.filters := f; Search.page := 1;
     Search.per_page := 10; Search.sort_by := lit "relevance";
     Search.sort_order := lit "desc" |}.

Definition only_high_priority : Search.SearchFilters :=
  {| Search.date_from := None; Search.date_to := None; Search.source_ids := None;
     Search.categories := None; Search.priorities := Some [lit "high"];
     Search.min_relevance := None; Search.f_keywords := None;
     Search.exclude_keywords := None; Search.bookmarked_only := Some false |}.

(** The sum of the counts of a facet. *)
Definition facet_total {K} (groups : list (K * Z)) : Z :=
  fold_right Z.add 0 (List.map snd groups).

(** The feed items whose text matches the query. *)
Definition matching_items {ts : Search.TextSearch} (db : Search.database)
    (q : Search.tsquery) : list Search.feed_item :=
  List.filter (fun fi => Search.ts_match (Search.document fi) q) (Search.rss_feed_items db).

(** A word as [str.split] returns it: not empty, without white space. *)
Definition split_word (w : str) : Prop :=
  w <> [] /\ Forall (fun c => isspace c = false) w.

(** *** The relevance score in closed form *)

(** The text in which [calculate_relevance_score] looks for keywords:
    its [full_text] after the two substitutions and the [strip]. *)
Definition scorer_text {rt : Runtime} (title description content : str) : str :=
  strip (sub_space_runs false
           (sub_not_kept (lower (PriorityScorer.combined title description content)))).

(** The entries of a keyword table whose keyword occurs in [text]. *)
Definition occurring (table : list (str * Z)) (text : str) : list (str * Z) :=
  List.filter (fun entry => str_in (fst entry) text) table.

Definition total_weight (entries : list (str * Z)) : Z :=
  fold_right Z.add 0 (List.map snd entries).

(** Number of the keywords of [kws] that occur in [text]. *)
Definition count_in (text : str) (kws : list str) : Z :=
  Z.of_nat (length (List.filter (fun kw => str_in kw text) kws)).

(** *** The admission filter *)

(** The number of matches the filter counts for [keyword] in [text]. *)
Definition match_count {rt : Runtime} (keyword text : str) : Z :=
  Z.of_nat (ContentFilter.findall_count (ContentFilter.normalize_text keyword)
                                        (ContentFilter.normalize_text text)).

(** The keywords of [keywords] with at least one match, with their
    counts, in the order of [keywords]. *)
Definition matching {rt : Runtime} (text : str) (keywords : list str) : list (str * Z) :=
  List.map (fun kw => (kw, match_count kw text))
    (List.filter (fun kw => 0 <? match_count kw text) keywords).

(** The letters that [normalize_text] replaces. *)
Definition accented : str := lit "àáâãäåèéêëìíîïòóôõöùúûüç".

(** *** Search *)

(** The characters that [sanitize_search_query] replaces. *)
Definition special (c : cp) : bool := existsb (N.eqb c) (lit "<>()&|!").

(** Number of the elements of [ks] equal to [k]. *)
Definition occurrences {K} (eqb : K -> K -> bool) (k : K) (ks : list K) : Z :=
  Z.of_nat (length (List.filter (eqb k) ks)).

(** What the [WHERE] clause asks of a row, filter by filter. *)
Definition satisfies (f : Search.SearchFilters) (user : option str)
    (fi : Search.feed_item) (bookmarked : bool) : Prop :=
  (forall d, Search.date_from f = Some d ->
     exists p, Search.pub_date fi = Some p /\ Search.midnight d <= p)
  /\ (forall d, Search.date_to f = Some d ->
        exists p, Search.pub_date fi = Some p /\ p <= Search.midnight d)
  /\ (forall i ids, Search.source_ids f = Some (i :: ids) ->
        In (Search.source_id fi) (i :: ids))
  /\ (forall c cs, Search.categories f = Some (c :: cs) ->
        In (Search.category fi) (c :: cs))
  /\ (forall p ps, Search.priorities f = Some (p :: ps) ->
        In (Search.priority fi) (p :: ps))
  /\ (forall m, Search.min_relevance f = Some m -> m <= Search.relevance_score fi)
  /\ (forall k ks, Search.f_keywords f = Some (k :: ks) ->
        exists a x, Search.keywords fi = Some a /\ In x a /\ In x (k :: ks))
  /\ (forall k ks, Search.exclude_keywords f = Some (k :: ks) ->
        exists a, Search.keywords fi = Some a /\ forall x, In x a -> ~ In x (k :: ks))
  /\ (Search.bookmarked_only f = Some true -> user <> None -> bookmarked = true).


(** *** E-mail authorization *)

(** The strings of a pattern. *)
Inductive matches : Re.re -> str -> Prop :=
  | matches_Eps : matches Re.Eps []
  | matches_Cls p c : p c = true -> matches (Re.Cls p) [c]
  | matches_Seq r1 r2 s1 s2 :
      matches r1 s1 -> matches r2 s2 -> matches (Re.Seq r1 r2) (s1 ++ s2)
  | matches_Alt_l r1 r2 s : matches r1 s -> matches (Re.Alt r1 r2) s
  | matches_Alt_r r1 r2 s : matches r2 s -> matches (Re.Alt r1 r2) s
  | matches_Star_nil r : matches (Re.Star r) []
  | matches_Star_app r s1 s2 :
      matches r s1 -> matches (Re.Star r) s2 -> matches (Re.Star r) (s1 ++ s2).

Definition newline : cp := 10%N.

(** [local@name.tld]: the shape of an address, and of a domain. *)
Definition domain_shape (name tld : str) : Prop :=
  name <> [] /\ forallb EmailAuthorization.domain_char name = true
  /\ (2 <= length tld)%nat /\ forallb EmailAuthorization.letter tld = true.

Definition local_shape (local : str) : Prop :=
  local <> [] /\ forallb EmailAuthorization.local_char local = true.

(** The address is on the list, or the part after its [@] is an
    authorized domain. *)
Definition listed {rt : Runtime} (self : EmailAuthorization.state) (email : value) : Prop :=
  exists e local domain,
    email = VStr e /\ e <> []
    /\ EmailAuthorization.normalized e = local ++ [EmailAuthorization.at_sign] ++ domain
    /\ EmailAuthorization._is_valid_email (EmailAuthorization.normalized e) = true
    /\ (EmailAuthorization.normalized e ∈ EmailAuthorization.authorized_emails self
        \/ domain ∈ EmailAuthorization.authorized_domains self).

(** * Properties *)

(** ** Relevance scores are clamped *)

Section ScoreBounds.
Context {rt : Runtime}.

(** The keyword loop of the scorer only adds weights, and no weight of
    the table is negative. *)
Lemma keyword_loop_nonneg (table : list (str * Z)) (full_text : str) :
  Forall (fun kw => 0 <= snd kw) table ->
  forall score matched, 0 <= score ->
    0 <= fst (fold_left
                (fun '(score, matched_keywords) '(keyword, weight) =>
                   if str_in keyword full_text
                   then (score + weight, matched_keywords ++ [keyword])
                   else (score, matched_keywords))
                table (score, matched)).
Proof.
  induction 1 as [|[kw w] table Hw _ IH]; intros score matched Hs; simpl.
  - exact Hs.
  - destruct (str_in kw full_text); apply IH; simpl in Hw; lia.
Qed.

Lemma title_loop_nonneg (title_lower : str) (matched : list str) :
  forall score, 0 <= score ->
    0 <= fold_left
           (fun score keyword => if str_in keyword title_lower then score + 20 else score)
           matched score.
Proof.
  induction matched as [|kw matched IH]; intros score Hs; simpl.
  - exact Hs.
  - destruct (str_in kw title_lower); apply IH; lia.
Qed.

Lemma weights_nonneg : Forall (fun kw : str * Z => 0 <= snd kw) TAX_REFORM_KEYWORDS.
Proof. unfold TAX_REFORM_KEYWORDS. repeat constructor; simpl; lia. Qed.

Lemma scorer_relevance_range (title description content : str) :
  0 <= PriorityScorer.calculate_relevance_score title description content <= 100.
Proof.
  unfold PriorityScorer.calculate_relevance_score.
  set (full_text := strip _).
  pose proof (keyword_loop_nonneg TAX_REFORM_KEYWORDS full_text weights_nonneg 0 [])
    as Hloop.
  destruct (fold_left _ TAX_REFORM_KEYWORDS _) as [score matched] eqn:E.
  simpl in Hloop. specialize (Hloop ltac:(lia)).
  split; [|apply Z.le_min_r].
  apply Z.min_glb; [|lia].
  apply title_loop_nonneg.
  destruct (1 <? length matched)%nat; lia.
Qed.

Lemma filter_score_range (p s e : ContentFilter.counts) :
  0 <= ContentFilter.calculate_relevance_score p s e <= 100.
Proof. unfold ContentFilter.calculate_relevance_score. lia. Qed.

Lemma verdict_score_range (title description content : value) :
  0 <= ContentFilter.relevance_score
         (ContentFilter.filter_content title description content) <= 100.
Proof.
  unfold ContentFilter.filter_content.
  destruct (strip _); simpl; [lia | apply filter_score_range].
Qed.

End ScoreBounds.

(** C1. Both relevance scores lie in [0, 100] for every title,
    description and content: the score of
    [PriorityScorer.calculate_relevance_score], the score that
    [TaxReformContentFilter.calculate_relevance_score] computes from any
    three tables of match counts, and the score of every verdict of
    [filter_content]. *)
Theorem C1_scores_between_0_and_100 :
  forall (rt : Runtime),
    (forall title description content : str,
        0 <= PriorityScorer.calculate_relevance_score title description content <= 100)
    /\ (forall primary_matches secondary_matches exclusion_matches : ContentFilter.counts,
        0 <= ContentFilter.calculate_relevance_score
               primary_matches secondary_matches exclusion_matches <= 100)
    /\ (forall title description content : value,
        0 <= ContentFilter.relevance_score
               (ContentFilter.filter_content title description content) <= 100).
Proof.
  intros rt. split; [|split].
  - apply scorer_relevance_range.
  - apply filter_score_range.
  - apply verdict_score_range.
Qed.

(** ** The admission rule *)

Section Admission.
Context {rt : Runtime}.
Import ContentFilter.

Lemma keys_counts_set (matches : counts) (keyword : str) (count : Z) (k : str) :
  In k (keys (counts_set matches keyword count)) <-> k = keyword \/ In k (keys matches).
Proof.
  unfold keys. induction matches as [|[k' c] matches IH]; simpl.
  - intuition congruence.
  - unfold str_eqb. destruct (decide (k' = keyword)) as [->|Hne]; simpl.
    + intuition congruence.
    + rewrite IH. intuition congruence.
Qed.

Lemma keys_count_loop (text : str) (keywords : list str) :
  forall (acc : counts) (k : str),
    In k (keys (fold_left
                  (fun matches keyword =>
                     let normalized_keyword := normalize_text keyword in
                     let count := Z.of_nat (findall_count normalized_keyword text) in
                     if 0 <? count then counts_set matches keyword count else matches)
                  keywords acc))
    <-> In k (keys acc)
        \/ (In k keywords /\ (0 < findall_count (normalize_text k) text)%nat).
Proof.
  induction keywords as [|kw keywords IH]; intros acc k; simpl.
  - intuition.
  - rewrite IH. destruct (0 <? _) eqn:E.
    + apply Z.ltb_lt in E. rewrite keys_counts_set.
      split; [intros [[->|?]|[? ?]]|intros [?|[[->|?] ?]]]; auto.
      right; split; [auto | lia].
    + apply Z.ltb_ge in E.
      split; [intros [?|[? ?]]|intros [?|[[->|?] ?]]]; auto. lia.
Qed.

(** The keys of the table returned by [count_keyword_matches] are the
    keywords that match. *)
Lemma keys_count_keyword_matches (text : str) (keywords : list str) (k : str) :
  In k (keys (count_keyword_matches text keywords))
  <-> In k keywords /\ keyword_matches k text.
Proof.
  unfold count_keyword_matches, keyword_matches. rewrite keys_count_loop. simpl.
  intuition.
Qed.

Lemma primary_matches_nonempty (text : str) :
  (0 <? length (count_keyword_matches text primary_keywords))%nat = true
  <-> some_primary_keyword_matches text.
Proof.
  unfold some_primary_keyword_matches. split.
  - intros Hlen. apply Nat.ltb_lt in Hlen.
    destruct (count_keyword_matches text primary_keywords) as [|[k c] rest] eqn:E;
      [simpl in Hlen; lia|].
    exists k. apply keys_count_keyword_matches. rewrite E. simpl. auto.
  - intros [k Hk]. apply keys_count_keyword_matches in Hk. apply Nat.ltb_lt.
    destruct (count_keyword_matches text primary_keywords); simpl in *; [tauto | lia].
Qed.

End Admission.

(** C2. The verdict is relevant exactly when some primary keyword
    matches the combined text and the verdict's score is at least 15; in
    particular it is not relevant when no primary keyword matches,
    whatever else the text contains. *)
Theorem C2_relevant_iff_primary_and_threshold :
  forall (rt : Runtime) (title description content : value),
    let r := ContentFilter.filter_content title description content in
    let text := ContentFilter.combined title description content in
    (ContentFilter.is_relevant r = true
     <-> some_primary_keyword_matches text /\ 15 <= ContentFilter.relevance_score r)
    /\ (~ some_primary_keyword_matches text -> ContentFilter.is_relevant r = false).
Proof.
  intros rt title description content r text.
  assert (Hiff : ContentFilter.is_relevant r = true
     <-> some_primary_keyword_matches text /\ 15 <= ContentFilter.relevance_score r).
  { subst r text. unfold ContentFilter.filter_content.
    destruct (strip _) eqn:Hs; simpl.
    - split; [discriminate | intros [_ ?]; lia].
    - rewrite andb_true_iff, primary_matches_nonempty, Z.leb_le. reflexivity. }
  split; [exact Hiff|].
  intros Hno. destruct (ContentFilter.is_relevant r) eqn:E; [|reflexivity].
  destruct Hno. apply Hiff. reflexivity.
Qed.

(** ** Substring test and categories *)

Lemma startswith_spec (kw s : str) :
  startswith kw s = true <-> exists post, s = kw ++ post.
Proof.
  revert s. induction kw as [|a kw IH]; intros s; simpl.
  - split; [intros _; exists s; reflexivity | reflexivity].
  - destruct s as [|b s]; simpl.
    + split; [discriminate | intros [post Hp]; discriminate].
    + rewrite andb_true_iff, N.eqb_eq, IH. split.
      * intros [-> [post ->]]. exists post. reflexivity.
      * intros [post Hp]. injection Hp as -> ->. split; [reflexivity | eauto].
Qed.

Lemma str_in_spec (kw s : str) : str_in kw s = true <-> substring kw s.
Proof.
  unfold substring. induction s as [|c s IH].
  - simpl. rewrite orb_false_r, startswith_spec. split.
    + intros [post Hp]. exists [], post. exact Hp.
    + intros [pre [post Hp]]. destruct pre; [exists post; exact Hp|discriminate].
  - cbn [str_in]. rewrite orb_true_iff, startswith_spec, IH. split.
    + intros [[post Hp]|[pre [post Hp]]].
      * exists [], post. exact Hp.
      * exists (c :: pre), post. rewrite Hp. reflexivity.
    + intros [pre [post Hp]]. destruct pre as [|c' pre].
      * left. exists post. exact Hp.
      * right. injection Hp as _ Hp. exists pre, post. exact Hp.
Qed.

Lemma existsb_category_matches (c : category) (text : str) :
  existsb (fun keyword => str_in keyword text) (category_keywords c) = true
  <-> category_matches c text.
Proof.
  unfold category_matches. rewrite existsb_exists.
  split; intros [kw [Hin Hm]]; exists kw; (split; [exact Hin|]);
    apply str_in_spec; exact Hm.
Qed.

Lemma first_category_unfold (text : str) :
  first_category CATEGORIES text =
  if existsb (fun keyword => str_in keyword text) (category_keywords tax_reform)
  then tax_reform
  else if existsb (fun keyword => str_in keyword text) (category_keywords legislation)
  then legislation
  else if existsb (fun keyword => str_in keyword text) (category_keywords economy)
  then economy
  else if existsb (fun keyword => str_in keyword text) (category_keywords regulation)
  then regulation
  else general.
Proof. reflexivity. Qed.

Lemma general_never_matches (text : str) : ~ category_matches general text.
Proof. intros [kw [Hin _]]. exact Hin. Qed.

(** C5. [categorize_content] returns one of the five categories; for a
    category [c] other than [general] it returns [c] exactly when some
    keyword of [c] occurs in the lowercased combined text and no keyword
    of a category placed before [c] does; and it returns [general]
    exactly when no keyword of any category occurs. *)
Theorem C5_first_matching_category :
  forall (rt : Runtime) (title description content : str),
    let text := lower (PriorityScorer.combined title description content) in
    let result := categorize_content title description content in
    In result [tax_reform; legislation; economy; regulation; general]
    /\ (forall c, c <> general ->
          (result = c <->
           category_matches c text
           /\ forall c', (category_rank c' < category_rank c)%nat ->
                         ~ category_matches c' text))
    /\ (result = general <-> forall c, ~ category_matches c text).
Proof.
  intros rt title description content text result.
  assert (Hres : result = first_category CATEGORIES text) by reflexivity.
  rewrite first_category_unfold in Hres.
  pose proof (existsb_category_matches tax_reform text) as H1.
  pose proof (existsb_category_matches legislation text) as H2.
  pose proof (existsb_category_matches economy text) as H3.
  pose proof (existsb_category_matches regulation text) as H4.
  pose proof (general_never_matches text) as H5.
  destruct (existsb _ (category_keywords tax_reform));
    [|destruct (existsb _ (category_keywords legislation));
      [|destruct (existsb _ (category_keywords economy));
        [|destruct (existsb _ (category_keywords regulation))]]];
    rewrite Hres; clear Hres.
  all: split; [simpl; tauto|].
  all: split;
    [ intros c Hc; split;
      [ intros <-; split;
        [ tauto
        | intros c' Hlt Hm; destruct c'; simpl in Hlt; try lia;
          match goal with
          | H : false = true <-> category_matches ?k _, Hm : category_matches ?k _ |- _ =>
              apply H in Hm; discriminate
          end ]
      | intros [Hm Hbefore]; destruct c; try reflexivity; try congruence; exfalso;
        first
          [ match goal with
            | H : false = true <-> category_matches ?k _, Hm : category_matches ?k _ |- _ =>
                apply H in Hm; discriminate
            end
          | match goal with
            | H : true = true <-> category_matches ?k _ |- _ =>
                apply (Hbefore k); [simpl; lia | apply H; reflexivity]
            end ] ]
    | split;
      [ intros Heq; try discriminate; intros c Hm; destruct c;
        match goal with
        | H : false = true <-> category_matches ?k _, Hm : category_matches ?k _ |- _ =>
            apply H in Hm; discriminate
        | _ => exact (H5 Hm)
        end
      | intros Hnone; try reflexivity; exfalso;
        match goal with
        | H : true = true <-> category_matches ?k _ |- _ =>
            apply (Hnone k); apply H; reflexivity
        end ] ].
Qed.

(** ** The priority formula *)

Lemma find_multiplier_default (table : list (str * float)) (source_lower : str)
    (dflt : float) :
  forallb (fun entry => negb (str_in (fst entry) source_lower)) table = true ->
  find_multiplier table source_lower dflt = dflt.
Proof.
  induction table as [|[key m] table IH]; simpl; [reflexivity|].
  intros H. apply andb_true_iff in H as [Hk Ht].
  destruct (str_in key source_lower); [discriminate | apply IH, Ht].
Qed.

Lemma find_multiplier_in (table : list (str * float)) (source_lower : str)
    (dflt : float) :
  In (find_multiplier table source_lower dflt) (dflt :: List.map snd table).
Proof.
  induction table as [|[key m] table IH]; simpl; [auto|].
  destruct (str_in key source_lower); [auto|].
  destruct IH as [IH|IH]; auto.
Qed.

Lemma recency_bonus_in (now : datetime) (pub_date : option datetime) :
  In (recency_bonus now pub_date) bonuses.
Proof.
  unfold recency_bonus, bonuses. destruct pub_date as [d|]; [|simpl; auto].
  destruct (_ <=? 1); [simpl; auto|].
  destruct (_ <=? 7); [simpl; auto|].
  destruct (_ <=? 30); simpl; auto.
Qed.

Lemma in_credibilities (c : Z) : 0 <= c <= 100 -> In c credibilities.
Proof.
  intros Hc. unfold credibilities. apply in_map_iff.
  exists (Z.to_nat c). split; [lia|]. apply in_seq. lia.
Qed.

Lemma nth_credibilities {A} (f : Z -> A) (d : A) (c : Z) :
  0 <= c <= 100 ->
  nth (Z.to_nat c) (List.map f credibilities) d = f c.
Proof.
  intros Hc. unfold credibilities. rewrite List.map_map.
  rewrite (nth_indep _ d ((fun n => f (Z.of_nat n)) 0%nat))
    by (rewrite length_map, length_seq; lia).
  rewrite (map_nth (fun n => f (Z.of_nat n))).
  rewrite seq_nth by lia. f_equal. lia.
Qed.

Lemma nondecreasing_nth (l : list Z) :
  nondecreasing l = true ->
  forall i j, (i <= j < length l)%nat -> nth i l 0 <= nth j l 0.
Proof.
  induction l as [|a l IH]; intros Hl i j Hij; [simpl in Hij; lia|].
  assert (Hrest : nondecreasing l = true).
  { destruct l; [reflexivity|]. simpl in Hl. apply andb_true_iff in Hl. tauto. }
  assert (Hhead : forall j, (j < length l)%nat -> a <= nth j l 0).
  { intros k Hk. destruct l as [|b l]; [simpl in Hk; lia|].
    simpl in Hl. apply andb_true_iff in Hl as [Hab _]. apply Z.leb_le in Hab.
    specialize (IH Hrest 0%nat k (conj (Nat.le_0_l k) Hk)).
    change (nth 0 (b :: l) 0) with b in IH. lia. }
  destruct i, j; simpl in *; try lia.
  - apply Hhead. lia.
  - apply IH; [exact Hrest | lia].
Qed.

Lemma ascending_nth (l : list float) :
  ascending l = true ->
  forall i j, (i <= j < length l)%nat ->
    fle (nth i l S754_nan) (nth j l S754_nan) = true.
Proof.
  induction l as [|a l IH]; intros Hl i j Hij; [simpl in Hij; lia|].
  cbn [ascending] in Hl. apply andb_true_iff in Hl as [Ha Hrest].
  rewrite forallb_forall in Ha.
  destruct i.
  - apply Ha. apply nth_In. lia.
  - destruct j; [lia|]. simpl. apply IH; [exact Hrest | simpl in Hij; lia].
Qed.

Lemma factors_defined :
  forallb (fun c => match credibility_factor c with Some _ => true | None => false end)
          credibilities = true.
Proof. vm_compute. reflexivity. Qed.

Lemma factors_ascending : ascending (List.map factor_of credibilities) = true.
Proof. vm_compute. reflexivity. Qed.

Lemma levels_nondecreasing_sound (ms : list float) (rs bs cs : list Z) :
  levels_nondecreasing ms rs bs cs = true ->
  forall multiplier relevance bonus,
    In multiplier ms -> In relevance rs -> In bonus bs ->
    nondecreasing
      (List.map (fun c => priority_rank
                   (level_of (final_score relevance multiplier (factor_of c) bonus)))
                cs) = true.
Proof.
  intros H multiplier relevance bonus Hm Hr Hb.
  unfold levels_nondecreasing in H. cbv zeta in H.
  rewrite forallb_forall in H. specialize (H multiplier Hm).
  rewrite forallb_forall in H. specialize (H relevance Hr).
  rewrite forallb_forall in H. specialize (H bonus Hb).
  rewrite !List.map_map in H. exact H.
Qed.

Lemma priority_levels_checked :
  levels_nondecreasing multipliers credibilities bonuses credibilities = true.
Proof. vm_cast_no_check (eq_refl true). Qed.

Lemma credibility_factor_defined (c : Z) :
  0 <= c <= 100 -> credibility_factor c = Some (factor_of c).
Proof.
  intros Hc. pose proof factors_defined as H. rewrite forallb_forall in H.
  specialize (H c (in_credibilities c Hc)). unfold factor_of.
  destruct (credibility_factor c); [reflexivity | discriminate].
Qed.

Lemma factor_monotone (c1 c2 : Z) :
  0 <= c1 -> c1 <= c2 -> c2 <= 100 -> fle (factor_of c1) (factor_of c2) = true.
Proof.
  intros H0 H12 H100.
  pose proof (ascending_nth _ factors_ascending (Z.to_nat c1) (Z.to_nat c2)) as H.
  rewrite !nth_credibilities in H by lia. apply H.
  rewrite length_map. unfold credibilities. rewrite length_map, length_seq. lia.
Qed.

Lemma level_monotone (relevance : Z) (multiplier : float) (bonus c1 c2 : Z) :
  0 <= relevance <= 100 -> In multiplier multipliers -> In bonus bonuses ->
  0 <= c1 -> c1 <= c2 -> c2 <= 100 ->
  priority_rank (level_of (final_score relevance multiplier (factor_of c1) bonus))
  <= priority_rank (level_of (final_score relevance multiplier (factor_of c2) bonus)).
Proof.
  intros Hr Hm Hb H0 H12 H100.
  pose proof (levels_nondecreasing_sound _ _ _ _ priority_levels_checked
                multiplier relevance bonus Hm (in_credibilities _ Hr) Hb) as H.
  pose proof (nondecreasing_nth _ H (Z.to_nat c1) (Z.to_nat c2)) as Hn.
  rewrite !nth_credibilities in Hn by lia. apply Hn.
  unfold credibilities. rewrite !length_map, length_seq. lia.
Qed.

Lemma find_multiplier_in_multipliers (source_lower : str) :
  In (find_multiplier SOURCE_MULTIPLIERS source_lower (literal 1 1)) multipliers.
Proof. unfold multipliers. apply nodup_In, find_multiplier_in. Qed.

(** C3 (as the code has it). With a relevance of 60, a credibility of 0,
    a source name that contains no key of the multiplier table and no
    publication date, the credibility factor is 0.7, the final score is
    60 x 1.0 x 0.7 = 42 and the priority is "low", 42 being below the
    threshold 50 of "medium". *)
Theorem C3_relevance_60_credibility_0_is_low :
  forall (rt : Runtime) (now : datetime) (title description content source_name : str),
    PriorityScorer.calculate_relevance_score title description content = 60 ->
    forallb (fun entry => negb (str_in (fst entry) (lower source_name)))
            SOURCE_MULTIPLIERS = true ->
    credibility_factor 0 = Some (literal 7 10)
    /\ final_score 60 (literal 1 1) (literal 7 10) 0 = float_of_int 42
    /\ calculate_priority now title description content 0 source_name None = Some low.
Proof.
  intros rt now title description content source_name Hrel Hsrc.
  split; [vm_compute; reflexivity|].
  split; [vm_compute; reflexivity|].
  unfold calculate_priority.
  rewrite Hrel, (find_multiplier_default _ _ _ Hsrc).
  vm_compute. reflexivity.
Qed.

(** The text "simples nacional" in the description scores 60. *)
Lemma C3_relevance_60_witness :
  PriorityScorer.calculate_relevance_score (rt := latin1)
    (lit "") (lit "simples nacional") (lit "") = 60
  /\ forallb (fun entry => negb (str_in (fst entry) (lower (Runtime := latin1) (lit ""))))
             SOURCE_MULTIPLIERS = true
  /\ credibility_factor 0 = Some (literal 7 10)
  /\ final_score 60 (literal 1 1) (literal 7 10) 0 = float_of_int 42
  /\ calculate_priority (rt := latin1) {| ticks := 0; tzinfo := None |}
       (lit "") (lit "simples nacional") (lit "") 0 (lit "") None = Some low.
Proof.
  split; [reflexivity|]. split; [reflexivity|].
  apply (C3_relevance_60_credibility_0_is_low latin1 {| ticks := 0; tzinfo := None |}
           (lit "") (lit "simples nacional") (lit "") (lit ""));
    reflexivity.
Defined.

(** At that input the priority is not "medium". *)
Lemma C3_not_medium :
  PriorityScorer.calculate_relevance_score (rt := latin1)
    (lit "") (lit "simples nacional") (lit "") = 60
  /\ find_multiplier SOURCE_MULTIPLIERS (lower (Runtime := latin1) (lit "")) (literal 1 1)
     = literal 1 1
  /\ calculate_priority (rt := latin1) {| ticks := 0; tzinfo := None |}
       (lit "") (lit "simples nacional") (lit "") 0 (lit "") None <> Some medium.
Proof.
  split; [reflexivity|]. split; [reflexivity|].
  vm_compute. discriminate.
Qed.

(** C4. For credibilities 0 <= c1 <= c2 <= 100 and everything else
    fixed, both calls of [calculate_priority] return, the credibility
    factor 0.7 + (c/100) x 0.6 at [c1] is at most the factor at [c2],
    and the priority at [c1] is at most the priority at [c2] in the
    order low < medium < high. *)
Theorem C4_priority_monotone_in_credibility :
  forall (rt : Runtime) (now : datetime) (title description content source_name : str)
         (pub_date : option datetime) (c1 c2 : Z),
    0 <= c1 -> c1 <= c2 -> c2 <= 100 ->
    exists f1 f2 p1 p2,
      credibility_factor c1 = Some f1
      /\ credibility_factor c2 = Some f2
      /\ fle f1 f2 = true
      /\ calculate_priority now title description content c1 source_name pub_date = Some p1
      /\ calculate_priority now title description content c2 source_name pub_date = Some p2
      /\ priority_rank p1 <= priority_rank p2.
Proof.
  intros rt now title description content source_name pub_date c1 c2 H0 H12 H100.
  unfold calculate_priority.
  rewrite !credibility_factor_defined by lia. simpl.
  eexists _, _, _, _. repeat split.
  - apply factor_monotone; assumption.
  - apply level_monotone; try assumption.
    + apply scorer_relevance_range.
    + apply find_multiplier_in_multipliers.
    + apply recency_bonus_in.
Qed.

Lemma C4_monotone_witness :
  exists f1 f2 p1 p2,
    credibility_factor 10 = Some f1
    /\ credibility_factor 90 = Some f2
    /\ fle f1 f2 = true
    /\ calculate_priority (rt := latin1) {| ticks := 0; tzinfo := None |}
         (lit "") (lit "simples nacional") (lit "") 10 (lit "") None = Some p1
    /\ calculate_priority (rt := latin1) {| ticks := 0; tzinfo := None |}
         (lit "") (lit "simples nacional") (lit "") 90 (lit "") None = Some p2
    /\ priority_rank p1 <= priority_rank p2.
Proof.
  apply (C4_priority_monotone_in_credibility latin1 {| ticks := 0; tzinfo := None |}
           (lit "") (lit "simples nacional") (lit "") (lit "") None 10 90); lia.
Defined.

(** ** Reasons of a rejection *)

(** C8 (as the code has it). On a text that is not blank, a rejected
    verdict carries the reason "No tax reform keywords found" when no
    primary keyword matches, and otherwise the reason
    "Low relevance score: " followed by the score, which is then below
    15; an accepted verdict carries no reason. *)
Theorem C8_rejection_reasons :
  forall (rt : Runtime) (title description content : value),
    let r := ContentFilter.filter_content title description content in
    let text := ContentFilter.combined title description content in
    strip text <> [] ->
    (ContentFilter.is_relevant r = false ->
       (~ some_primary_keyword_matches text ->
          ContentFilter.filter_reason r = Some (lit "No tax reform keywords found"))
       /\ (some_primary_keyword_matches text ->
             ContentFilter.relevance_score r < 15
             /\ ContentFilter.filter_reason r =
                Some (lit "Low relevance score: "
                        ++ str_of_int (ContentFilter.relevance_score r))))
    /\ (ContentFilter.is_relevant r = true -> ContentFilter.filter_reason r = None).
Proof.
  intros rt title description content r text Hblank. subst r.
  pose proof (primary_matches_nonempty text) as Hp. revert Hp.
  unfold ContentFilter.filter_content. fold text.
  destruct (strip text) eqn:Hs; [contradiction|]. clear Hs Hblank.
  cbv zeta.
  cbn [ContentFilter.is_relevant ContentFilter.relevance_score
       ContentFilter.filter_reason].
  generalize (ContentFilter.calculate_relevance_score
                (ContentFilter.count_keyword_matches text ContentFilter.primary_keywords)
                (ContentFilter.count_keyword_matches text ContentFilter.secondary_keywords)
                (ContentFilter.count_keyword_matches text ContentFilter.exclusion_keywords)).
  generalize (0 <? length (ContentFilter.count_keyword_matches
                             text ContentFilter.primary_keywords))%nat.
  intros has_primary score Hp.
  destruct has_primary.
  - assert (Hsome : some_primary_keyword_matches text) by (apply Hp; reflexivity).
    destruct (15 <=? score) eqn:Hscore.
    + split; [discriminate | reflexivity].
    + apply Z.leb_gt in Hscore. split; [|discriminate].
      intros _. split; [tauto|]. intros _. split; [exact Hscore|].
      apply Z.ltb_lt in Hscore. cbn [negb andb]. rewrite Hscore. reflexivity.
  - assert (Hnone : ~ some_primary_keyword_matches text)
      by (intros H; apply Hp in H; discriminate).
    split; [|discriminate]. intros _. split; [reflexivity | tauto].
Qed.

Lemma C8_reasons_witness :
  let title := VStr (lit "IBS no futebol") in
  let r := ContentFilter.filter_content (rt := latin1) title VNone VNone in
  let text := ContentFilter.combined (rt := latin1) title VNone VNone in
  strip text <> []
  /\ (ContentFilter.is_relevant r = false ->
       (~ some_primary_keyword_matches (rt := latin1) text ->
          ContentFilter.filter_reason r = Some (lit "No tax reform keywords found"))
       /\ (some_primary_keyword_matches (rt := latin1) text ->
             ContentFilter.relevance_score r < 15
             /\ ContentFilter.filter_reason r =
                Some (lit "Low relevance score: "
                        ++ str_of_int (ContentFilter.relevance_score r))))
  /\ (ContentFilter.is_relevant r = true -> ContentFilter.filter_reason r = None).
Proof.
  intros title r text.
  assert (Hblank : strip text <> []) by (vm_compute; discriminate).
  split; [exact Hblank|].
  exact (C8_rejection_reasons latin1 title VNone VNone Hblank).
Defined.

(** The reason given for a text without primary keyword is not the text
    "no primary keyword found". *)
Lemma C8_reason_is_another_text :
  let title := VStr (lit "Jogo de futebol tem grande público") in
  let r := ContentFilter.filter_content (rt := latin1) title (VStr []) (VStr []) in
  strip (ContentFilter.combined (rt := latin1) title (VStr []) (VStr [])) <> []
  /\ ContentFilter.is_relevant r = false
  /\ ~ some_primary_keyword_matches (rt := latin1)
         (ContentFilter.combined (rt := latin1) title (VStr []) (VStr []))
  /\ ContentFilter.filter_reason r = Some (lit "No tax reform keywords found")
  /\ ContentFilter.filter_reason r <> Some (lit "no primary keyword found").
Proof.
  intros title r. split; [vm_compute; discriminate|].
  split; [reflexivity|]. split.
  - rewrite <- primary_matches_nonempty. vm_compute. discriminate.
  - split; [reflexivity | vm_compute; discriminate].
Qed.

(** ** The stable descending sort *)

Section SortDesc.
Context {A : Type} (key : A -> Z).

Lemma insert_desc_perm (x : A) (l : list A) :
  Permutation (insert_desc key x l) (x :: l).
Proof.
  induction l as [|y l IH]; simpl; [reflexivity|].
  destruct (key x <? key y); [|reflexivity].
  rewrite IH. apply perm_swap.
Qed.

Lemma sort_desc_perm (l : list A) : Permutation (sort_desc key l) l.
Proof.
  induction l as [|x l IH]; simpl; [reflexivity|].
  rewrite insert_desc_perm, IH. reflexivity.
Qed.

Lemma insert_desc_sorted (x : A) (l : list A) :
  StronglySorted (fun a b => key b <= key a) l ->
  StronglySorted (fun a b => key b <= key a) (insert_desc key x l).
Proof.
  induction 1 as [|y l Hs IH Hy]; simpl.
  - constructor; constructor.
  - destruct (key x <? key y) eqn:E.
    + apply Z.ltb_lt in E. constructor; [exact IH|].
      rewrite List.Forall_forall in *. intros b Hb.
      apply (Permutation_in _ (insert_desc_perm x l)) in Hb.
      destruct Hb as [<-|Hb]; [lia | apply Hy, Hb].
    + apply Z.ltb_ge in E. constructor; [constructor; assumption|].
      constructor; [exact E|].
      rewrite List.Forall_forall in *. intros b Hb. specialize (Hy b Hb). lia.
Qed.

Lemma sort_desc_sorted (l : list A) :
  StronglySorted (fun a b => key b <= key a) (sort_desc key l).
Proof.
  induction l as [|x l IH]; simpl; [constructor | apply insert_desc_sorted, IH].
Qed.

(** Stability: the items of any one key keep their order. *)
Lemma insert_desc_stable (k : Z) (x : A) (l : list A) :
  List.filter (fun a => key a =? k) (insert_desc key x l)
  = List.filter (fun a => key a =? k) (x :: l).
Proof.
  induction l as [|y l IH]; [reflexivity|].
  cbn [insert_desc]. destruct (key x <? key y) eqn:E; [|reflexivity].
  apply Z.ltb_lt in E. cbn [List.filter] in *. rewrite IH.
  destruct (key x =? k) eqn:Ex; [|reflexivity].
  destruct (key y =? k) eqn:Ey; [|reflexivity].
  apply Z.eqb_eq in Ex, Ey. lia.
Qed.

Lemma sort_desc_stable (k : Z) (l : list A) :
  List.filter (fun a => key a =? k) (sort_desc key l)
  = List.filter (fun a => key a =? k) l.
Proof.
  induction l as [|x l IH]; [reflexivity|].
  cbn [sort_desc]. rewrite insert_desc_stable. cbn [List.filter]. rewrite IH.
  reflexivity.
Qed.

End SortDesc.

Lemma insert_desc_ext {A} (key key' : A -> Z) (x : A) (l : list A) :
  key x = key' x -> (forall y, In y l -> key y = key' y) ->
  insert_desc key x l = insert_desc key' x l.
Proof.
  intros Hx. induction l as [|y l IH]; intros Hl; simpl; [reflexivity|].
  rewrite Hx, (Hl y (or_introl eq_refl)).
  destruct (key' x <? key' y); [|reflexivity].
  f_equal. apply IH. intros z Hz. apply Hl. right. exact Hz.
Qed.

Lemma sort_desc_ext {A} (key key' : A -> Z) (l : list A) :
  (forall y, In y l -> key y = key' y) -> sort_desc key l = sort_desc key' l.
Proof.
  induction l as [|x l IH]; intros Hl; simpl; [reflexivity|].
  rewrite IH by (intros y Hy; apply Hl; right; exact Hy).
  apply insert_desc_ext; [apply Hl; left; reflexivity|].
  intros y Hy. apply Hl. right.
  apply (Permutation_in _ (sort_desc_perm key' l)). exact Hy.
Qed.

(** ** The batch filter *)

Lemma filter_filter_andb {A} (p q : A -> bool) (l : list A) :
  List.filter q (List.filter p l) = List.filter (fun x => p x && q x) l.
Proof.
  induction l as [|x l IH]; [reflexivity|].
  cbn [List.filter]. destruct (p x); cbn [List.filter andb]; rewrite IH; reflexivity.
Qed.

Section BatchFilter.
Context {rt : Runtime}.
Import ContentFilter.

Lemma with_verdict_idem (r : FilterResult) (item : dict) :
  with_verdict r (with_verdict r item) = with_verdict r item.
Proof.
  unfold with_verdict. apply map_eq. intros k.
  rewrite !lookup_insert. repeat case_decide; congruence.
Qed.

Lemma get_with_verdict (r : FilterResult) (item : dict) (k : string) (d : value) :
  k <> "matched_keywords" -> k <> "relevance_score" ->
  get (with_verdict r item) k d = get item k d.
Proof.
  intros Hm Hr. unfold get, with_verdict.
  rewrite !lookup_insert_ne by congruence. reflexivity.
Qed.

(** The verdict reads the title, the description and the content only. *)
Lemma verdict_of_with_verdict (r : FilterResult) (item : dict) :
  verdict_of (with_verdict r item) = verdict_of item.
Proof.
  unfold verdict_of. rewrite !get_with_verdict by discriminate. reflexivity.
Qed.

Lemma sort_key_with_verdict (h : heap) (l : loc) (r : FilterResult) (item : dict) :
  h !! l = Some (with_verdict r item) -> sort_key h l = relevance_score r.
Proof.
  intros Hl. unfold sort_key, deref. rewrite Hl. cbn [from_option id].
  unfold get, with_verdict.
  rewrite lookup_insert_ne by discriminate. rewrite lookup_insert_eq. reflexivity.
Qed.

Lemma filter_loop (h0 : heap) (items : list loc) :
  loop_state h0 items (fold_left filter_step items (h0, [])).
Proof.
  unfold loop_state. induction items as [|x items IH] using rev_ind.
  - repeat split; simpl; auto. intros l [].
  - rewrite fold_left_app. cbn [fold_left].
    destruct (fold_left filter_step items (h0, [])) as [h filtered].
    destruct IH as (Hv & Hf & Hin & Hout). cbn [fst snd] in *.
    unfold filter_step. rewrite Hv.
    rewrite List.filter_app. cbn [List.filter].
    destruct (is_relevant (verdict h0 x)) eqn:Hrel; cbn [fst snd].
    + assert (Hx : with_verdict (verdict h0 x) (deref h x)
                   = with_verdict (verdict h0 x) (deref h0 x)).
      { destruct (in_dec Pos.eq_dec x filtered) as [Hi|Hi].
        - unfold deref at 1. rewrite (Hin x Hi). simpl. apply with_verdict_idem.
        - unfold deref. rewrite (Hout x Hi). reflexivity. }
      fold (with_verdict (verdict h0 x) (deref h x)). rewrite Hx.
      repeat split.
      * intros l. unfold verdict, deref.
        destruct (decide (x = l)) as [->|Hne].
        -- rewrite lookup_insert_eq. simpl. apply verdict_of_with_verdict.
        -- rewrite lookup_insert_ne by exact Hne. apply Hv.
      * rewrite Hf. reflexivity.
      * intros l Hl. destruct (decide (x = l)) as [->|Hne].
        -- rewrite lookup_insert_eq. reflexivity.
        -- rewrite lookup_insert_ne by exact Hne. apply Hin.
           apply in_app_or in Hl. destruct Hl as [Hl|[Hl|[]]]; [exact Hl | contradiction].
      * intros l Hl. rewrite lookup_insert_ne.
        -- apply Hout. intros Hi. apply Hl, in_or_app. left. exact Hi.
        -- intros ->. apply Hl, in_or_app. right. left. reflexivity.
    + rewrite app_nil_r. repeat split; assumption.
Qed.

End BatchFilter.

(** C6. [filter_items_list] returns the items whose verdict is relevant,
    each written to with the score and the matched keywords of its
    verdict, in descending order of score; among the returned items
    those of any one score appear in the order they have in the input. *)
Theorem C6_batch_filter_sorted_and_stable :
  forall (rt : Runtime) (h : heap) (items : list loc),
    let h' := fst (ContentFilter.filter_items_list h items) in
    let out := snd (ContentFilter.filter_items_list h items) in
    let relevant l := ContentFilter.is_relevant (ContentFilter.verdict h l) in
    let score l := ContentFilter.relevance_score (ContentFilter.verdict h l) in
    Permutation out (List.filter relevant items)
    /\ StronglySorted (fun a b => score b <= score a) out
    /\ (forall k, List.filter (fun l => score l =? k) out
                  = List.filter (fun l => relevant l && (score l =? k)) items)
    /\ (forall l, In l out ->
          h' !! l = Some (with_verdict (ContentFilter.verdict h l) (deref h l))).
Proof.
  intros rt h items h' out relevant score.
  pose proof (filter_loop h items) as (Hv & Hf & Hin & Hout).
  subst h' out. unfold ContentFilter.filter_items_list.
  destruct (fold_left ContentFilter.filter_step items (h, [])) as [h1 filtered].
  cbn [fst snd] in *.
  assert (Hkey : forall l, In l filtered -> ContentFilter.sort_key h1 l = score l).
  { intros l Hl. apply (sort_key_with_verdict _ _ _ (deref h l)), Hin, Hl. }
  rewrite (sort_desc_ext _ score filtered Hkey).
  split; [rewrite sort_desc_perm, Hf; reflexivity|].
  split; [apply sort_desc_sorted|].
  split.
  - intros k. rewrite sort_desc_stable, Hf.
    exact (filter_filter_andb relevant (fun l => score l =? k) items).
  - intros l Hl. apply Hin.
    apply (Permutation_in _ (sort_desc_perm score filtered)). exact Hl.
Qed.

(** ** The batch scorer *)

Section BatchScorer.
Context {rt : Runtime}.

Lemma enhance_scorable (now : datetime) (item : dict) :
  scorable item = true ->
  exists title source_name credibility pub_date p,
    let description := format (get item "description" (VStr [])) in
    let content := format (get item "content" (VStr [])) in
    as_str (get item "title" (VStr [])) = Some title
    /\ as_str (get item "source_name" (VStr [])) = Some source_name
    /\ as_int (get item "source_credibility" (VInt 70)) = Some credibility
    /\ as_pub_date (get item "pub_date" VNone) = Some pub_date
    /\ calculate_priority now title description content
         credibility source_name pub_date = Some p
    /\ enhance now item =
       Some (enriched item
               (PriorityScorer.calculate_relevance_score title description content) p
               (extract_keywords title description content)
               (categorize_content title description content)).
Proof.
  unfold scorable, enhance.
  destruct (as_str (get item "title" _)) as [title|]; [|discriminate].
  destruct (as_str (get item "source_name" _)) as [source_name|]; [|discriminate].
  destruct (as_int _) as [credibility|]; [|discriminate].
  destruct (as_pub_date _) as [pub_date|]; [|discriminate].
  destruct (credibility_factor credibility) as [factor|] eqn:Hf; [|discriminate].
  intros _. eexists title, source_name, credibility, pub_date, _.
  cbn [mbind option_bind].
  unfold calculate_priority. rewrite Hf. cbn [mbind option_bind].
  repeat split; reflexivity.
Qed.

Lemma enriched_frame (item : dict) (r : Z) (p : priority) (ks : list str)
    (c : category) (k : string) :
  ~ In k enrichment_keys -> enriched item r p ks c !! k = item !! k.
Proof.
  intros Hk. unfold enriched. unfold enrichment_keys in Hk. simpl in Hk.
  rewrite !lookup_insert_ne; [reflexivity|..]; intros <-; tauto.
Qed.

Lemma score_batch_from_spec (clock : nat -> datetime) (h0 : heap) (items : list loc) :
  forall (i0 : nat) (h : heap),
    h0 ⊆ h ->
    forallb (scorable_at h0) items = true ->
    exists h' out,
      score_batch_from clock i0 h items = Some (h', out)
      /\ length out = length items
      /\ h ⊆ h'
      /\ forall i l, items !! i = Some l ->
           exists l' e,
             out !! i = Some l' /\ h !! l' = None /\ h' !! l' = Some e
             /\ enhance (clock (i0 + i)%nat) (deref h0 l) = Some e.
Proof.
  induction items as [|item items IH]; intros i0 h Hsub Hok.
  - exists h, []. repeat split; [reflexivity|]. intros i l Hl. discriminate.
  - cbn [forallb] in Hok. apply andb_true_iff in Hok as [Hitem Hrest].
    unfold scorable_at in Hitem.
    destruct (h0 !! item) as [d|] eqn:Hd; [|discriminate].
    assert (Hderef0 : deref h0 item = d) by (unfold deref; rewrite Hd; reflexivity).
    assert (Hderef : deref h item = d).
    { unfold deref. rewrite (lookup_weaken _ _ _ _ Hd Hsub). reflexivity. }
    destruct (enhance_scorable (clock i0) d Hitem)
      as (title & sn & cr & pd & p & _ & _ & _ & _ & _ & He).
    cbn [score_batch_from]. rewrite Hderef, He. cbn [mbind option_bind].
    set (l' := fresh (dom h)). set (e := enriched d _ _ _ _) in *.
    assert (Hfresh : h !! l' = None) by (apply not_elem_of_dom, is_fresh).
    assert (Hsub1 : h ⊆ <[l' := e]> h) by (apply insert_subseteq, Hfresh).
    destruct (IH (S i0) (<[l' := e]> h)) as (h' & out & Hrun & Hlen & Hsub' & Hitems).
    { etransitivity; eassumption. }
    { exact Hrest. }
    rewrite Hrun. cbn [mbind option_bind].
    exists h', (l' :: out). split; [reflexivity|].
    split; [simpl; rewrite Hlen; reflexivity|].
    split; [etransitivity; eassumption|].
    intros i l Hl. destruct i as [|i].
    + injection Hl as <-. exists l', e. split; [reflexivity|]. split; [exact Hfresh|].
      split.
      * apply (lookup_weaken _ _ _ _ (lookup_insert_eq h l' e) Hsub').
      * rewrite Nat.add_0_r, Hderef0. exact He.
    + destruct (Hitems i l Hl) as (l'' & e' & Ho & Hn & Hs & Hen).
      exists l'', e'. split; [exact Ho|]. split.
      * destruct (h !! l'') eqn:E; [|reflexivity].
        rewrite (lookup_weaken _ _ _ _ E Hsub1) in Hn. discriminate.
      * split; [exact Hs|]. rewrite Nat.add_succ_r. exact Hen.
Qed.

End BatchScorer.

(** C10. On a list of items that can be scored, [score_batch] returns a
    list of the same length; its i-th element is a new object, whose
    entries are those of the i-th input item except that the four keys
    [relevance_score], [priority], [keywords] and [category] hold the
    values computed for that item; every object that existed before
    the call is unchanged. *)
Theorem C10_score_batch_frame :
  forall (rt : Runtime) (clock : nat -> datetime) (h : heap) (items : list loc),
    forallb (scorable_at h) items = true ->
    exists h' out,
      score_batch clock h items = Some (h', out)
      /\ length out = length items
      /\ (forall l item, h !! l = Some item -> h' !! l = Some item)
      /\ forall i l, items !! i = Some l ->
           exists l' e title source_name credibility pub_date p,
             let item := deref h l in
             let description := format (get item "description" (VStr [])) in
             let content := format (get item "content" (VStr [])) in
             out !! i = Some l' /\ h !! l' = None /\ h' !! l' = Some e
             /\ as_str (get item "title" (VStr [])) = Some title
             /\ as_str (get item "source_name" (VStr [])) = Some source_name
             /\ as_int (get item "source_credibility" (VInt 70)) = Some credibility
             /\ as_pub_date (get item "pub_date" VNone) = Some pub_date
             /\ calculate_priority (clock i) title description content
                  credibility source_name pub_date = Some p
             /\ e = enriched item
                      (PriorityScorer.calculate_relevance_score title description content)
                      p
                      (extract_keywords title description content)
                      (categorize_content title description content)
             /\ (forall k, ~ In k enrichment_keys -> e !! k = item !! k).
Proof.
  intros rt clock h items Hok.
  destruct (score_batch_from_spec clock h items 0%nat h (reflexivity h) Hok)
    as (h' & out & Hrun & Hlen & Hsub & Hitems).
  exists h', out. split; [exact Hrun|]. split; [exact Hlen|].
  split; [intros l item Hl; exact (lookup_weaken _ _ _ _ Hl Hsub)|].
  intros i l Hl. destruct (Hitems i l Hl) as (l' & e & Ho & Hn & Hs & Hen).
  assert (Hsc : scorable (deref h l) = true).
  { rewrite forallb_forall in Hok.
    assert (Hin : In l items) by (apply list_elem_of_In, list_elem_of_lookup; eauto).
    specialize (Hok l Hin). unfold scorable_at in Hok. unfold deref.
    destruct (h !! l); [exact Hok | discriminate]. }
  destruct (enhance_scorable (clock i) (deref h l) Hsc)
    as (title & sn & cr & pd & p & Ht & Hsn & Hcr & Hpd & Hp & He).
  exists l', e, title, sn, cr, pd, p. cbv zeta.
  simpl in Hen. rewrite He in Hen. injection Hen as <-.
  repeat split; try assumption. intros k Hk. apply enriched_frame, Hk.
Qed.

Lemma C10_score_batch_witness :
  forallb (scorable_at example_heap) example_items = true
  /\ exists h' out,
       score_batch (rt := latin1) example_clock example_heap example_items = Some (h', out)
       /\ length out = 3%nat
       /\ (forall l item, example_heap !! l = Some item -> h' !! l = Some item).
Proof.
  assert (Hok : forallb (scorable_at example_heap) example_items = true)
    by (vm_compute; reflexivity).
  split; [exact Hok|].
  destruct (C10_score_batch_frame latin1 example_clock example_heap example_items Hok)
    as (h' & out & Hrun & Hlen & Hold & _).
  exists h', out. split; [exact Hrun|]. split; [exact Hlen | exact Hold].
Defined.

(** ** Query sanitization and the search handler *)

Lemma lstrip_word (w : str) : split_word w -> lstrip w = w.
Proof.
  intros [Hne Hw]. destruct w as [|c w]; [reflexivity|].
  simpl. inversion Hw as [|? ? Hc _]. rewrite Hc. reflexivity.
Qed.

Lemma strip_word (w : str) : split_word w -> strip w = w.
Proof.
  intros Hw. unfold strip, rstrip. rewrite (lstrip_word w Hw).
  rewrite lstrip_word; [apply rev_involutive|].
  destruct Hw as [Hne Hw]. split.
  - intros Hr. apply Hne. rewrite <- (rev_involutive w), Hr. reflexivity.
  - apply List.Forall_rev, Hw.
Qed.

Lemma split_from_words (s : str) :
  forall cur, Forall (fun c => isspace c = false) cur ->
    Forall split_word (split_from cur s).
Proof.
  induction s as [|c s IH]; intros cur Hcur; simpl.
  - destruct cur as [|a cur]; [constructor|]. constructor; [|constructor].
    split; [|apply List.Forall_rev, Hcur].
    intros Hr. apply (f_equal (@length _)) in Hr. rewrite length_rev in Hr.
    discriminate.
  - destruct (isspace c) eqn:Hc.
    + destruct cur as [|a cur]; [apply IH; constructor|].
      constructor; [|apply IH; constructor].
      split; [|apply List.Forall_rev, Hcur].
      intros Hr. apply (f_equal (@length _)) in Hr. rewrite length_rev in Hr.
      discriminate.
    + apply IH. constructor; assumption.
Qed.

Lemma split_words (s : str) : Forall split_word (split s).
Proof. apply split_from_words. constructor. Qed.

(** [sanitize_search_query] replaces the seven special characters by
    spaces, splits at white space and joins the words with [" & "]. *)
Lemma sanitize_search_query_spec (query : str) :
  Search.sanitize_search_query query
  = join (lit " & ") (split (sub_class (lit "<>()&|!") sp query)).
Proof.
  unfold Search.sanitize_search_query.
  set (keep := fun word : str => match strip word with [] => false | _ :: _ => true end).
  assert (Hall : forall l, Forall split_word l -> List.map strip (List.filter keep l) = l).
  { intros l Hl. induction Hl as [|w ws Hw Hws IH]; [reflexivity|].
    cbn [List.filter]. unfold keep at 1. rewrite (strip_word w Hw).
    destruct w as [|c w]; [destruct Hw as [Hne _]; contradiction|].
    cbn [List.map]. rewrite (strip_word _ Hw), IH. reflexivity. }
  rewrite (Hall _ (split_words _)).
  destruct (split _); reflexivity.
Qed.

Lemma join_nonempty (sep : str) (ws : list str) :
  Forall split_word ws -> ws <> [] -> join sep ws <> [].
Proof.
  intros Hws Hne. destruct Hws as [|w ws [Hw _] Hws]; [contradiction|].
  destruct w as [|c w]; [contradiction|]. destruct ws; discriminate.
Qed.

(** The sanitized query is empty exactly when no word survives. *)
Lemma sanitize_empty_iff (query : str) :
  Search.sanitize_search_query query = []
  <-> split (sub_class (lit "<>()&|!") sp query) = [].
Proof.
  rewrite sanitize_search_query_spec. split.
  - intros Hj. destruct (split _) as [|w ws] eqn:E; [reflexivity|].
    exfalso. apply (join_nonempty (lit " & ") (w :: ws)); [|discriminate|exact Hj].
    rewrite <- E. apply split_words.
  - intros ->. reflexivity.
Qed.

Section Handler.
Context {rt : Runtime} {ts : Search.TextSearch}.

(** When the sanitized query is empty, the handler makes no call on the
    data store beyond connecting, and the request is answered with
    status 500: the 400 raised in the [try] block is caught by the
    block's own handler. *)
Lemma empty_query_outcome (db : Search.database) (request : Search.SearchRequest)
    (user : option str) :
  Search.sanitize_search_query (Search.query request) = [] ->
  Search.search_content db request user = ([Search.Connect], Search.Failed 500).
Proof.
  intros Hq. unfold Search.search_content, Search.search_body.
  unfold Search.get_db_connection, Search.bind, Search.call, Search.ret, Search.raise.
  rewrite Hq. cbn [app]. destruct (Search.online db); reflexivity.
Qed.

Lemma empty_query_body_raises_400 (db : Search.database)
    (request : Search.SearchRequest) (user : option str) :
  Search.online db = true ->
  Search.sanitize_search_query (Search.query request) = [] ->
  Search.search_body db request user []
  = ([Search.Connect], inl (Search.HTTPException 400)).
Proof.
  intros Hon Hq. unfold Search.search_body.
  unfold Search.get_db_connection, Search.bind, Search.call, Search.ret, Search.raise.
  rewrite Hq, Hon. reflexivity.
Qed.

End Handler.

(** C7. The query "!!!" sanitizes to the empty string; the [try] block
    raises the client error 400 before any statement is sent to the data
    store, but the request is answered with the server error 500. *)
Theorem C7_invalid_query_answered_with_500 :
  Search.sanitize_search_query (lit "!!!") = []
  /\ Search.search_body (rt := latin1) (ts := word_search)
       example_db (example_request "!!!" None) (Some (lit "u1")) []
     = ([Search.Connect], inl (Search.HTTPException 400))
  /\ Search.search_content (rt := latin1) (ts := word_search)
       example_db (example_request "!!!" None) (Some (lit "u1"))
     = ([Search.Connect], Search.Failed 500).
Proof. repeat split; reflexivity. Qed.

(** ** Facets *)

Lemma facet_total_bump {K} (eqb : K -> K -> bool) (k : K) (groups : list (K * Z)) :
  facet_total (Search.bump eqb k groups) = facet_total groups + 1.
Proof.
  unfold facet_total. induction groups as [|[k' n] groups IH]; simpl; [reflexivity|].
  destruct (eqb k' k); simpl; lia.
Qed.

Lemma facet_total_group_count {K} (eqb : K -> K -> bool) (ks : list K) :
  facet_total (Search.group_count eqb ks) = Z.of_nat (length ks).
Proof.
  unfold Search.group_count.
  assert (H : forall acc, facet_total (fold_left (fun groups k => Search.bump eqb k groups) ks acc)
                          = facet_total acc + Z.of_nat (length ks)).
  { induction ks as [|k ks IH]; intros acc; simpl fold_left.
    - simpl. lia.
    - rewrite IH, facet_total_bump. simpl length. lia. }
  rewrite H. reflexivity.
Qed.

Lemma facet_total_perm {K} (a b : list (K * Z)) :
  Permutation a b -> facet_total a = facet_total b.
Proof.
  unfold facet_total. induction 1; simpl; lia.
Qed.

(** The counts of a facet add up to the number of rows that were
    grouped. *)
Lemma facet_total_count_by {K} (eqb : K -> K -> bool) (ks : list K) :
  facet_total (Search.count_by eqb ks) = Z.of_nat (length ks).
Proof.
  unfold Search.count_by.
  rewrite (facet_total_perm _ _ (sort_desc_perm snd _)).
  apply facet_total_group_count.
Qed.

(** A left join on a key that is unique on the right keeps the rows of
    the left. *)
Lemma filter_unique_key {B K} (key : B -> K) (on : B -> bool) (k : K) (r : list B) :
  List.NoDup (List.map key r) ->
  (forall b, on b = true -> key b = k) ->
  (length (List.filter on r) <= 1)%nat.
Proof.
  intros Hnd Hon. induction r as [|b r IH]; simpl; [lia|].
  inversion Hnd as [|? ? Hnotin Hnd']; subst.
  destruct (on b) eqn:Hb; [|apply IH, Hnd'].
  simpl. assert (Hnone : List.filter on r = []).
  { destruct (List.filter on r) as [|b' l] eqn:E; [reflexivity|]. exfalso.
    assert (Hin : In b' (List.filter on r)) by (rewrite E; left; reflexivity).
    apply filter_In in Hin as [Hin Hb']. apply Hnotin.
    rewrite (Hon b Hb), <- (Hon b' Hb'). apply in_map, Hin. }
  rewrite Hnone. simpl. lia.
Qed.

Lemma left_join_fst {A B} (on : A -> B -> bool) (l : list A) (r : list B) :
  (forall a, In a l -> (length (List.filter (on a) r) <= 1)%nat) ->
  List.map fst (Search.left_join on l r) = l.
Proof.
  unfold Search.left_join. induction l as [|a l IH]; intros H; [reflexivity|].
  cbn [flat_map].
  rewrite List.map_app, IH by (intros a' Ha'; apply H; right; exact Ha').
  specialize (H a (or_introl eq_refl)).
  destruct (List.filter (on a) r) as [|b [|b' m]]; simpl in *; [reflexivity..|lia].
Qed.

Lemma length_filter_fst {A B} (p : A -> bool) (p' : A * B -> bool)
    (rows : list (A * B)) :
  (forall row, p' row = p (fst row)) ->
  length (List.filter p' rows) = length (List.filter p (List.map fst rows)).
Proof.
  intros Hp. induction rows as [|row rows IH]; simpl; [reflexivity|].
  rewrite Hp. destruct (p (fst row)); simpl; rewrite IH; reflexivity.
Qed.

Section Facets.
Context {rt : Runtime} {ts : Search.TextSearch}.

Ltac run_handler :=
  unfold Search.search_content, Search.search_body, Search.get_search_facets,
    Search.record_search, Search.parse, Search.get_db_connection, Search.finally,
    Search.bind, Search.call, Search.ret, Search.raise.

(** What a successful search reports: the number of rows of the base
    query, and the three facet queries, which test the text match
    only. *)
Lemma search_sent (db : Search.database) (request : Search.SearchRequest)
    (user : option str) (tr : list Search.event) (r : Search.SearchResponse) :
  Search.search_content db request user = (tr, Search.Sent r) ->
  exists q,
    Search.to_tsquery (Search.sanitize_search_query (Search.query request)) = Some q
    /\ Search.total_results r
       = Z.of_nat (length (Search.base_rows db q request user))
    /\ Search.facet_categories (Search.facets r)
       = Search.count_by Search.str_eqb
           (List.map Search.category (matching_items db q))
    /\ Search.facet_sources (Search.facets r)
       = Search.count_by Search.opt_str_eqb
           (List.map (fun '(_, rs) => Search.rs_name <$> rs)
              (List.filter (fun '(fi, _) => Search.ts_match (Search.document fi) q)
                 (Search.left_join
                    (fun fi rs => Search.source_id fi =? Search.rs_id rs)
                    (Search.rss_feed_items db) (Search.rss_sources db))))
    /\ Search.facet_priorities (Search.facets r)
       = Search.count_by Search.str_eqb
           (List.map Search.priority (matching_items db q)).
Proof.
  run_handler. unfold matching_items.
  destruct (Search.online db); [|discriminate].
  destruct (Search.sanitize_search_query (Search.query request)) as [|c s] eqn:Hq;
    [discriminate|].
  destruct (Search.to_tsquery (c :: s)) as [q|]; [|discriminate].
  destruct user as [u|]; cbn; intros H; injection H as _ <-;
    exists q; cbn; repeat split; reflexivity.
Qed.

End Facets.

(** C9 (as the code has it). The facet queries test the text match
    alone: they ignore the filters as well as the pagination.  When a
    search succeeds and the source ids are unique, the counts of each of
    the three facets add up to the number of feed items that match the
    query text; this number is the reported total when the request has
    no filters (and a user has at most one bookmark per item). *)
Theorem C9_facets_count_text_matches :
  forall (rt : Runtime) (ts : Search.TextSearch) (db : Search.database)
         (request : Search.SearchRequest) (user : option str)
         (tr : list Search.event) (r : Search.SearchResponse),
    Search.search_content db request user = (tr, Search.Sent r) ->
    List.NoDup (List.map Search.rs_id (Search.rss_sources db)) ->
    exists q,
      Search.to_tsquery (Search.sanitize_search_query (Search.query request)) = Some q
      /\ let n := Z.of_nat (length (matching_items db q)) in
         facet_total (Search.facet_categories (Search.facets r)) = n
         /\ facet_total (Search.facet_sources (Search.facets r)) = n
         /\ facet_total (Search.facet_priorities (Search.facets r)) = n
         /\ (Search.filters request = None ->
             List.NoDup (List.map (fun ub => (Search.ub_feed_item_id ub, Search.ub_user_id ub))
                           (Search.user_bookmarks db)) ->
             Search.total_results r = n).
Proof.
  intros rt ts db request user tr r Hsent Hsrc.
  destruct (search_sent db request user tr r Hsent) as (q & Hq & Htot & Hc & Hs & Hp).
  exists q. split; [exact Hq|]. cbv zeta.
  assert (Hjoin : List.map fst
            (Search.left_join (fun fi rs => Search.source_id fi =? Search.rs_id rs)
               (Search.rss_feed_items db) (Search.rss_sources db))
          = Search.rss_feed_items db).
  { apply left_join_fst. intros fi _.
    apply (filter_unique_key Search.rs_id _ (Search.source_id fi)); [exact Hsrc|].
    intros rs Hrs. apply Z.eqb_eq in Hrs. symmetry. exact Hrs. }
  split; [rewrite Hc, facet_total_count_by, length_map; reflexivity|].
  split.
  { rewrite Hs, facet_total_count_by, length_map.
    rewrite (length_filter_fst (fun fi => Search.ts_match (Search.document fi) q))
      by (intros [fi rs]; reflexivity).
    rewrite Hjoin. reflexivity. }
  split; [rewrite Hp, facet_total_count_by, length_map; reflexivity|].
  intros Hnone Hbm. rewrite Htot. unfold Search.base_rows, Search.filter_conditions.
  rewrite Hnone. cbv zeta.
  rewrite (length_filter_fst
             (fun row => Search.ts_match (Search.document (fst row)) q))
    by (intros [[fi rs] ub]; cbn [forallb fst]; apply andb_true_r).
  rewrite left_join_fst.
  - rewrite (length_filter_fst (fun fi => Search.ts_match (Search.document fi) q))
      by reflexivity.
    rewrite Hjoin. reflexivity.
  - intros [fi rs] _.
    apply (filter_unique_key
             (fun ub => (Search.ub_feed_item_id ub, Search.ub_user_id ub)) _
             (Search.id fi, default [] user)); [exact Hbm|].
    intros ub Hub. apply andb_true_iff in Hub as [Hid Hu].
    apply Z.eqb_eq in Hid. unfold Search.str_eqb in Hu.
    destruct (decide (Search.ub_user_id ub = default [] user)) as [->|]; [|discriminate].
    rewrite Hid. reflexivity.
Qed.

Lemma C9_facets_witness :
  exists tr r,
    Search.search_content (rt := latin1) (ts := word_search)
      example_db (example_request "IBS" None) (Some (lit "u1")) = (tr, Search.Sent r)
    /\ List.NoDup (List.map Search.rs_id (Search.rss_sources example_db))
    /\ exists q,
         Search.to_tsquery (TextSearch := word_search)
           (Search.sanitize_search_query
              (Search.query (example_request "IBS" None))) = Some q
         /\ let n := Z.of_nat (length (matching_items (ts := word_search) example_db q)) in
            facet_total (Search.facet_categories (Search.facets r)) = n
            /\ facet_total (Search.facet_sources (Search.facets r)) = n
            /\ facet_total (Search.facet_priorities (Search.facets r)) = n
            /\ (Search.filters (example_request "IBS" None) = None ->
                List.NoDup
                  (List.map (fun ub => (Search.ub_feed_item_id ub, Search.ub_user_id ub))
                     (Search.user_bookmarks example_db)) ->
                Search.total_results r = n).
Proof.
  assert (Hrun : exists tr r,
             Search.search_content (rt := latin1) (ts := word_search)
               example_db (example_request "IBS" None) (Some (lit "u1"))
             = (tr, Search.Sent r))
    by (eexists _, _; vm_compute; reflexivity).
  destruct Hrun as (tr & r & Hrun).
  assert (Hsrc : List.NoDup (List.map Search.rs_id (Search.rss_sources example_db)))
    by (repeat constructor; simpl; tauto).
  exists tr, r. split; [exact Hrun|]. split; [exact Hsrc|].
  exact (C9_facets_count_text_matches latin1 word_search example_db
           (example_request "IBS" None) (Some (lit "u1")) tr r Hrun Hsrc).
Defined.

(** With the filter [priorities = ["high"]] the search reports one
    match, and every facet counts two. *)
Lemma C9_facets_ignore_filters :
  exists tr r,
    Search.search_content (rt := latin1) (ts := word_search)
      example_db (example_request "IBS" (Some only_high_priority)) (Some (lit "u1"))
    = (tr, Search.Sent r)
    /\ Search.total_results r = 1
    /\ facet_total (Search.facet_categories (Search.facets r)) = 2
    /\ facet_total (Search.facet_sources (Search.facets r)) = 2
    /\ facet_total (Search.facet_priorities (Search.facets r)) = 2
    /\ facet_total (Search.facet_priorities (Search.facets r)) <> Search.total_results r.
Proof.
  eexists _, _. split; [vm_compute; reflexivity|].
  repeat split; try reflexivity. vm_compute. discriminate.
Qed.

(** ** The examples of the specification, run on the code *)

Example reform_title_saturates :
  PriorityScorer.calculate_relevance_score (rt := latin1)
    (lit "Reforma Tributária aprovada: IBS e CBS entram em vigor") [] [] = 100
  /\ ContentFilter.is_relevant
       (ContentFilter.filter_content (rt := latin1)
          (VStr (lit "Reforma Tributária aprovada: IBS e CBS entram em vigor"))
          (VStr []) (VStr [])) = true.
Proof. split; reflexivity. Qed.

Example football_title_is_rejected :
  PriorityScorer.calculate_relevance_score (rt := latin1)
    (lit "Jogo de futebol tem grande público") [] [] = 0
  /\ calculate_priority (rt := latin1) {| ticks := 0; tzinfo := None |}
       (lit "Jogo de futebol tem grande público") [] [] 70 [] None = Some low
  /\ ContentFilter.is_relevant
       (ContentFilter.filter_content (rt := latin1)
          (VStr (lit "Jogo de futebol tem grande público")) (VStr []) (VStr [])) = false.
Proof. repeat split; reflexivity. Qed.

(** 84 x 1.0 x 0.7 = 58.8 is "medium"; the thresholds 80 and 50 are
    inclusive. *)
Example thresholds_are_inclusive :
  level_of (final_score 84 (literal 1 1) (literal 7 10) 0) = medium
  /\ level_of (float_of_int 80) = high
  /\ level_of (float_of_int 50) = medium
  /\ level_of (float_of_int 49) = low.
Proof. repeat split; reflexivity. Qed.

(** The first example item is relevant and listed twice, the second is
    not relevant: the batch filter returns the first one twice. *)
Example batch_filter_on_examples :
  snd (ContentFilter.filter_items_list (rt := latin1) example_heap example_items)
  = [1%positive; 1%positive].
Proof. vm_compute. reflexivity. Qed.

Example sanitize_joins_with_and :
  Search.sanitize_search_query (lit "  IBS (CBS) | !reforma ")
  = lit "IBS & CBS & reforma".
Proof. reflexivity. Qed.

(** * Further properties *)

(** ** The relevance score in closed form *)

Lemma keyword_loop_closed (text : str) (table : list (str * Z)) :
  forall score matched,
    fold_left
      (fun '(score, matched_keywords) '(keyword, weight) =>
         if str_in keyword text
         then (score + weight, matched_keywords ++ [keyword])
         else (score, matched_keywords))
      table (score, matched)
    = (score + total_weight (occurring table text),
       matched ++ List.map fst (occurring table text)).
Proof.
  unfold occurring, total_weight.
  induction table as [|[kw w] table IH]; intros score matched; simpl.
  - rewrite Z.add_0_r, app_nil_r. reflexivity.
  - destruct (str_in kw text); simpl; rewrite IH.
    + rewrite <- app_assoc. simpl. f_equal. lia.
    + reflexivity.
Qed.

Lemma title_loop_closed (title_lower : str) (matched : list str) :
  forall score,
    fold_left
      (fun score keyword => if str_in keyword title_lower then score + 20 else score)
      matched score
    = score + 20 * count_in title_lower matched.
Proof.
  unfold count_in. induction matched as [|kw matched IH]; intros score; simpl.
  - lia.
  - rewrite IH. destruct (str_in kw title_lower); simpl length; lia.
Qed.

(** The two loops of [calculate_relevance_score] as sums. *)
Lemma relevance_score_closed {rt : Runtime} (title description content : str) :
  let entries := occurring TAX_REFORM_KEYWORDS (scorer_text title description content) in
  let n := Z.of_nat (length entries) in
  PriorityScorer.calculate_relevance_score title description content
  = Z.min (total_weight entries
           + (if 1 <? n then n * 5 else 0)
           + 20 * count_in (lower title) (List.map fst entries))
          100.
Proof.
  intros entries n. unfold PriorityScorer.calculate_relevance_score.
  fold (scorer_text title description content).
  rewrite keyword_loop_closed. fold entries. cbn [app].
  rewrite title_loop_closed, length_map. fold n.
  replace (1 <? length entries)%nat with (1 <? n)
    by (subst n; destruct (Nat.ltb_spec 1 (length entries));
        destruct (Z.ltb_spec 1 (Z.of_nat (length entries))); lia).
  destruct (1 <? n); f_equal; lia.
Qed.

Lemma weights_positive : Forall (fun kw : str * Z => 0 < snd kw) TAX_REFORM_KEYWORDS.
Proof. unfold TAX_REFORM_KEYWORDS. repeat constructor; simpl; lia. Qed.

Lemma total_weight_bounds (entries : list (str * Z)) :
  Forall (fun kw : str * Z => 0 < snd kw) entries ->
  0 <= total_weight entries
  /\ forall kw w, In (kw, w) entries -> w <= total_weight entries.
Proof.
  unfold total_weight. induction 1 as [|[k v] entries Hv _ IH]; simpl.
  - split; [lia | intros kw w []].
  - simpl in Hv. destruct IH as [H0 Hle]. split; [lia|].
    intros kw w [Heq|Hin]; [injection Heq as _ <-; lia|].
    specialize (Hle kw w Hin). lia.
Qed.

Lemma occurring_positive (text : str) :
  Forall (fun kw : str * Z => 0 < snd kw) (occurring TAX_REFORM_KEYWORDS text).
Proof.
  unfold occurring. pose proof weights_positive as H.
  rewrite List.Forall_forall in *. intros kw Hkw.
  apply filter_In in Hkw. apply H, Hkw.
Qed.

Lemma count_in_nonneg (text : str) (kws : list str) : 0 <= count_in text kws.
Proof. unfold count_in. lia. Qed.

(** X1. The relevance score of the scorer is 0 exactly when no keyword of
    [TAX_REFORM_KEYWORDS] occurs in the lowered text from which the
    characters outside the kept class were removed. *)
Theorem relevance_zero_iff_no_keyword :
  forall (rt : Runtime) (title description content : str),
    PriorityScorer.calculate_relevance_score title description content = 0
    <-> forall kw w, In (kw, w) TAX_REFORM_KEYWORDS ->
          str_in kw (scorer_text title description content) = false.
Proof.
  intros rt title description content. rewrite relevance_score_closed. cbv zeta.
  set (entries := occurring TAX_REFORM_KEYWORDS _).
  pose proof (total_weight_bounds entries (occurring_positive _)) as [H0 Hle].
  pose proof (count_in_nonneg (lower title) (List.map fst entries)) as Hc.
  assert (Hn : 0 <= (if 1 <? Z.of_nat (length entries)
                     then Z.of_nat (length entries) * 5 else 0))
    by (destruct (1 <? _); lia).
  split.
  - intros Hz kw w Hin. destruct (str_in kw (scorer_text title description content)) eqn:E;
      [|reflexivity].
    assert (Hocc : In (kw, w) entries) by (apply filter_In; split; assumption).
    specialize (Hle kw w Hocc).
    pose proof weights_positive as Hp. rewrite List.Forall_forall in Hp.
    specialize (Hp (kw, w) Hin). simpl in Hp. lia.
  - intros Hnone. assert (He : entries = []).
    { subst entries. unfold occurring.
      destruct (List.filter _ TAX_REFORM_KEYWORDS) as [|[kw w] l] eqn:E; [reflexivity|].
      assert (Hin : In (kw, w) (List.filter (fun entry => str_in (fst entry)
                       (scorer_text title description content)) TAX_REFORM_KEYWORDS))
        by (rewrite E; left; reflexivity).
      apply filter_In in Hin as [Hin Hocc]. simpl in Hocc.
      rewrite (Hnone kw w Hin) in Hocc. discriminate. }
    rewrite He. reflexivity.
Qed.

(** X2. A keyword of [TAX_REFORM_KEYWORDS] that occurs in the scorer's
    text gives a relevance score of at least its weight, capped at 100. *)
Theorem relevance_at_least_the_weight :
  forall (rt : Runtime) (title description content kw : str) (w : Z),
    In (kw, w) TAX_REFORM_KEYWORDS ->
    str_in kw (scorer_text title description content) = true ->
    Z.min w 100 <= PriorityScorer.calculate_relevance_score title description content.
Proof.
  intros rt title description content kw w Hin Hocc.
  rewrite relevance_score_closed. cbv zeta.
  set (entries := occurring TAX_REFORM_KEYWORDS _).
  pose proof (total_weight_bounds entries (occurring_positive _)) as [H0 Hle].
  pose proof (count_in_nonneg (lower title) (List.map fst entries)) as Hc.
  assert (Hn : 0 <= (if 1 <? Z.of_nat (length entries)
                     then Z.of_nat (length entries) * 5 else 0))
    by (destruct (1 <? _); lia).
  assert (Hocc' : In (kw, w) entries) by (apply filter_In; split; assumption).
  specialize (Hle kw w Hocc'). lia.
Qed.

Lemma relevance_at_least_witness :
  In (lit "icms", 70) TAX_REFORM_KEYWORDS
  /\ str_in (lit "icms") (scorer_text (rt := latin1) (lit "") (lit "O ICMS muda") (lit "")) = true
  /\ Z.min 70 100 <= PriorityScorer.calculate_relevance_score (rt := latin1)
                       (lit "") (lit "O ICMS muda") (lit "").
Proof.
  assert (Hin : In (lit "icms", 70) TAX_REFORM_KEYWORDS)
    by (unfold TAX_REFORM_KEYWORDS; simpl; tauto).
  assert (Hocc : str_in (lit "icms")
                   (scorer_text (rt := latin1) (lit "") (lit "O ICMS muda") (lit "")) = true)
    by reflexivity.
  split; [exact Hin|]. split; [exact Hocc|].
  exact (relevance_at_least_the_weight latin1 _ _ _ _ _ Hin Hocc).
Defined.

(** *** Characters of the scorer's text *)

Lemma Forall_lstrip (P : cp -> Prop) (s : str) : Forall P s -> Forall P (lstrip s).
Proof.
  induction 1 as [|c s Hc Hs IH]; simpl; [constructor|].
  destruct (isspace c); [exact IH | constructor; assumption].
Qed.

Lemma Forall_strip (P : cp -> Prop) (s : str) : Forall P s -> Forall P (strip s).
Proof.
  intros H. unfold strip, rstrip.
  apply List.Forall_rev, Forall_lstrip, List.Forall_rev, Forall_lstrip, H.
Qed.

Lemma sub_not_kept_kept (s : str) : Forall (fun c => kept c = true) (sub_not_kept s).
Proof.
  unfold sub_not_kept. induction s as [|c s IH]; simpl; constructor; [|exact IH].
  destruct (kept c) eqn:E; [exact E | reflexivity].
Qed.

Lemma sub_space_runs_kept (s : str) :
  Forall (fun c => kept c = true) s ->
  forall in_run, Forall (fun c => kept c = true) (sub_space_runs in_run s).
Proof.
  induction 1 as [|c s Hc Hs IH]; intros in_run; simpl; [constructor|].
  destruct (isspace c); [destruct in_run|]; try constructor; auto.
Qed.

Lemma scorer_text_kept {rt : Runtime} (title description content : str) :
  Forall (fun c => kept c = true) (scorer_text title description content).
Proof.
  unfold scorer_text. apply Forall_strip, sub_space_runs_kept, sub_not_kept_kept.
Qed.

(** X3. Only strings made of the kept characters (lower-case letters,
    the listed accented letters, white space) occur in the scorer's text;
    so the keywords "pec 45" and "pec 110", which hold digits, are never
    matched by [calculate_relevance_score]. *)
Theorem keywords_with_other_characters_never_occur :
  forall (rt : Runtime) (title description content : str),
    (forall kw, str_in kw (scorer_text title description content) = true ->
                Forall (fun c => kept c = true) kw)
    /\ str_in (lit "pec 45") (scorer_text title description content) = false
    /\ str_in (lit "pec 110") (scorer_text title description content) = false.
Proof.
  intros rt title description content.
  assert (Hgen : forall kw, str_in kw (scorer_text title description content) = true ->
                            Forall (fun c => kept c = true) kw).
  { intros kw Hin. apply str_in_spec in Hin as (pre & post & Heq).
    pose proof (scorer_text_kept title description content) as Hk.
    rewrite Heq in Hk. apply Forall_app in Hk as [_ Hk].
    apply Forall_app in Hk as [Hk _]. exact Hk. }
  split; [exact Hgen|].
  split.
  - destruct (str_in (lit "pec 45") _) eqn:E; [|reflexivity].
    apply Hgen in E. rewrite List.Forall_forall in E.
    specialize (E 52%N ltac:(vm_compute; tauto)). discriminate.
  - destruct (str_in (lit "pec 110") _) eqn:E; [|reflexivity].
    apply Hgen in E. rewrite List.Forall_forall in E.
    specialize (E 49%N ltac:(vm_compute; tauto)). discriminate.
Qed.

(** ** Priority without keywords, and the recency bonus *)

(** X4. When the relevance score is 0 and the credibility factor is
    defined, [calculate_priority] answers "low", whatever the source name,
    the credibility and the publication date are. *)
Theorem no_keyword_means_low_priority :
  forall (rt : Runtime) (now : datetime) (title description content source_name : str)
         (source_credibility : Z) (pub_date : option datetime) (factor : float),
    PriorityScorer.calculate_relevance_score title description content = 0 ->
    credibility_factor source_credibility = Some factor ->
    calculate_priority now title description content source_credibility source_name pub_date
    = Some low.
Proof.
  intros rt now title description content source_name c pub_date factor Hrel Hf.
  unfold calculate_priority. rewrite Hrel, Hf. cbn [mbind option_bind]. f_equal.
  pose proof (recency_bonus_in now pub_date) as Hb.
  generalize dependent (recency_bonus now pub_date). intros bonus Hb.
  generalize (find_multiplier SOURCE_MULTIPLIERS (lower source_name) (literal 1 1)).
  intros m. unfold bonuses in Hb. simpl in Hb.
  destruct Hb as [<-|[<-|[<-|[<-|[]]]]];
    destruct m as [[|]|[|]| |[|] ? ?]; destruct factor as [[|]|[|]| |[|] ? ?];
    reflexivity.
Qed.

Lemma no_keyword_low_witness :
  PriorityScorer.calculate_relevance_score (rt := latin1)
    (lit "Jogo de futebol") (lit "") (lit "") = 0
  /\ credibility_factor 100 = Some (fadd (literal 7 10) (fmul (literal 1 1) (literal 6 10)))
  /\ calculate_priority (rt := latin1) {| ticks := 0; tzinfo := None |}
       (lit "Jogo de futebol") (lit "") (lit "") 100 (lit "Receita Federal")
       (Some {| ticks := 0; tzinfo := Some 0 |}) = Some low.
Proof.
  assert (H0 : PriorityScorer.calculate_relevance_score (rt := latin1)
                 (lit "Jogo de futebol") (lit "") (lit "") = 0) by reflexivity.
  assert (Hf : credibility_factor 100
               = Some (fadd (literal 7 10) (fmul (literal 1 1) (literal 6 10))))
    by reflexivity.
  split; [exact H0|]. split; [exact Hf|].
  exact (no_keyword_means_low_priority latin1 _ _ _ _ _ _ _ _ H0 Hf).
Defined.

(** X5. The recency bonus by the age of the item: 10 below two days
    (also for a date in the future), 5 from two days to below eight, 2 from
    eight days to below thirty-one, and 0 from thirty-one days on. *)
Theorem recency_bonus_by_age :
  forall (now d : datetime),
    let age := ticks now - ticks d in
    let day := 86400000000 in
    (age < 2 * day -> recency_bonus now (Some d) = 10)
    /\ (2 * day <= age < 8 * day -> recency_bonus now (Some d) = 5)
    /\ (8 * day <= age < 31 * day -> recency_bonus now (Some d) = 2)
    /\ (31 * day <= age -> recency_bonus now (Some d) = 0).
Proof.
  intros now d age day. unfold recency_bonus, days_between, replace_tzinfo_None.
  cbn [ticks]. fold age. fold day.
  assert (Hday : 0 < day) by (subst day; lia).
  pose proof (Z.div_mod age day ltac:(lia)) as Hdm.
  pose proof (Z.mod_pos_bound age day Hday) as Hmod.
  repeat split; intros Hage;
    destruct (age / day <=? 1) eqn:E1; destruct (age / day <=? 7) eqn:E7;
    destruct (age / day <=? 30) eqn:E30; try reflexivity;
    rewrite ?Z.leb_le, ?Z.leb_gt in *; nia.
Qed.

(** ** The admission filter: normalisation and match tables *)

Lemma sub_class_removes (cls : str) (repl : cp) (text : str) :
  existsb (N.eqb repl) cls = false ->
  Forall (fun c => existsb (N.eqb c) cls = false) (sub_class cls repl text).
Proof.
  intros Hr. unfold sub_class. induction text as [|c text IH]; simpl; constructor;
    [|exact IH].
  destruct (existsb (N.eqb c) cls) eqn:E; [exact Hr | exact E].
Qed.

Lemma sub_class_keeps (P : cp -> Prop) (cls : str) (repl : cp) (text : str) :
  P repl -> Forall P text -> Forall P (sub_class cls repl text).
Proof.
  intros Hr. unfold sub_class. induction 1 as [|c text Hc _ IH]; simpl; constructor;
    [|exact IH].
  destruct (existsb (N.eqb c) cls); assumption.
Qed.

(** X6. The result of [normalize_text] holds none of the accented letters
    that the six substitutions replace. *)
Theorem normalize_text_has_no_accents :
  forall (rt : Runtime) (text : str),
    Forall (fun c => ~ In c accented) (ContentFilter.normalize_text text).
Proof.
  intros rt text. unfold ContentFilter.normalize_text.
  destruct text as [|c0 text0]; [constructor|].
  set (s := strip (lower (c0 :: text0))).
  assert (H : Forall (fun c => existsb (N.eqb c) accented = false)
                (sub_class (lit "ç") 99%N
                   (sub_class (lit "ùúûü") 117%N
                      (sub_class (lit "òóôõö") 111%N
                         (sub_class (lit "ìíîï") 105%N
                            (sub_class (lit "èéêë") 101%N
                               (sub_class (lit "àáâãäå") 97%N s))))))).
  { set (in_cls := fun (cls : str) (c : cp) => existsb (N.eqb c) cls = false).
    assert (Hall : Forall (fun c => in_cls (lit "àáâãäå") c /\ in_cls (lit "èéêë") c
                                    /\ in_cls (lit "ìíîï") c /\ in_cls (lit "òóôõö") c
                                    /\ in_cls (lit "ùúûü") c /\ in_cls (lit "ç") c)
                      (sub_class (lit "ç") 99%N
                         (sub_class (lit "ùúûü") 117%N
                            (sub_class (lit "òóôõö") 111%N
                               (sub_class (lit "ìíîï") 105%N
                                  (sub_class (lit "èéêë") 101%N
                                     (sub_class (lit "àáâãäå") 97%N s))))))).
    { rewrite !Forall_and. repeat split.
      - do 5 (apply sub_class_keeps; [reflexivity|]). apply sub_class_removes. reflexivity.
      - do 4 (apply sub_class_keeps; [reflexivity|]). apply sub_class_removes. reflexivity.
      - do 3 (apply sub_class_keeps; [reflexivity|]). apply sub_class_removes. reflexivity.
      - do 2 (apply sub_class_keeps; [reflexivity|]). apply sub_class_removes. reflexivity.
      - do 1 (apply sub_class_keeps; [reflexivity|]). apply sub_class_removes. reflexivity.
      - apply sub_class_removes. reflexivity. }
    eapply List.Forall_impl; [|exact Hall]. unfold in_cls. cbv beta.
    intros c (H1 & H2 & H3 & H4 & H5 & H6).
    assert (Hacc : accented = lit "àáâãäå" ++ lit "èéêë" ++ lit "ìíîï" ++ lit "òóôõö"
                              ++ lit "ùúûü" ++ lit "ç") by reflexivity.
    rewrite Hacc, !existsb_app. unfold cp in *. rewrite H1, H2, H3, H4, H5, H6. reflexivity. }
  eapply List.Forall_impl; [|exact H]. cbv beta. intros c Hc Hin.
  assert (Ht : existsb (N.eqb c) accented = true)
    by (apply existsb_exists; exists c; split; [exact Hin | apply N.eqb_refl]).
  congruence.
Qed.

Section MatchTables.
Context {rt : Runtime}.
Import ContentFilter.

Lemma counts_set_fresh (matches : counts) (keyword : str) (count : Z) :
  ~ In keyword (keys matches) ->
  counts_set matches keyword count = matches ++ [(keyword, count)].
Proof.
  unfold keys. induction matches as [|[k c] matches IH]; intros Hk; simpl; [reflexivity|].
  unfold str_eqb. destruct (decide (k = keyword)) as [->|Hne].
  - exfalso. apply Hk. left. reflexivity.
  - rewrite IH; [reflexivity|]. intros Hin. apply Hk. right. exact Hin.
Qed.

Lemma count_loop_distinct (text : str) (keywords : list str) :
  List.NoDup keywords ->
  forall acc : counts,
    (forall k, In k keywords -> ~ In k (keys acc)) ->
    fold_left
      (fun matches keyword =>
         let normalized_keyword := normalize_text keyword in
         let count := Z.of_nat (findall_count normalized_keyword (normalize_text text)) in
         if 0 <? count then counts_set matches keyword count else matches)
      keywords acc
    = acc ++ matching text keywords.
Proof.
  unfold matching, match_count.
  induction 1 as [|kw keywords Hnotin Hnd IH]; intros acc Hacc; cbn [fold_left].
  - cbn. rewrite app_nil_r. reflexivity.
  - cbn [List.filter]. cbv zeta.
    destruct (0 <? Z.of_nat (findall_count (normalize_text kw) (normalize_text text))) eqn:E.
    + rewrite counts_set_fresh by (apply Hacc; left; reflexivity).
      rewrite IH.
      * rewrite <- app_assoc. reflexivity.
      * intros k Hk Hin. unfold keys in Hin. rewrite List.map_app in Hin.
        apply in_app_or in Hin as [Hin|[<-|[]]].
        -- apply (Hacc k); [right; exact Hk | exact Hin].
        -- exact (Hnotin Hk).
    + apply IH. intros k Hk. apply Hacc. right. exact Hk.
Qed.

(** When the keywords are distinct, [count_keyword_matches] lists those
    with a match, with their counts, in the order of the keyword list. *)
Lemma count_keyword_matches_distinct (text : str) (keywords : list str) :
  List.NoDup keywords ->
  count_keyword_matches text keywords = matching text keywords.
Proof.
  intros Hnd.
  exact (count_loop_distinct text keywords Hnd [] (fun k _ (H : In k []) => H)).
Qed.

Lemma keyword_lists_distinct :
  List.NoDup primary_keywords /\ List.NoDup secondary_keywords
  /\ List.NoDup exclusion_keywords.
Proof.
  assert (Hgen : forall l : list str,
             nodup (List.list_eq_dec N.eq_dec) l = l -> List.NoDup l)
    by (intros l <-; apply NoDup_nodup).
  repeat split; apply Hgen; vm_compute; reflexivity.
Qed.

Lemma keys_matching (text : str) (keywords : list str) :
  keys (matching text keywords)
  = List.filter (fun kw => 0 <? match_count kw text) keywords.
Proof.
  unfold keys, matching. rewrite List.map_map. cbn [fst]. apply map_id.
Qed.

End MatchTables.

(** X7. For a text that is not blank, [matched_keywords] of
    [filter_content] is the primary keywords that match, in the order of
    the primary list, followed by the secondary keywords that match, in
    the order of the secondary list; exclusion keywords are not part of it. *)
Theorem matched_keywords_in_list_order :
  forall (rt : Runtime) (title description content : value),
    let text := ContentFilter.combined title description content in
    strip text <> [] ->
    ContentFilter.matched_keywords (ContentFilter.filter_content title description content)
    = List.filter (fun kw => 0 <? match_count kw text) ContentFilter.primary_keywords
      ++ List.filter (fun kw => 0 <? match_count kw text) ContentFilter.secondary_keywords.
Proof.
  intros rt title description content text Hblank.
  unfold ContentFilter.filter_content. fold text.
  destruct (strip text); [contradiction|].
  cbv zeta. cbn [ContentFilter.matched_keywords].
  destruct keyword_lists_distinct as (Hp & Hs & _).
  rewrite !count_keyword_matches_distinct by assumption.
  rewrite !keys_matching. reflexivity.
Qed.

Lemma matched_keywords_witness :
  let title := VStr (lit "IBS, ICMS e a reforma tributária") in
  let text := ContentFilter.combined (rt := latin1) title VNone VNone in
  strip text <> []
  /\ ContentFilter.matched_keywords
       (ContentFilter.filter_content (rt := latin1) title VNone VNone)
     = List.filter (fun kw => 0 <? match_count (rt := latin1) kw text)
         ContentFilter.primary_keywords
       ++ List.filter (fun kw => 0 <? match_count (rt := latin1) kw text)
            ContentFilter.secondary_keywords.
Proof.
  intros title text.
  assert (Hblank : strip text <> []) by (vm_compute; discriminate).
  split; [exact Hblank|].
  exact (matched_keywords_in_list_order latin1 title VNone VNone Hblank).
Defined.

Section DoubleCount.
Context {rt : Runtime}.
Import ContentFilter.

Lemma sum_fold_right (l : list Z) : sum l = fold_right Z.add 0 l.
Proof.
  unfold sum. rewrite <- fold_left_rev_right.
  assert (H : forall l' : list Z,
             fold_right (fun y x => x + y) 0 l' = fold_right Z.add 0 l').
  { induction l' as [|x l' IH]; simpl; [reflexivity | rewrite IH; lia]. }
  rewrite H. clear H. induction l as [|x l IH]; [reflexivity|].
  simpl rev. rewrite fold_right_app. simpl.
  assert (Hacc : forall (l' : list Z) a, fold_right Z.add a l' = a + fold_right Z.add 0 l').
  { induction l' as [|y l' IH']; intros a; simpl; [lia | rewrite IH'; lia]. }
  rewrite Hacc, IH. lia.
Qed.

Lemma matching_values_positive (text : str) (keywords : list str) :
  Forall (fun c => 0 < c) (values (matching text keywords)).
Proof.
  unfold values, matching. rewrite List.map_map. cbn [snd].
  induction keywords as [|kw keywords IH]; cbn [List.filter]; [constructor|].
  destruct (0 <? match_count kw text) eqn:E; [|exact IH].
  cbn [List.map]. constructor; [apply Z.ltb_lt, E | exact IH].
Qed.

Lemma sum_scaled_nonneg (k : Z) (l : list Z) :
  0 <= k -> Forall (fun c => 0 < c) l ->
  0 <= sum (List.map (fun count => count * k) l).
Proof.
  intros Hk Hl. rewrite sum_fold_right.
  induction Hl as [|c l Hc _ IH]; simpl; nia.
Qed.

Lemma normalize_text_nonempty (s : str) :
  s <> [] ->
  normalize_text s
  = sub_class (lit "ç") 99%N
      (sub_class (lit "ùúûü") 117%N
         (sub_class (lit "òóôõö") 111%N
            (sub_class (lit "ìíîï") 105%N
               (sub_class (lit "èéêë") 101%N
                  (sub_class (lit "àáâãäå") 97%N (strip (lower s))))))).
Proof. destruct s; [contradiction | reflexivity]. Qed.

End DoubleCount.

(** X8. "reforma tributária" and "reforma tributaria" normalize to the
    same pattern: a text that matches one matches both, both are reported,
    and with no exclusion keyword the score is at least 55 and the text is
    relevant. *)
Theorem both_spellings_are_counted :
  forall (rt : Runtime) (title description content : value),
    lower (lit "reforma tributária") = lit "reforma tributária" ->
    lower (lit "reforma tributaria") = lit "reforma tributaria" ->
    let text := ContentFilter.combined title description content in
    let r := ContentFilter.filter_content title description content in
    strip text <> [] ->
    keyword_matches (lit "reforma tributaria") text ->
    (forall kw, In kw ContentFilter.exclusion_keywords -> ~ keyword_matches kw text) ->
    In (lit "reforma tributária") (ContentFilter.matched_keywords r)
    /\ In (lit "reforma tributaria") (ContentFilter.matched_keywords r)
    /\ 55 <= ContentFilter.relevance_score r
    /\ ContentFilter.is_relevant r = true.
Proof.
  intros rt title description content Hl1 Hl2 text r Hblank Hmatch Hexcl.
  assert (Hn1 : ContentFilter.normalize_text (lit "reforma tributária")
                = lit "reforma tributaria")
    by (rewrite normalize_text_nonempty by discriminate; rewrite Hl1; reflexivity).
  assert (Hn2 : ContentFilter.normalize_text (lit "reforma tributaria")
                = lit "reforma tributaria")
    by (rewrite normalize_text_nonempty by discriminate; rewrite Hl2; reflexivity).
  assert (Hc2 : 0 < match_count (lit "reforma tributaria") text)
    by (unfold keyword_matches in Hmatch; unfold match_count; lia).
  assert (Hc1 : match_count (lit "reforma tributária") text
                = match_count (lit "reforma tributaria") text)
    by (unfold match_count; rewrite Hn1, Hn2; reflexivity).
  set (c := match_count (lit "reforma tributaria") text) in *.
  destruct keyword_lists_distinct as (Hp & Hs & He).
  assert (Hprim : exists rest,
             ContentFilter.count_keyword_matches text ContentFilter.primary_keywords
             = (lit "reforma tributária", c) :: (lit "reforma tributaria", c) :: rest
             /\ Forall (fun n => 0 < n) (ContentFilter.values rest)).
  { rewrite count_keyword_matches_distinct by exact Hp.
    unfold ContentFilter.primary_keywords, matching. cbn [List.filter].
    rewrite Hc1. fold c. apply Z.ltb_lt in Hc2. rewrite Hc2. cbn [List.map].
    rewrite Hc1. fold c. eexists. split; [reflexivity|].
    apply (matching_values_positive text [lit "ibs"; lit "cbs"]). }
  destruct Hprim as (rest & Hprim & Hrest).
  assert (Hex : ContentFilter.count_keyword_matches text ContentFilter.exclusion_keywords = []).
  { rewrite count_keyword_matches_distinct by exact He. unfold matching.
    assert (Hnone : List.filter (fun kw => 0 <? match_count kw text)
                      ContentFilter.exclusion_keywords = []).
    { generalize Hexcl. generalize ContentFilter.exclusion_keywords.
      induction l as [|kw l IH]; intros Hl; [reflexivity|]. cbn [List.filter].
      destruct (0 <? match_count kw text) eqn:E.
      - exfalso. apply (Hl kw); [left; reflexivity|].
        apply Z.ltb_lt in E. unfold keyword_matches. unfold match_count in E. lia.
      - apply IH. intros k Hk. apply Hl. right. exact Hk. }
    rewrite Hnone. reflexivity. }
  assert (Hscore : 55 <= ContentFilter.calculate_relevance_score
                           (ContentFilter.count_keyword_matches text ContentFilter.primary_keywords)
                           (ContentFilter.count_keyword_matches text ContentFilter.secondary_keywords)
                           (ContentFilter.count_keyword_matches text ContentFilter.exclusion_keywords)).
  { unfold ContentFilter.calculate_relevance_score. rewrite Hprim, Hex.
    rewrite (count_keyword_matches_distinct text _ Hs).
    pose proof (sum_scaled_nonneg 5 _ ltac:(lia)
                  (matching_values_positive text ContentFilter.secondary_keywords)) as Hsec.
    pose proof (sum_scaled_nonneg 20 _ ltac:(lia) Hrest) as Hr.
    cbn [ContentFilter.values List.map snd length Nat.ltb Nat.leb] in *.
    rewrite !sum_fold_right in *. cbn [fold_right List.map] in *.
    fold (ContentFilter.values rest) in *. lia. }
  subst r. unfold ContentFilter.filter_content. fold text.
  destruct (strip text); [contradiction|]. cbv zeta.
  cbn [ContentFilter.matched_keywords ContentFilter.relevance_score
       ContentFilter.is_relevant].
  split; [|split; [|split; [exact Hscore|]]].
  - apply in_or_app. left. rewrite Hprim. left. reflexivity.
  - apply in_or_app. left. rewrite Hprim. right. left. reflexivity.
  - rewrite Hprim at 1. cbn [length Nat.ltb Nat.leb andb]. apply Z.leb_le. lia.
Qed.

Lemma both_spellings_witness :
  let title := VStr (lit "Reforma tributaria avança") in
  let text := ContentFilter.combined (rt := latin1) title VNone VNone in
  let r := ContentFilter.filter_content (rt := latin1) title VNone VNone in
  strip text <> []
  /\ In (lit "reforma tributária") (ContentFilter.matched_keywords r)
  /\ In (lit "reforma tributaria") (ContentFilter.matched_keywords r)
  /\ 55 <= ContentFilter.relevance_score r
  /\ ContentFilter.is_relevant r = true.
Proof.
  intros title text r.
  assert (Hblank : strip text <> []) by (vm_compute; discriminate).
  assert (Hall : forallb (fun kw =>
                    Nat.eqb (ContentFilter.findall_count (rt := latin1)
                               (ContentFilter.normalize_text (rt := latin1) kw)
                               (ContentFilter.normalize_text (rt := latin1) text)) 0)
                   ContentFilter.exclusion_keywords = true).
  { vm_compute. reflexivity. }
  split; [exact Hblank|].
  apply (both_spellings_are_counted latin1 title VNone VNone);
    [reflexivity | reflexivity | exact Hblank | vm_compute; lia |].
  intros kw Hkw. unfold keyword_matches. fold text.
  rewrite forallb_forall in Hall. specialize (Hall kw Hkw). cbv beta in Hall.
  apply Nat.eqb_eq in Hall. intros Hpos. rewrite Hall in Hpos. lia.
Defined.

(** ** More on the batch filter *)

Lemma sort_desc_sorted_id {A} (key : A -> Z) (l : list A) :
  StronglySorted (fun a b => key b <= key a) l -> sort_desc key l = l.
Proof.
  induction 1 as [|x l Hs IH Hx]; [reflexivity|].
  cbn [sort_desc]. rewrite IH. destruct l as [|y l]; [reflexivity|].
  cbn [insert_desc]. inversion Hx as [|? ? Hy _]; subst.
  destruct (Z.ltb_spec (key x) (key y)); [lia | reflexivity].
Qed.

Section BatchFilterMore.
Context {rt : Runtime}.
Import ContentFilter.

Lemma filter_all_true {A} (p : A -> bool) (l : list A) :
  (forall x, In x l -> p x = true) -> List.filter p l = l.
Proof.
  induction l as [|x l IH]; intros H; [reflexivity|]. cbn [List.filter].
  rewrite (H x (or_introl eq_refl)), IH; [reflexivity|].
  intros y Hy. apply H. right. exact Hy.
Qed.

(** X9. Filtering the list that [filter_items_list] returned, in the
    store it left, changes neither the list nor the store. *)
Theorem filter_items_list_idempotent (h : heap) (items : list loc) :
  let h1 := fst (filter_items_list h items) in
  let out1 := snd (filter_items_list h items) in
  filter_items_list h1 out1 = (h1, out1).
Proof.
  intros h1 out1.
  pose proof (filter_loop h items) as (Hv & Hf & Hin & Hout).
  subst h1 out1. remember (filter_items_list h items) as res eqn:E.
  unfold filter_items_list in E.
  destruct (fold_left filter_step items (h, [])) as [h1 f].
  subst res. cbn [fst snd] in *.
  set (score := fun l => relevance_score (verdict h l)).
  assert (Hkey : forall l, In l f -> sort_key h1 l = score l).
  { intros l Hl. apply (sort_key_with_verdict _ _ _ (deref h l)), Hin, Hl. }
  rewrite (sort_desc_ext _ score f Hkey).
  set (out1 := sort_desc score f).
  assert (Hmem : forall l, In l out1 -> In l f)
    by (intros l; apply Permutation_in, sort_desc_perm).
  assert (Hrel : forall l, In l out1 -> is_relevant (verdict h1 l) = true).
  { intros l Hl. rewrite Hv. apply Hmem in Hl. rewrite Hf in Hl.
    apply filter_In in Hl. tauto. }
  pose proof (filter_loop h1 out1) as (Hv2 & Hf2 & Hin2 & Hout2).
  unfold filter_items_list.
  destruct (fold_left filter_step out1 (h1, [])) as [h2 f2]. cbn [fst snd] in *.
  rewrite (filter_all_true _ out1 Hrel) in Hf2. rewrite Hf2 in *. clear Hf2 f2.
  assert (Hh : h2 = h1).
  { apply map_eq. intros l. destruct (in_dec Pos.eq_dec l out1) as [Hl|Hl].
    - rewrite (Hin2 l Hl), Hv. unfold deref at 1. rewrite (Hin l (Hmem l Hl)).
      cbn [from_option id]. rewrite with_verdict_idem. reflexivity.
    - apply Hout2, Hl. }
  rewrite Hh. f_equal.
  rewrite (sort_desc_ext _ score out1).
  - apply sort_desc_sorted_id, sort_desc_sorted.
  - intros l Hl. apply Hkey, Hmem, Hl.
Qed.

(** X10. [filter_items_list] changes only the items it returns, and of
    those only the keys [relevance_score] and [matched_keywords]. *)
Theorem filter_items_list_frame (h : heap) (items : list loc) :
  let h' := fst (filter_items_list h items) in
  let out := snd (filter_items_list h items) in
  (forall l, ~ In l out -> h' !! l = h !! l)
  /\ (forall l k, k <> "relevance_score" -> k <> "matched_keywords" ->
        deref h' l !! k = deref h l !! k).
Proof.
  intros h' out.
  pose proof (filter_loop h items) as (_ & _ & Hin & Hout).
  subst h' out. unfold filter_items_list.
  destruct (fold_left filter_step items (h, [])) as [h1 f]. cbn [fst snd] in *.
  assert (Hmem : forall l, In l (sort_desc (sort_key h1) f) <-> In l f).
  { intros l. split; apply Permutation_in;
      [|symmetry]; apply sort_desc_perm. }
  split.
  - intros l Hl. apply Hout. intros Hf. apply Hl, Hmem, Hf.
  - intros l k Hr Hm. destruct (in_dec Pos.eq_dec l f) as [Hl|Hl].
    + unfold deref at 1. rewrite (Hin l Hl). cbn [from_option id].
      unfold with_verdict. rewrite !lookup_insert_ne by congruence. reflexivity.
    + unfold deref. rewrite (Hout l Hl). reflexivity.
Qed.

End BatchFilterMore.

(** ** More on the batch scorer *)

Section BatchScorerMore.
Context {rt : Runtime}.

Lemma score_batch_from_new (clock : nat -> datetime) (items : list loc) :
  forall (i : nat) (h h' : heap) (out : list loc),
    score_batch_from clock i h items = Some (h', out) ->
    h ⊆ h'
    /\ List.NoDup out
    /\ forall l, In l out -> h !! l = None /\ is_Some (h' !! l).
Proof.
  induction items as [|item items IH]; intros i h h' out Hrun; cbn [score_batch_from] in Hrun.
  - injection Hrun as <- <-. split; [reflexivity|]. split; [constructor | intros l []].
  - destruct (enhance (clock i) (deref h item)) as [e|]; [|discriminate].
    cbn [mbind option_bind] in Hrun.
    set (l' := fresh (dom h)) in *.
    assert (Hfresh : h !! l' = None) by (apply not_elem_of_dom, is_fresh).
    destruct (score_batch_from clock (S i) (<[l' := e]> h) items) as [[h1 out1]|] eqn:E;
      [|discriminate].
    cbn [mbind option_bind] in Hrun. injection Hrun as <- <-.
    destruct (IH _ _ _ _ E) as (Hsub & Hnd & Hnew).
    assert (Hsub0 : h ⊆ <[l' := e]> h) by (apply insert_subseteq, Hfresh).
    split; [etransitivity; eassumption|].
    split.
    + constructor; [|exact Hnd]. intros Hin. destruct (Hnew l' Hin) as [Hnone _].
      rewrite lookup_insert_eq in Hnone. discriminate.
    + intros l [<-|Hl].
      * split; [exact Hfresh|]. exists e.
        apply (lookup_weaken _ _ _ _ (lookup_insert_eq h l' e) Hsub).
      * destruct (Hnew l Hl) as [Hnone Hsome]. split; [|exact Hsome].
        destruct (h !! l) eqn:El; [|reflexivity].
        rewrite (lookup_weaken _ _ _ _ El Hsub0) in Hnone. discriminate.
Qed.

Lemma enhance_none_iff (now : datetime) (item : dict) :
  enhance now item = None <-> scorable item = false.
Proof.
  split.
  - intros Hn. destruct (scorable item) eqn:E; [|reflexivity].
    destruct (enhance_scorable now item E) as (? & ? & ? & ? & ? & _ & _ & _ & _ & _ & He).
    rewrite He in Hn. discriminate.
  - intros Hs. unfold scorable in Hs. unfold enhance.
    destruct (as_str (get item "title" _)); [|reflexivity].
    destruct (as_str (get item "source_name" _)); [|reflexivity].
    destruct (as_int _) as [c|]; [|reflexivity].
    destruct (as_pub_date _); [|reflexivity].
    cbn [mbind option_bind]. unfold calculate_priority.
    destruct (credibility_factor c); [discriminate | reflexivity].
Qed.

Lemma score_batch_from_none (clock : nat -> datetime) (h0 : heap) (items : list loc) :
  (forall l, In l items -> is_Some (h0 !! l)) ->
  forall (i : nat) (h : heap),
    h0 ⊆ h ->
    (score_batch_from clock i h items = None
     <-> exists l, In l items /\ scorable (deref h0 l) = false).
Proof.
  induction items as [|item items IH]; intros Hvalid i h Hsub.
  - cbn. split; [discriminate | intros (l & [] & _)].
  - destruct (Hvalid item (or_introl eq_refl)) as [d Hd].
    assert (Hderef0 : deref h0 item = d) by (unfold deref; rewrite Hd; reflexivity).
    assert (Hderef : deref h item = d).
    { unfold deref. rewrite (lookup_weaken _ _ _ _ Hd Hsub). reflexivity. }
    cbn [score_batch_from]. rewrite Hderef.
    destruct (enhance (clock i) d) as [e|] eqn:He.
    + cbn [mbind option_bind].
      set (l' := fresh (dom h)).
      assert (Hfresh : h !! l' = None) by (apply not_elem_of_dom, is_fresh).
      assert (Hsub1 : h0 ⊆ <[l' := e]> h).
      { etransitivity; [exact Hsub | apply insert_subseteq, Hfresh]. }
      specialize (IH (fun l Hl => Hvalid l (or_intror Hl)) (S i) _ Hsub1).
      destruct (score_batch_from clock (S i) (<[l' := e]> h) items) as [[h1 out1]|].
      * cbn [mbind option_bind]. split; [discriminate|].
        intros (l & [<-|Hl] & Hs).
        -- rewrite Hderef0 in Hs. apply (enhance_none_iff (clock i)) in Hs. congruence.
        -- assert (Hex : exists l, In l items /\ scorable (deref h0 l) = false) by eauto.
           apply IH in Hex. discriminate.
      * cbn [mbind option_bind]. split; [|reflexivity].
        intros _. destruct IH as [IH _]. destruct (IH eq_refl) as (l & Hl & Hs).
        exists l. split; [right; exact Hl | exact Hs].
    + cbn [mbind option_bind]. split; [|reflexivity].
      intros _. exists item. split; [left; reflexivity|].
      rewrite Hderef0. apply (enhance_none_iff (clock i)), He.
Qed.

End BatchScorerMore.

(** X11. The items that [score_batch] returns are new objects, distinct
    from one another and from every object that existed before the call. *)
Theorem score_batch_returns_new_objects :
  forall (rt : Runtime) (clock : nat -> datetime) (h h' : heap) (items out : list loc),
    score_batch clock h items = Some (h', out) ->
    List.NoDup out /\ forall l, In l out -> h !! l = None /\ is_Some (h' !! l).
Proof.
  intros rt clock h h' items out Hrun.
  destruct (score_batch_from_new clock items 0%nat h h' out Hrun) as (_ & Hnd & Hnew).
  split; assumption.
Qed.

Lemma score_batch_new_objects_witness :
  exists h' out,
    score_batch (rt := latin1) example_clock example_heap example_items = Some (h', out)
    /\ List.NoDup out
    /\ forall l, In l out -> example_heap !! l = None /\ is_Some (h' !! l).
Proof.
  assert (Hok : forallb (scorable_at example_heap) example_items = true)
    by (vm_compute; reflexivity).
  destruct (score_batch_from_spec (rt := latin1) example_clock example_heap example_items
              0%nat example_heap (reflexivity example_heap) Hok)
    as (h' & out & Hrun & _).
  exists h', out. split; [exact Hrun|].
  exact (score_batch_returns_new_objects latin1 example_clock example_heap h'
           example_items out Hrun).
Defined.

(** X12. On existing items, [score_batch] raises exactly when one of the
    items cannot be scored on its own. *)
Theorem score_batch_raises_iff_unscorable :
  forall (rt : Runtime) (clock : nat -> datetime) (h : heap) (items : list loc),
    (forall l, In l items -> is_Some (h !! l)) ->
    (score_batch clock h items = None
     <-> exists l, In l items /\ scorable (deref h l) = false).
Proof.
  intros rt clock h items Hvalid.
  exact (score_batch_from_none clock h items Hvalid 0%nat h (reflexivity h)).
Qed.

Lemma score_batch_raises_witness :
  (forall l, In l [2%positive] ->
             is_Some ((<[2%positive := <["title" := VNone]> ∅]> ∅ : heap) !! l))
  /\ (score_batch (rt := latin1) example_clock
        (<[2%positive := <["title" := VNone]> ∅]> ∅) [2%positive] = None
      <-> exists l, In l [2%positive]
                    /\ scorable (deref (<[2%positive := <["title" := VNone]> ∅]> ∅) l) = false).
Proof.
  assert (Hvalid : forall l, In l [2%positive] ->
             is_Some ((<[2%positive := <["title" := VNone]> ∅]> ∅ : heap) !! l)).
  { intros l [<-|[]]. rewrite lookup_insert_eq. eauto. }
  split; [exact Hvalid|].
  exact (score_batch_raises_iff_unscorable latin1 example_clock _ _ Hvalid).
Defined.

(** ** More on query sanitization *)

Lemma split_from_nonspace (w : str) :
  Forall (fun c => isspace c = false) w ->
  forall cur rest, split_from cur (w ++ rest) = split_from (rev w ++ cur) rest.
Proof.
  induction 1 as [|c w Hc _ IH]; intros cur rest; [reflexivity|].
  cbn [app split_from]. rewrite Hc, IH. cbn [rev]. rewrite <- app_assoc. reflexivity.
Qed.

Lemma split_from_spaces (sep : str) :
  Forall (fun c => isspace c = true) sep -> sep <> [] ->
  forall cur rest, cur <> [] ->
    split_from cur (sep ++ rest) = rev cur :: split_from [] rest.
Proof.
  intros Hsep Hne cur rest Hcur.
  assert (Hskip : forall s, Forall (fun c => isspace c = true) s ->
                    split_from [] (s ++ rest) = split_from [] rest).
  { induction 1 as [|c s Hc _ IH]; [reflexivity|]. cbn [app split_from]. rewrite Hc. exact IH. }
  destruct Hsep as [|c sep Hc Hsep]; [contradiction|].
  cbn [app split_from]. rewrite Hc. destruct cur; [contradiction|].
  rewrite Hskip by exact Hsep. reflexivity.
Qed.

(** Splitting what [join] made of words gives the words back, when the
    separator is white space. *)
Lemma split_join (sep : str) (ws : list str) :
  Forall (fun c => isspace c = true) sep -> sep <> [] ->
  Forall split_word ws ->
  split (join sep ws) = ws.
Proof.
  intros Hsep Hne Hws. unfold split.
  induction Hws as [|w ws [Hw Hns] Hws IH]; [reflexivity|].
  assert (Hrev : rev w <> []).
  { intros Hr. apply Hw. rewrite <- (rev_involutive w), Hr. reflexivity. }
  destruct ws as [|w' ws].
  - cbn [join]. rewrite <- (app_nil_r w) at 1.
    rewrite split_from_nonspace by exact Hns.
    rewrite app_nil_r. cbn [split_from]. destruct (rev w) as [|c l] eqn:E.
    + exfalso. apply Hrev. reflexivity.
    + rewrite <- E, rev_involutive. reflexivity.
  - change (join sep (w :: w' :: ws)) with (w ++ sep ++ join sep (w' :: ws)).
    rewrite split_from_nonspace by exact Hns. rewrite app_nil_r.
    rewrite split_from_spaces by assumption. rewrite rev_involutive, IH. reflexivity.
Qed.

Lemma sub_class_app (cls : str) (repl : cp) (a b : str) :
  sub_class cls repl (a ++ b) = sub_class cls repl a ++ sub_class cls repl b.
Proof. apply List.map_app. Qed.

Lemma sub_class_join (cls : str) (repl : cp) (sep : str) (ws : list str) :
  sub_class cls repl (join sep ws)
  = join (sub_class cls repl sep) (List.map (sub_class cls repl) ws).
Proof.
  induction ws as [|w ws IH]; [reflexivity|].
  destruct ws as [|w' ws]; [reflexivity|].
  change (join sep (w :: w' :: ws)) with (w ++ sep ++ join sep (w' :: ws)).
  rewrite !sub_class_app, IH. reflexivity.
Qed.

Lemma sub_class_id (cls : str) (repl : cp) (w : str) :
  Forall (fun c => existsb (N.eqb c) cls = false) w -> sub_class cls repl w = w.
Proof.
  unfold sub_class. induction 1 as [|c w Hc _ IH]; [reflexivity|].
  cbn [List.map]. rewrite Hc, IH. reflexivity.
Qed.

Lemma split_from_chars (P : cp -> Prop) (s : str) :
  Forall P s -> forall cur, Forall P cur -> Forall (Forall P) (split_from cur s).
Proof.
  induction 1 as [|c s Hc _ IH]; intros cur Hcur; cbn [split_from].
  - destruct cur; constructor; [apply List.Forall_rev, Hcur | constructor].
  - destruct (isspace c).
    + destruct cur; [apply IH; constructor|].
      constructor; [apply List.Forall_rev, Hcur | apply IH; constructor].
    + apply IH. constructor; assumption.
Qed.

(** The words of a sanitized query contain none of the special
    characters. *)
Lemma sanitized_words_plain (query : str) :
  Forall (Forall (fun c => special c = false))
         (split (sub_class (lit "<>()&|!") sp query)).
Proof.
  apply split_from_chars; [|constructor].
  apply sub_class_removes. reflexivity.
Qed.

(** X13. [sanitize_search_query] is idempotent: sanitizing a sanitized
    query gives it back. *)
Theorem sanitize_search_query_idempotent :
  forall query : str,
    Search.sanitize_search_query (Search.sanitize_search_query query)
    = Search.sanitize_search_query query.
Proof.
  intros query. rewrite !sanitize_search_query_spec.
  set (ws := split (sub_class (lit "<>()&|!") sp query)).
  pose proof (sanitized_words_plain query) as Hplain. fold ws in Hplain.
  pose proof (split_words (sub_class (lit "<>()&|!") sp query)) as Hwords. fold ws in Hwords.
  rewrite sub_class_join.
  assert (Hmap : List.map (sub_class (lit "<>()&|!") sp) ws = ws).
  { clear Hwords. induction Hplain as [|w ws Hw _ IH]; [reflexivity|].
    cbn [List.map]. rewrite IH, (sub_class_id _ _ w Hw). reflexivity. }
  rewrite Hmap, split_join; [reflexivity| |discriminate|exact Hwords].
  repeat constructor.
Qed.

(** X14. [sanitize_search_query] returns the empty string exactly when
    every character of the query is white space or one of the characters it
    replaces. *)
Theorem sanitize_empty_iff_nothing_to_search :
  forall query : str,
    Search.sanitize_search_query query = []
    <-> Forall (fun c => special c = true \/ isspace c = true) query.
Proof.
  intros query. rewrite sanitize_empty_iff.
  assert (Hsplit : forall s, split s = [] <-> Forall (fun c => isspace c = true) s).
  { intros s. unfold split. split.
    - assert (H : forall cur, split_from cur s = [] ->
                    cur = [] /\ Forall (fun c => isspace c = true) s).
      { induction s as [|c s IH]; intros cur Hc; cbn [split_from] in Hc.
        - destruct cur; [split; [reflexivity | constructor] | discriminate].
        - destruct (isspace c) eqn:E.
          + destruct cur; [|discriminate]. destruct (IH [] Hc) as [_ Hs].
            split; [reflexivity | constructor; assumption].
          + destruct (IH _ Hc) as [Hcur _]. discriminate. }
      intros Hs. apply (H [] Hs).
    - induction 1 as [|c s Hc _ IH]; [reflexivity|]. cbn [split_from]. rewrite Hc. exact IH. }
  rewrite Hsplit. unfold sub_class. rewrite List.Forall_map.
  split; apply List.Forall_impl; intros c; fold (special c).
  - destruct (special c); [auto|]. intros Hc. right. exact Hc.
  - intros [Hs|Hc]; [rewrite Hs; reflexivity|].
    destruct (special c); [reflexivity | exact Hc].
Qed.

(** ** More on the search handler *)

Section HandlerMore.
Context {rt : Runtime} {ts : Search.TextSearch}.

Ltac run_search :=
  unfold Search.search_content, Search.search_body, Search.get_search_facets,
    Search.record_search, Search.parse, Search.get_db_connection, Search.finally,
    Search.bind, Search.call, Search.ret, Search.raise.


(** What a successful search returns besides the facets. *)
Lemma search_sent_page (db : Search.database) (request : Search.SearchRequest)
    (user : option str) (tr : list Search.event) (r : Search.SearchResponse) :
  Search.search_content db request user = (tr, Search.Sent r) ->
  exists q,
    Search.to_tsquery (Search.sanitize_search_query (Search.query request)) = Some q
    /\ (length (Search.results r) <= Z.to_nat (Search.per_page request))%nat
    /\ Search.total_pages r
       = (Search.total_results r + Search.per_page request - 1) / Search.per_page request
    /\ Search.total_results r = Z.of_nat (length (Search.base_rows db q request user))
    /\ Search.resp_page r = Search.page request
    /\ Search.resp_per_page r = Search.per_page request.
Proof.
  run_search.
  destruct (Search.online db); [|discriminate].
  destruct (Search.sanitize_search_query (Search.query request)) as [|c s] eqn:Hq;
    [discriminate|].
  destruct (Search.to_tsquery (c :: s)) as [q|]; [|discriminate].
  destruct user as [u|]; cbn; intros H; injection H as _ <-; cbn;
    exists q; (split; [reflexivity|]);
    (split; [rewrite length_map, length_take; lia|]);
    repeat split; reflexivity.
Qed.

End HandlerMore.




(** X17. For [per_page >= 1], a response holds at most [per_page] results,
    and [total_pages] is the least number of pages of [per_page] results
    that hold [total_results]; it is 0 exactly when nothing matches. *)
Theorem search_pagination_bounds :
  forall (rt : Runtime) (ts : Search.TextSearch) (db : Search.database)
         (request : Search.SearchRequest) (user : option str)
         (tr : list Search.event) (r : Search.SearchResponse),
    Search.search_content db request user = (tr, Search.Sent r) ->
    1 <= Search.per_page request ->
    (length (Search.results r) <= Z.to_nat (Search.per_page request))%nat
    /\ 0 <= Search.total_results r
    /\ Search.total_results r <= Search.total_pages r * Search.per_page request
    /\ Search.total_pages r * Search.per_page request
       < Search.total_results r + Search.per_page request
    /\ (Search.total_pages r = 0 <-> Search.total_results r = 0).
Proof.
  intros rt ts db request user tr r Hsent Hpp.
  destruct (search_sent_page db request user tr r Hsent)
    as (q & _ & Hlen & Hpages & Htot & _ & _).
  split; [exact Hlen|].
  assert (H0 : 0 <= Search.total_results r) by (rewrite Htot; lia).
  split; [exact H0|].
  set (t := Search.total_results r) in *. set (p := Search.per_page request) in *.
  pose proof (Z.div_mod (t + p - 1) p ltac:(lia)) as Hdm.
  pose proof (Z.mod_pos_bound (t + p - 1) p ltac:(lia)) as Hmod.
  rewrite Hpages. split; [nia|]. split; [nia|]. split.
  - intros Hz. nia.
  - intros ->. apply Z.div_small. lia.
Qed.

Lemma search_pagination_witness :
  exists tr r,
    Search.search_content (rt := latin1) (ts := word_search)
      example_db (example_request "IBS" None) None = (tr, Search.Sent r)
    /\ 1 <= Search.per_page (example_request "IBS" None)
    /\ (length (Search.results r)
        <= Z.to_nat (Search.per_page (example_request "IBS" None)))%nat
    /\ 0 <= Search.total_results r
    /\ Search.total_results r
       <= Search.total_pages r * Search.per_page (example_request "IBS" None)
    /\ Search.total_pages r * Search.per_page (example_request "IBS" None)
       < Search.total_results r + Search.per_page (example_request "IBS" None)
    /\ (Search.total_pages r = 0 <-> Search.total_results r = 0).
Proof.
  assert (Hrun : exists tr r,
             Search.search_content (rt := latin1) (ts := word_search)
               example_db (example_request "IBS" None) None
             = (tr, Search.Sent r))
    by (eexists _, _; vm_compute; reflexivity).
  destruct Hrun as (tr & r & Hrun).
  assert (Hpp : 1 <= Search.per_page (example_request "IBS" None)) by (simpl; lia).
  exists tr, r. split; [exact Hrun|]. split; [exact Hpp|].
  exact (search_pagination_bounds latin1 word_search example_db
           (example_request "IBS" None) None tr r Hrun Hpp).
Defined.

(** ** The entries of a facet *)

Section CountBy.
Context {K : Type} (eqb : K -> K -> bool).
Hypothesis eqb_eq : forall a b, eqb a b = true <-> a = b.

Lemma eqb_neq (a b : K) : a <> b -> eqb a b = false.
Proof.
  intros H. destruct (eqb a b) eqn:E; [|reflexivity].
  apply eqb_eq in E. contradiction.
Qed.

Lemma eqb_same (a : K) : eqb a a = true.
Proof. apply eqb_eq. reflexivity. Qed.

Lemma bump_keys (k : K) (g : list (K * Z)) (k' : K) :
  In k' (List.map fst (Search.bump eqb k g)) <-> k' = k \/ In k' (List.map fst g).
Proof.
  induction g as [|[k0 n0] g IH]; simpl.
  - intuition.
  - destruct (eqb k0 k) eqn:E; simpl.
    + apply eqb_eq in E. subst k0. intuition.
    + rewrite IH. intuition.
Qed.

Lemma bump_nodup (k : K) (g : list (K * Z)) :
  List.NoDup (List.map fst g) -> List.NoDup (List.map fst (Search.bump eqb k g)).
Proof.
  induction g as [|[k0 n0] g IH]; simpl; intros Hnd.
  - constructor; [intros []|constructor].
  - inversion Hnd as [|? ? Hnotin Hnd']; subst.
    destruct (eqb k0 k) eqn:E; simpl.
    + constructor; assumption.
    + constructor; [|apply IH, Hnd'].
      rewrite bump_keys. intros [->|Hin]; [|contradiction].
      rewrite eqb_same in E. discriminate.
Qed.

Lemma bump_other (k : K) (g : list (K * Z)) (k' : K) (n : Z) :
  k' <> k -> In (k', n) (Search.bump eqb k g) <-> In (k', n) g.
Proof.
  intros Hne. induction g as [|[k0 n0] g IH]; simpl.
  - split; [intros [H|[]]; congruence | intros []].
  - destruct (eqb k0 k) eqn:E; simpl.
    + apply eqb_eq in E. subst k0.
      split; (intros [H|H]; [congruence | right; exact H]).
    + rewrite IH. reflexivity.
Qed.

Lemma bump_new (k : K) (g : list (K * Z)) (n : Z) :
  ~ In k (List.map fst g) -> In (k, n) (Search.bump eqb k g) <-> n = 1.
Proof.
  induction g as [|[k0 n0] g IH]; simpl; intros Hnotin.
  - split; [intros [H|[]]; congruence | intros ->; left; reflexivity].
  - rewrite eqb_neq by tauto. simpl. rewrite IH by tauto.
    split; [intros [H|H]; [|exact H] | intros H; right; exact H].
    exfalso. apply Hnotin. left. congruence.
Qed.

Lemma bump_old (k : K) (g : list (K * Z)) (m n : Z) :
  List.NoDup (List.map fst g) -> In (k, m) g ->
  In (k, n) (Search.bump eqb k g) <-> n = m + 1.
Proof.
  induction g as [|[k0 n0] g IH]; simpl; intros Hnd Hin; [contradiction|].
  inversion Hnd as [|? ? Hnotin Hnd']; subst.
  destruct Hin as [Heq|Hin].
  - injection Heq as -> ->. rewrite eqb_same. simpl.
    split; [intros [H|H]; [congruence|] | intros ->; left; reflexivity].
    exfalso. apply Hnotin. apply (in_map fst) in H. exact H.
  - assert (Hne : k0 <> k).
    { intros ->. apply Hnotin. apply (in_map fst) in Hin. exact Hin. }
    rewrite (eqb_neq _ _ Hne). simpl. rewrite (IH Hnd' Hin).
    split; [intros [H|H]; [congruence | exact H] | intros H; right; exact H].
Qed.

Lemma occurrences_nonneg (k : K) (ks : list K) : 0 <= occurrences eqb k ks.
Proof. unfold occurrences. lia. Qed.

Lemma occurrences_snoc (k' k : K) (ks : list K) :
  occurrences eqb k' (ks ++ [k])
  = occurrences eqb k' ks + (if eqb k' k then 1 else 0).
Proof.
  unfold occurrences. rewrite List.filter_app, length_app. simpl.
  destruct (eqb k' k); simpl; lia.
Qed.

Lemma group_count_snoc (ks : list K) (k : K) :
  Search.group_count eqb (ks ++ [k]) = Search.bump eqb k (Search.group_count eqb ks).
Proof. unfold Search.group_count. rewrite fold_left_app. reflexivity. Qed.

(** [GROUP BY]: one row for each key that occurs, with the number of its
    occurrences. *)
Lemma group_count_spec (ks : list K) :
  List.NoDup (List.map fst (Search.group_count eqb ks))
  /\ forall k n, In (k, n) (Search.group_count eqb ks)
                 <-> 0 < n /\ n = occurrences eqb k ks.
Proof.
  induction ks as [|k ks [Hnd IH]] using rev_ind.
  - split; [constructor|]. intros k n. unfold occurrences. cbn.
    split; [intros [] | lia].
  - rewrite group_count_snoc. split; [apply bump_nodup, Hnd|].
    intros k' n. rewrite occurrences_snoc.
    destruct (eqb k' k) eqn:E.
    + apply eqb_eq in E. subst k'.
      pose proof (occurrences_nonneg k ks) as Hocc.
      destruct (Z.eq_dec (occurrences eqb k ks) 0) as [H0|H0].
      * rewrite bump_new; [lia|].
        intros Hin. apply in_map_iff in Hin as [[k0 m] [Hk Hin]]. simpl in Hk. subst k0.
        apply IH in Hin. lia.
      * rewrite (bump_old k _ (occurrences eqb k ks) n Hnd); [lia|].
        apply IH. lia.
    + rewrite bump_other by (intros ->; rewrite eqb_same in E; discriminate).
      rewrite IH. lia.
Qed.

(** [GROUP BY ... ORDER BY count DESC] *)
Lemma count_by_spec (ks : list K) :
  List.NoDup (List.map fst (Search.count_by eqb ks))
  /\ StronglySorted (fun a b => snd b <= snd a) (Search.count_by eqb ks)
  /\ forall k n, In (k, n) (Search.count_by eqb ks)
                 <-> 0 < n /\ n = occurrences eqb k ks.
Proof.
  destruct (group_count_spec ks) as [Hnd Hin]. unfold Search.count_by.
  pose proof (sort_desc_perm snd (Search.group_count eqb ks)) as Hperm.
  split; [|split].
  - apply (Permutation_NoDup (l := List.map fst (Search.group_count eqb ks)));
      [apply Permutation_map; symmetry; exact Hperm | exact Hnd].
  - apply sort_desc_sorted.
  - intros k n. rewrite <- Hin.
    split; apply Permutation_in; [exact Hperm | symmetry; exact Hperm].
Qed.

End CountBy.

Lemma str_eqb_eq (a b : str) : Search.str_eqb a b = true <-> a = b.
Proof. unfold Search.str_eqb. destruct (decide (a = b)); split; congruence. Qed.

Lemma opt_str_eqb_eq (a b : option str) : Search.opt_str_eqb a b = true <-> a = b.
Proof. unfold Search.opt_str_eqb. destruct (decide (a = b)); split; congruence. Qed.

(** X18. The category and priority facets list each value that occurs
    among the items matching the text exactly once, with the number of
    those items, which is positive, and by decreasing count. *)
Theorem facets_list_each_value_once :
  forall (rt : Runtime) (ts : Search.TextSearch) (db : Search.database)
         (request : Search.SearchRequest) (user : option str)
         (tr : list Search.event) (r : Search.SearchResponse),
    Search.search_content db request user = (tr, Search.Sent r) ->
    exists q,
      Search.to_tsquery (Search.sanitize_search_query (Search.query request)) = Some q
      /\ (let facet := Search.facet_categories (Search.facets r) in
          List.NoDup (List.map fst facet)
          /\ StronglySorted (fun a b => snd b <= snd a) facet
          /\ forall c n,
               In (c, n) facet
               <-> 0 < n
                   /\ n = occurrences Search.str_eqb c
                            (List.map Search.category (matching_items db q)))
      /\ (let facet := Search.facet_priorities (Search.facets r) in
          List.NoDup (List.map fst facet)
          /\ StronglySorted (fun a b => snd b <= snd a) facet
          /\ forall p n,
               In (p, n) facet
               <-> 0 < n
                   /\ n = occurrences Search.str_eqb p
                            (List.map Search.priority (matching_items db q))).
Proof.
  intros rt ts db request user tr r Hsent.
  destruct (search_sent db request user tr r Hsent) as (q & Hq & _ & Hc & _ & Hp).
  exists q. split; [exact Hq|]. cbv zeta. rewrite Hc, Hp.
  split; apply (count_by_spec Search.str_eqb str_eqb_eq).
Qed.

Lemma facets_list_each_value_once_witness :
  exists tr r,
    Search.search_content (rt := latin1) (ts := word_search)
      example_db (example_request "IBS" None) None = (tr, Search.Sent r)
    /\ exists q,
      Search.to_tsquery (TextSearch := word_search)
        (Search.sanitize_search_query (Search.query (example_request "IBS" None))) = Some q
      /\ (let facet := Search.facet_categories (Search.facets r) in
          List.NoDup (List.map fst facet)
          /\ StronglySorted (fun a b => snd b <= snd a) facet
          /\ forall c n,
               In (c, n) facet
               <-> 0 < n
                   /\ n = occurrences Search.str_eqb c
                            (List.map Search.category
                               (matching_items (ts := word_search) example_db q)))
      /\ (let facet := Search.facet_priorities (Search.facets r) in
          List.NoDup (List.map fst facet)
          /\ StronglySorted (fun a b => snd b <= snd a) facet
          /\ forall p n,
               In (p, n) facet
               <-> 0 < n
                   /\ n = occurrences Search.str_eqb p
                            (List.map Search.priority
                               (matching_items (ts := word_search) example_db q))).
Proof.
  assert (Hrun : exists tr r,
             Search.search_content (rt := latin1) (ts := word_search)
               example_db (example_request "IBS" None) None
             = (tr, Search.Sent r))
    by (eexists _, _; vm_compute; reflexivity).
  destruct Hrun as (tr & r & Hrun).
  exists tr, r. split; [exact Hrun|].
  exact (facets_list_each_value_once latin1 word_search example_db
           (example_request "IBS" None) None tr r Hrun).
Defined.

(** ** Filters *)

Lemma length_filter_le {A} (p p' : A -> bool) (l : list A) :
  (forall x, p x = true -> p' x = true) ->
  (length (List.filter p l) <= length (List.filter p' l))%nat.
Proof.
  intros Hp. induction l as [|x l IH]; simpl; [lia|].
  destruct (p x) eqn:E.
  - rewrite (Hp x E). simpl. lia.
  - destruct (p' x); simpl; lia.
Qed.

Lemma In_take {A} (x : A) (n : nat) (l : list A) : In x (take n l) -> In x l.
Proof.
  revert l. induction n as [|n IH]; intros [|y l]; simpl; try tauto.
  intros [H|H]; [left; exact H | right; apply IH, H].
Qed.

Lemma In_drop {A} (x : A) (n : nat) (l : list A) : In x (drop n l) -> In x l.
Proof.
  revert l. induction n as [|n IH]; intros [|y l]; simpl; try tauto.
  intros H. right. apply IH, H.
Qed.

Lemma mem_Z_In (x : Z) (l : list Z) : Search.mem_Z x l = true -> In x l.
Proof.
  unfold Search.mem_Z. intros H. apply existsb_exists in H as (y & Hy & E).
  apply Z.eqb_eq in E. subst y. exact Hy.
Qed.

Lemma mem_str_In (x : str) (l : list str) : Search.mem_str x l = true <-> In x l.
Proof.
  unfold Search.mem_str. rewrite existsb_exists. split.
  - intros (y & Hy & E). destruct (decide (x = y)); [subst y; exact Hy | discriminate].
  - intros H. exists x. split; [exact H|]. destruct (decide (x = x)); congruence.
Qed.

Lemma overlap_spec (a b : list str) :
  Search.overlap a b = true <-> exists x, In x a /\ In x b.
Proof.
  unfold Search.overlap. rewrite existsb_exists.
  split; intros (x & Ha & Hb); exists x; (split; [exact Ha|]); apply mem_str_In, Hb.
Qed.

Section Filters.
Context {rt : Runtime} {ts : Search.TextSearch}.

Ltac run_search' :=
  unfold Search.search_content, Search.search_body, Search.get_search_facets,
    Search.record_search, Search.parse, Search.get_db_connection, Search.finally,
    Search.bind, Search.call, Search.ret, Search.raise.

Lemma search_sent_results (db : Search.database) (request : Search.SearchRequest)
    (user : option str) (tr : list Search.event) (r : Search.SearchResponse) :
  Search.search_content db request user = (tr, Search.Sent r) ->
  exists q,
    Search.to_tsquery (Search.sanitize_search_query (Search.query request)) = Some q
    /\ forall res, In res (Search.results r) ->
         exists col dir row,
           In row (Search.order_by q col dir (Search.base_rows db q request user))
           /\ res = Search.to_result q row.
Proof.
  run_search'.
  destruct (Search.online db); [|discriminate].
  destruct (Search.sanitize_search_query (Search.query request)) as [|c s] eqn:Hq;
    [discriminate|].
  destruct (Search.to_tsquery (c :: s)) as [q|]; [|discriminate].
  destruct user as [u|]; cbn; intros H; injection H as _ <-; cbn;
    exists q; (split; [reflexivity|]); intros res Hres;
    apply in_map_iff in Hres as (row & <- & Hrow);
    apply In_take, In_drop in Hrow; eauto.
Qed.

Lemma base_rows_satisfy (db : Search.database) (q : Search.tsquery)
    (request : Search.SearchRequest) (user : option str)
    (fi : Search.feed_item) (rs : option Search.rss_source)
    (ub : option Search.user_bookmark) :
  In (fi, rs, ub) (Search.base_rows db q request user) ->
  In fi (Search.rss_feed_items db)
  /\ Search.ts_match (Search.document fi) q = true
  /\ forall f, Search.filters request = Some f ->
       satisfies f user fi (match ub with Some _ => true | None => false end).
Proof.
  unfold Search.base_rows. cbv zeta. intros Hin.
  apply filter_In in Hin as [Hjoin Hrow]. apply andb_true_iff in Hrow as [Hmatch Hconds].
  split.
  { unfold Search.left_join in Hjoin.
    apply in_flat_map in Hjoin as ([fi' rs'] & Hin1 & Hin2).
    assert (fi' = fi) as ->.
    { destruct (List.filter _ (Search.user_bookmarks db)) as [|b bs].
      - destruct Hin2 as [H|[]]. congruence.
      - apply in_map_iff in Hin2 as (b' & H & _). congruence. }
    apply in_flat_map in Hin1 as (fi'' & Hin0 & Hin1).
    assert (fi'' = fi) as ->.
    { destruct (List.filter _ (Search.rss_sources db)) as [|b bs].
      - destruct Hin1 as [H|[]]. congruence.
      - apply in_map_iff in Hin1 as (b' & H & _). congruence. }
    exact Hin0. }
  split; [exact Hmatch|].
  intros f Hf. unfold Search.filter_conditions in Hconds. rewrite Hf in Hconds.
  repeat rewrite forallb_app in Hconds.
  repeat (apply andb_true_iff in Hconds as [?H Hconds]).
  unfold satisfies. repeat split.
  - intros d Hd. rewrite Hd in H. cbn in H.
    destruct (Search.pub_date fi) as [p|]; [|discriminate].
    exists p. split; [reflexivity|]. rewrite andb_true_r in H. lia.
  - intros d Hd. rewrite Hd in H0. cbn in H0.
    destruct (Search.pub_date fi) as [p|]; [|discriminate].
    exists p. split; [reflexivity|]. rewrite andb_true_r in H0. lia.
  - intros i ids Hd. rewrite Hd in H1. cbn [Search.given forallb] in H1.
    rewrite andb_true_r in H1. apply mem_Z_In, H1.
  - intros c cs Hd. rewrite Hd in H2. cbn [Search.given forallb] in H2.
    rewrite andb_true_r in H2. apply mem_str_In, H2.
  - intros p ps Hd. rewrite Hd in H3. cbn [Search.given forallb] in H3.
    rewrite andb_true_r in H3. apply mem_str_In, H3.
  - intros m Hd. rewrite Hd in H4. cbn in H4. rewrite andb_true_r in H4. lia.
  - intros k ks Hd. rewrite Hd in H5. cbn [Search.given forallb] in H5.
    rewrite andb_true_r in H5.
    destruct (Search.keywords fi) as [a|]; [|discriminate].
    apply overlap_spec in H5 as (x & Ha & Hx). exists a, x. auto.
  - intros k ks Hd. rewrite Hd in H6. cbn [Search.given forallb] in H6.
    rewrite andb_true_r in H6.
    destruct (Search.keywords fi) as [a|]; [|discriminate].
    exists a. split; [reflexivity|]. intros x Ha Hx.
    apply negb_true_iff in H6.
    assert (Search.overlap a (k :: ks) = true) by (apply overlap_spec; eauto).
    congruence.
  - intros Hb Hu. rewrite Hb in Hconds. destruct user as [u|]; [|congruence].
    cbn in Hconds. rewrite andb_true_r in Hconds. exact Hconds.
Qed.

End Filters.

(** X19. When the server's [ORDER BY] only reorders rows, every result of
    a response is a stored item that matches the text and satisfies each
    filter of the request; an empty list filter is no filter, and an item
    without publication date or keywords fails the filters on them. *)
Theorem results_satisfy_the_filters :
  forall (rt : Runtime) (ts : Search.TextSearch) (db : Search.database)
         (request : Search.SearchRequest) (user : option str)
         (tr : list Search.event) (r : Search.SearchResponse),
    (forall q col dir rows, Permutation (Search.order_by q col dir rows) rows) ->
    Search.search_content db request user = (tr, Search.Sent r) ->
    exists q,
      Search.to_tsquery (Search.sanitize_search_query (Search.query request)) = Some q
      /\ forall res, In res (Search.results r) ->
           In (Search.row res) (Search.rss_feed_items db)
           /\ Search.ts_match (Search.document (Search.row res)) q = true
           /\ forall f, Search.filters request = Some f ->
                satisfies f user (Search.row res) (Search.is_bookmarked res).
Proof.
  intros rt ts db request user tr r Hord Hsent.
  destruct (search_sent_results db request user tr r Hsent) as (q & Hq & Hres).
  exists q. split; [exact Hq|]. intros res Hin.
  destruct (Hres res Hin) as (col & dir & [[fi rs] ub] & Hrow & ->).
  apply (Permutation_in _ (Hord _ _ _ _)) in Hrow.
  exact (base_rows_satisfy db q request user fi rs ub Hrow).
Qed.

Lemma results_satisfy_the_filters_witness :
  exists tr r,
    Search.search_content (rt := latin1) (ts := word_search)
      example_db (example_request "IBS" (Some only_high_priority)) (Some (lit "u1"))
    = (tr, Search.Sent r)
    /\ Search.results r <> []
    /\ exists q,
      Search.to_tsquery (TextSearch := word_search)
        (Search.sanitize_search_query
           (Search.query (example_request "IBS" (Some only_high_priority)))) = Some q
      /\ forall res, In res (Search.results r) ->
           In (Search.row res) (Search.rss_feed_items example_db)
           /\ Search.ts_match (TextSearch := word_search)
                (Search.document (Search.row res)) q = true
           /\ forall f,
                Search.filters (example_request "IBS" (Some only_high_priority)) = Some f ->
                satisfies f (Some (lit "u1")) (Search.row res) (Search.is_bookmarked res).
Proof.
  assert (Hrun : exists tr r,
             Search.search_content (rt := latin1) (ts := word_search)
               example_db (example_request "IBS" (Some only_high_priority))
               (Some (lit "u1"))
             = (tr, Search.Sent r) /\ Search.results r <> [])
    by (eexists _, _; split; [vm_compute; reflexivity | discriminate]).
  destruct Hrun as (tr & r & Hrun & Hne).
  exists tr, r. split; [exact Hrun|]. split; [exact Hne|].
  exact (results_satisfy_the_filters latin1 word_search example_db
           (example_request "IBS" (Some only_high_priority)) (Some (lit "u1")) tr r
           (fun _ _ _ rows => Permutation_refl rows) Hrun).
Defined.

(** X20. With unique source ids and bookmarks, [total_results] is at most
    the total of each facet and the number of stored items: filters only
    remove results. *)
Theorem filters_only_narrow :
  forall (rt : Runtime) (ts : Search.TextSearch) (db : Search.database)
         (request : Search.SearchRequest) (user : option str)
         (tr : list Search.event) (r : Search.SearchResponse),
    Search.search_content db request user = (tr, Search.Sent r) ->
    List.NoDup (List.map Search.rs_id (Search.rss_sources db)) ->
    List.NoDup (List.map (fun ub => (Search.ub_feed_item_id ub, Search.ub_user_id ub))
                  (Search.user_bookmarks db)) ->
    0 <= Search.total_results r
    /\ Search.total_results r <= facet_total (Search.facet_categories (Search.facets r))
    /\ Search.total_results r <= facet_total (Search.facet_sources (Search.facets r))
    /\ Search.total_results r <= facet_total (Search.facet_priorities (Search.facets r))
    /\ Search.total_results r <= Z.of_nat (length (Search.rss_feed_items db)).
Proof.
  intros rt ts db request user tr r Hsent Hsrc Hbm.
  destruct (search_sent db request user tr r Hsent) as (q & Hq & Htot & Hc & Hs & Hp).
  assert (Hjoin : List.map fst
            (Search.left_join (fun fi rs => Search.source_id fi =? Search.rs_id rs)
               (Search.rss_feed_items db) (Search.rss_sources db))
          = Search.rss_feed_items db).
  { apply left_join_fst. intros fi _.
    apply (filter_unique_key Search.rs_id _ (Search.source_id fi)); [exact Hsrc|].
    intros rs Hrs. apply Z.eqb_eq in Hrs. symmetry. exact Hrs. }
  assert (Hle : Search.total_results r <= Z.of_nat (length (matching_items db q))).
  { rewrite Htot. unfold Search.base_rows. cbv zeta.
    apply inj_le.
    etransitivity;
      [apply (length_filter_le _
                (fun row => Search.ts_match (Search.document (fst (fst row))) q));
       intros [[fi rs] ub] H; apply andb_true_iff in H as [H _]; exact H|].
    rewrite (length_filter_fst
               (fun row => Search.ts_match (Search.document (fst row)) q))
      by (intros [[fi rs] ub]; reflexivity).
    rewrite left_join_fst.
    - rewrite (length_filter_fst (fun fi => Search.ts_match (Search.document fi) q))
        by reflexivity.
      rewrite Hjoin. reflexivity.
    - intros [fi rs] _.
      apply (filter_unique_key
               (fun ub => (Search.ub_feed_item_id ub, Search.ub_user_id ub)) _
               (Search.id fi, default [] user)); [exact Hbm|].
      intros ub Hub. apply andb_true_iff in Hub as [Hid Hu].
      apply Z.eqb_eq in Hid. unfold Search.str_eqb in Hu.
      destruct (decide (Search.ub_user_id ub = default [] user)) as [->|]; [|discriminate].
      rewrite Hid. reflexivity. }
  split; [rewrite Htot; lia|].
  split; [rewrite Hc, facet_total_count_by, length_map; exact Hle|].
  split.
  { rewrite Hs, facet_total_count_by, length_map.
    rewrite (length_filter_fst (fun fi => Search.ts_match (Search.document fi) q))
      by (intros [fi rs]; reflexivity).
    rewrite Hjoin. exact Hle. }
  split; [rewrite Hp, facet_total_count_by, length_map; exact Hle|].
  etransitivity; [exact Hle|]. unfold matching_items.
  apply inj_le, List.filter_length_le.
Qed.

Lemma filters_only_narrow_witness :
  exists tr r,
    Search.search_content (rt := latin1) (ts := word_search)
      example_db (example_request "IBS" (Some only_high_priority)) (Some (lit "u1"))
    = (tr, Search.Sent r)
    /\ 0 <= Search.total_results r
    /\ Search.total_results r <= facet_total (Search.facet_categories (Search.facets r))
    /\ Search.total_results r <= facet_total (Search.facet_sources (Search.facets r))
    /\ Search.total_results r <= facet_total (Search.facet_priorities (Search.facets r))
    /\ Search.total_results r <= Z.of_nat (length (Search.rss_feed_items example_db)).
Proof.
  assert (Hrun : exists tr r,
             Search.search_content (rt := latin1) (ts := word_search)
               example_db (example_request "IBS" (Some only_high_priority))
               (Some (lit "u1"))
             = (tr, Search.Sent r))
    by (eexists _, _; vm_compute; reflexivity).
  destruct Hrun as (tr & r & Hrun).
  exists tr, r. split; [exact Hrun|].
  apply (filters_only_narrow latin1 word_search example_db
           (example_request "IBS" (Some only_high_priority)) (Some (lit "u1")) tr r Hrun).
  - repeat constructor; simpl; tauto.
  - repeat constructor; simpl; tauto.
Defined.

(** ** Patterns *)

Section Patterns.
Import Re.

Lemma matches_Void (s : str) : ~ matches Void s.
Proof. intros H. inversion H. Qed.

Lemma matches_Eps_iff (s : str) : matches Eps s <-> s = [].
Proof. split; [intros H; inversion H; reflexivity | intros ->; constructor]. Qed.

Lemma matches_Cls_iff (p : cp -> bool) (s : str) :
  matches (Cls p) s <-> exists c, s = [c] /\ p c = true.
Proof.
  split.
  - intros H. inversion H; subst. eauto.
  - intros (c & -> & H). constructor. exact H.
Qed.

Lemma matches_Seq_iff (r1 r2 : re) (s : str) :
  matches (Seq r1 r2) s <-> exists s1 s2, s = s1 ++ s2 /\ matches r1 s1 /\ matches r2 s2.
Proof.
  split.
  - intros H. inversion H; subst. eauto.
  - intros (s1 & s2 & -> & H1 & H2). constructor; assumption.
Qed.

Lemma matches_Alt_iff (r1 r2 : re) (s : str) :
  matches (Alt r1 r2) s <-> matches r1 s \/ matches r2 s.
Proof.
  split.
  - intros H. inversion H; subst; auto.
  - intros [H|H]; [apply matches_Alt_l | apply matches_Alt_r]; exact H.
Qed.

Lemma nullable_matches (r : re) : nullable r = true <-> matches r [].
Proof.
  induction r as [| |p|r1 IH1 r2 IH2|r1 IH1 r2 IH2|r IH]; simpl.
  - split; [discriminate | intros H; destruct (matches_Void _ H)].
  - rewrite matches_Eps_iff. tauto.
  - rewrite matches_Cls_iff. split; [discriminate | intros (c & H & _); discriminate].
  - rewrite andb_true_iff, IH1, IH2, matches_Seq_iff. split.
    + intros [H1 H2]. exists [], []. auto.
    + intros (s1 & s2 & E & H1 & H2). symmetry in E.
      apply app_eq_nil in E as [-> ->]. split; assumption.
  - rewrite orb_true_iff, IH1, IH2, matches_Alt_iff. reflexivity.
  - split; [constructor | reflexivity].
Qed.

Lemma matches_Star_cons (r : re) (c : cp) (s : str) :
  matches (Star r) (c :: s) ->
  exists s1 s2, s = s1 ++ s2 /\ matches r (c :: s1) /\ matches (Star r) s2.
Proof.
  intros H. remember (Star r) as r' eqn:Er. remember (c :: s) as s' eqn:Es.
  revert s Es. induction H as [| | | | | |r0 s1 s2 H1 _ H2 IH2]; intros t Es;
    try discriminate.
  injection Er as ->. destruct s1 as [|c1 s1].
  - simpl in Es. apply IH2; [reflexivity | exact Es].
  - injection Es as -> <-. exists s1, s2. split; [reflexivity|]. split; assumption.
Qed.

Lemma deriv_matches (c : cp) (r : re) (s : str) :
  matches (deriv c r) s <-> matches r (c :: s).
Proof.
  revert s. induction r as [| |p|r1 IH1 r2 IH2|r1 IH1 r2 IH2|r IH]; intros s; simpl.
  - split; intros H; destruct (matches_Void _ H).
  - rewrite matches_Eps_iff. split; [intros H; destruct (matches_Void _ H) | discriminate].
  - rewrite matches_Cls_iff. destruct (p c) eqn:E.
    + rewrite matches_Eps_iff. split.
      * intros ->. eauto.
      * intros (c' & H & _). injection H as _ ->. reflexivity.
    + split; [intros H; destruct (matches_Void _ H)|].
      intros (c' & H & Hp). injection H as -> _. congruence.
  - assert (Hl : matches (Seq (deriv c r1) r2) s
                 <-> exists s1 s2, s = s1 ++ s2 /\ matches r1 (c :: s1) /\ matches r2 s2).
    { rewrite matches_Seq_iff. split; intros (s1 & s2 & E & H1 & H2);
        exists s1, s2; (split; [exact E|]); (split; [apply IH1, H1 | exact H2]). }
    rewrite (matches_Seq_iff r1 r2). split.
    + intros H. destruct (nullable r1) eqn:En.
      * apply matches_Alt_iff in H as [H|H].
        -- apply Hl in H as (s1 & s2 & -> & H1 & H2). exists (c :: s1), s2. auto.
        -- apply IH2 in H. apply nullable_matches in En. exists [], (c :: s). auto.
      * apply Hl in H as (s1 & s2 & -> & H1 & H2). exists (c :: s1), s2. auto.
    + intros (s1 & s2 & E & H1 & H2). destruct s1 as [|c1 s1].
      * simpl in E. subst s2. apply nullable_matches in H1. rewrite H1.
        apply matches_Alt_r, IH2, H2.
      * injection E as <- ->.
        assert (H : matches (Seq (deriv c r1) r2) (s1 ++ s2)) by (apply Hl; eauto).
        destruct (nullable r1); [apply matches_Alt_l|]; exact H.
  - rewrite !matches_Alt_iff, IH1, IH2. reflexivity.
  - rewrite matches_Seq_iff. split.
    + intros (s1 & s2 & -> & H1 & H2).
      apply IH in H1. exact (matches_Star_app _ (c :: s1) s2 H1 H2).
    + intros H. apply matches_Star_cons in H as (s1 & s2 & -> & H1 & H2).
      exists s1, s2. split; [reflexivity|]. split; [apply IH, H1 | exact H2].
Qed.

Lemma fullmatch_matches (r : re) (s : str) : fullmatch r s = true <-> matches r s.
Proof.
  unfold fullmatch. revert r. induction s as [|c s IH]; intros r; simpl.
  - apply nullable_matches.
  - rewrite IH. apply deriv_matches.
Qed.

Lemma matches_Chr_iff (c : cp) (s : str) : matches (Chr c) s <-> s = [c].
Proof.
  unfold Chr. rewrite matches_Cls_iff. split.
  - intros (c' & -> & H). apply N.eqb_eq in H. subst c'. reflexivity.
  - intros ->. exists c. split; [reflexivity | apply N.eqb_refl].
Qed.

Lemma matches_Star_Cls (p : cp -> bool) (s : str) :
  matches (Star (Cls p)) s <-> forallb p s = true.
Proof.
  split.
  - intros H. remember (Star (Cls p)) as r eqn:Er.
    induction H as [| | | | | |r0 s1 s2 H1 _ H2 IH2]; try discriminate; [reflexivity|].
    injection Er as ->. inversion H1; subst. simpl.
    rewrite IH2 by reflexivity. rewrite andb_true_r. assumption.
  - induction s as [|c s IH]; simpl; [constructor|].
    intros H. apply andb_true_iff in H as [Hc Hs].
    apply (matches_Star_app _ [c] s); [constructor; exact Hc | apply IH, Hs].
Qed.

Lemma matches_AtLeast_Cls (n : nat) (p : cp -> bool) (s : str) :
  matches (AtLeast n (Cls p)) s <-> (n <= length s)%nat /\ forallb p s = true.
Proof.
  revert s. induction n as [|n IH]; intros s; simpl.
  - rewrite matches_Star_Cls. split; [intros H; split; [lia | exact H] | tauto].
  - rewrite matches_Seq_iff. split.
    + intros (s1 & s2 & -> & H1 & H2). apply matches_Cls_iff in H1 as (c & -> & Hc).
      apply IH in H2 as [Hlen Hall]. simpl. rewrite Hc, Hall. split; [lia | reflexivity].
    + intros [Hlen Hall]. destruct s as [|c s]; [simpl in Hlen; lia|].
      simpl in Hlen, Hall. apply andb_true_iff in Hall as [Hc Hs].
      exists [c], s. split; [reflexivity|]. split; [constructor; exact Hc|].
      apply IH. split; [lia | exact Hs].
Qed.

Lemma matches_Plus_Cls (p : cp -> bool) (s : str) :
  matches (Plus (Cls p)) s <-> s <> [] /\ forallb p s = true.
Proof.
  change (Plus (Cls p)) with (AtLeast 1 (Cls p)). rewrite matches_AtLeast_Cls.
  destruct s; simpl; split; intros [H1 H2]; split; try assumption;
    try lia; try discriminate; congruence.
Qed.

End Patterns.

(** ** Well-formed addresses and domains *)

Section Shapes.
Import Re EmailAuthorization.

Lemma domain_pattern_matches (s : str) :
  matches domain_pattern s
  <-> exists name tld, s = name ++ [dot] ++ tld /\ domain_shape name tld.
Proof.
  unfold domain_pattern, domain_shape. rewrite matches_Seq_iff. split.
  - intros (s1 & s2 & -> & H1 & H2).
    apply matches_Plus_Cls in H1 as [Hne Hall].
    apply matches_Seq_iff in H2 as (s3 & s4 & -> & H3 & H4).
    apply matches_Chr_iff in H3 as ->. apply matches_AtLeast_Cls in H4 as [Hlen Hl].
    exists s1, s4. auto.
  - intros (name & tld & -> & Hne & Hall & Hlen & Hl).
    exists name, ([dot] ++ tld). split; [reflexivity|].
    split; [apply matches_Plus_Cls; auto|].
    apply matches_Seq_iff. exists [dot], tld. split; [reflexivity|].
    split; [apply matches_Chr_iff; reflexivity | apply matches_AtLeast_Cls; auto].
Qed.

Lemma email_pattern_matches (s : str) :
  matches email_pattern s
  <-> exists local domain,
        s = local ++ [at_sign] ++ domain /\ local_shape local
        /\ matches domain_pattern domain.
Proof.
  unfold email_pattern, local_shape. rewrite matches_Seq_iff. split.
  - intros (s1 & s2 & -> & H1 & H2).
    apply matches_Plus_Cls in H1.
    apply matches_Seq_iff in H2 as (s3 & s4 & -> & H3 & H4).
    apply matches_Chr_iff in H3 as ->. exists s1, s4. auto.
  - intros (local & domain & -> & Hl & Hd).
    exists local, ([at_sign] ++ domain). split; [reflexivity|].
    split; [apply matches_Plus_Cls; exact Hl|].
    apply matches_Seq_iff. exists [at_sign], domain. split; [reflexivity|].
    split; [apply matches_Chr_iff; reflexivity | exact Hd].
Qed.

Lemma before_final_newline_spec (s s' : str) :
  before_final_newline s = Some s' <-> s = s' ++ [newline].
Proof.
  unfold before_final_newline, newline. split.
  - intros H. rewrite <- (rev_involutive s).
    destruct (rev s) as [|c t]; [discriminate|].
    destruct c as [|p]; [discriminate|].
    do 4 (destruct p as [p|p|]; try discriminate).
    injection H as <-. reflexivity.
  - intros ->. rewrite rev_app_distr. simpl. rewrite rev_involutive. reflexivity.
Qed.

Lemma match_anchored_spec (r : re) (s : str) :
  match_anchored r s = true <-> matches r s \/ exists s', s = s' ++ [newline] /\ matches r s'.
Proof.
  unfold match_anchored. rewrite orb_true_iff, fullmatch_matches. split.
  - intros [H|H]; [left; exact H | right].
    destruct (before_final_newline s) as [s'|] eqn:E; [|discriminate].
    apply before_final_newline_spec in E. apply fullmatch_matches in H. eauto.
  - intros [H|(s' & E & H)]; [left; exact H | right].
    apply before_final_newline_spec in E. rewrite E. apply fullmatch_matches, H.
Qed.

End Shapes.

(** ** Addresses and their domains *)

Section Domains.
Import Re EmailAuthorization.

Lemma forallb_excludes (p : cp -> bool) (c : cp) (s : str) :
  p c = false -> forallb p s = true -> ~ In c s.
Proof.
  intros Hc Hall Hin. rewrite forallb_forall in Hall.
  specialize (Hall c Hin). congruence.
Qed.

Lemma str_in_single (c : cp) (s : str) : str_in [c] s = true <-> In c s.
Proof.
  induction s as [|a s IH]; simpl; [split; [discriminate | intros []]|].
  rewrite orb_true_iff, andb_true_r, N.eqb_eq, IH. split; intros [H|H]; auto.
Qed.

Lemma split_on_no_sep (sep : cp) (s : str) : ~ In sep s -> split_on sep s = [s].
Proof.
  induction s as [|c s IH]; simpl; intros Hs; [reflexivity|].
  destruct (N.eqb_spec c sep) as [->|Hne]; [tauto|].
  rewrite IH by tauto. reflexivity.
Qed.

Lemma split_on_app (sep : cp) (l r : str) :
  ~ In sep l -> split_on sep (l ++ sep :: r) = l :: split_on sep r.
Proof.
  induction l as [|c l IH]; simpl; intros Hl.
  - rewrite N.eqb_refl. reflexivity.
  - destruct (N.eqb_spec c sep) as [->|Hne]; [tauto|].
    rewrite IH by tauto. reflexivity.
Qed.

Lemma extract_domain_of_address (local domain : str) :
  ~ In at_sign local -> ~ In at_sign domain ->
  _extract_domain (local ++ [at_sign] ++ domain) = Some domain.
Proof.
  intros Hl Hd. unfold _extract_domain.
  assert (Hin : str_in [at_sign] (local ++ [at_sign] ++ domain) = true).
  { apply str_in_single, in_or_app. right. left. reflexivity. }
  rewrite Hin. simpl app. rewrite split_on_app by exact Hl.
  rewrite split_on_no_sep by exact Hd. reflexivity.
Qed.

Lemma local_shape_no_at (local : str) : local_shape local -> ~ In at_sign local.
Proof. intros [_ H]. exact (forallb_excludes local_char at_sign local eq_refl H). Qed.

Lemma domain_shape_no_at (name tld : str) :
  domain_shape name tld -> ~ In at_sign (name ++ [dot] ++ tld).
Proof.
  intros (_ & Hn & _ & Ht) Hin.
  apply in_app_or in Hin as [Hin|[Hin|Hin]].
  - exact (forallb_excludes domain_char at_sign name eq_refl Hn Hin).
  - discriminate.
  - exact (forallb_excludes letter at_sign tld eq_refl Ht Hin).
Qed.

Lemma valid_domain_spec (d : str) :
  _is_valid_domain d = true
  <-> exists name tld,
        domain_shape name tld
        /\ (d = name ++ [dot] ++ tld \/ d = (name ++ [dot] ++ tld) ++ [newline]).
Proof.
  unfold _is_valid_domain. rewrite match_anchored_spec. split.
  - intros [H|(d' & -> & H)]; apply domain_pattern_matches in H as (name & tld & -> & Hs);
      exists name, tld; auto.
  - intros (name & tld & Hs & [->| ->]); [left | right; eexists; split; [reflexivity|]];
      apply domain_pattern_matches; eauto.
Qed.

Lemma valid_email_spec (e : str) :
  _is_valid_email e = true
  <-> exists local name tld,
        local_shape local /\ domain_shape name tld
        /\ (e = local ++ [at_sign] ++ name ++ [dot] ++ tld
            \/ e = local ++ [at_sign] ++ (name ++ [dot] ++ tld) ++ [newline]).
Proof.
  unfold _is_valid_email. rewrite match_anchored_spec. split.
  - intros [H|(e' & -> & H)];
      apply email_pattern_matches in H as (local & d & -> & Hl & Hd);
      apply domain_pattern_matches in Hd as (name & tld & -> & Hs);
      exists local, name, tld; (split; [exact Hl|]); (split; [exact Hs|]).
    + left. reflexivity.
    + right. rewrite <- !app_assoc. reflexivity.
  - intros (local & name & tld & Hl & Hs & [->| ->]).
    + left. apply email_pattern_matches. exists local, (name ++ [dot] ++ tld).
      split; [reflexivity|]. split; [exact Hl|]. apply domain_pattern_matches. eauto.
    + right. exists (local ++ [at_sign] ++ name ++ [dot] ++ tld).
      split; [rewrite <- !app_assoc; reflexivity|].
      apply email_pattern_matches. exists local, (name ++ [dot] ++ tld).
      split; [reflexivity|]. split; [exact Hl|]. apply domain_pattern_matches. eauto.
Qed.

(** A well-formed address has one [@]; what follows it is its domain,
    and is well formed. *)
Lemma valid_email_domain (e : str) :
  _is_valid_email e = true ->
  exists local domain,
    e = local ++ [at_sign] ++ domain /\ local_shape local
    /\ _extract_domain e = Some domain /\ _is_valid_domain domain = true.
Proof.
  intros H. apply valid_email_spec in H as (local & name & tld & Hl & Hs & He).
  pose proof (local_shape_no_at _ Hl) as Hnl.
  pose proof (domain_shape_no_at _ _ Hs) as Hnd.
  destruct He as [->| ->].
  - exists local, (name ++ [dot] ++ tld). split; [reflexivity|]. split; [exact Hl|].
    split; [apply extract_domain_of_address; assumption|].
    apply valid_domain_spec. eauto.
  - exists local, ((name ++ [dot] ++ tld) ++ [newline]).
    split; [reflexivity|]. split; [exact Hl|]. split.
    + apply extract_domain_of_address; [exact Hnl|].
      intros Hin. apply in_app_or in Hin as [Hin|[Hin|[]]]; [tauto | discriminate].
    + apply valid_domain_spec. eauto.
Qed.

End Domains.

(** X21. [_is_valid_email] accepts exactly the strings [local@name.tld]
    with a non-empty local part and name over their character classes and
    at least two letters after the last dot, and those strings followed by
    one newline. *)
Theorem valid_email_shape :
  forall e : str,
    EmailAuthorization._is_valid_email e = true
    <-> exists local name tld,
          local_shape local /\ domain_shape name tld
          /\ (e = local ++ [EmailAuthorization.at_sign] ++ name
                    ++ [EmailAuthorization.dot] ++ tld
              \/ e = local ++ [EmailAuthorization.at_sign]
                       ++ (name ++ [EmailAuthorization.dot] ++ tld) ++ [newline]).
Proof. exact valid_email_spec. Qed.

(** X22. The domains that [_is_valid_domain] accepts are exactly the
    domains that [_extract_domain] returns for the addresses that
    [_is_valid_email] accepts. *)
Theorem valid_domains_are_the_domains_of_valid_emails :
  forall d : str,
    EmailAuthorization._is_valid_domain d = true
    <-> exists e,
          EmailAuthorization._is_valid_email e = true
          /\ EmailAuthorization._extract_domain e = Some d.
Proof.
  intros d. split.
  - intros H. exists ([97%N] ++ [EmailAuthorization.at_sign] ++ d).
    assert (Hl : local_shape [97%N]) by (split; [discriminate | reflexivity]).
    apply valid_domain_spec in H as (name & tld & Hs & Hd).
    pose proof (domain_shape_no_at _ _ Hs) as Hnd.
    split.
    + apply valid_email_spec. exists [97%N], name, tld.
      split; [exact Hl|]. split; [exact Hs|].
      destruct Hd as [->| ->]; [left | right]; reflexivity.
    + apply extract_domain_of_address; [exact (local_shape_no_at _ Hl)|].
      destruct Hd as [->| ->]; [exact Hnd|].
      intros Hin. apply in_app_or in Hin as [Hin|[Hin|[]]]; [tauto | discriminate].
  - intros (e & He & Hd).
    apply valid_email_domain in He as (local & domain & _ & _ & Hx & Hv).
    congruence.
Qed.

(** ** The authorization lists *)

Section Authorization.
Import EmailAuthorization.
Context {rt : Runtime}.

Lemma one_at_sign (l0 d0 l d : str) :
  ~ In at_sign l0 -> ~ In at_sign d0 ->
  l0 ++ [at_sign] ++ d0 = l ++ [at_sign] ++ d -> l = l0 /\ d = d0.
Proof.
  revert l. induction l0 as [|x l0 IH]; intros l Hl Hd E.
  - destruct l as [|y l]; simpl in E.
    + injection E as <-. auto.
    + injection E as <- E. exfalso. apply Hd. rewrite E.
      apply in_or_app. right. left. reflexivity.
  - destruct l as [|y l]; simpl in E.
    + injection E as -> _. exfalso. apply Hl. left. reflexivity.
    + injection E as <- E.
      destruct (IH l) as [-> ->]; [intros H; apply Hl; right; exact H | exact Hd | exact E|].
      auto.
Qed.

(** However a well-formed address is cut at an [@], the second part is
    its domain. *)
Lemma valid_email_domain_unique (local domain : str) :
  _is_valid_email (local ++ [at_sign] ++ domain) = true ->
  _extract_domain (local ++ [at_sign] ++ domain) = Some domain.
Proof.
  intros Hv. pose proof Hv as Hv'.
  apply valid_email_spec in Hv' as (l0 & name & tld & Hl & Hs & E).
  pose proof (local_shape_no_at _ Hl) as Hnl.
  pose proof (domain_shape_no_at _ _ Hs) as Hnd.
  destruct E as [E|E]; symmetry in E.
  - apply one_at_sign in E as [-> ->]; [|exact Hnl | exact Hnd].
    apply extract_domain_of_address; assumption.
  - apply one_at_sign in E as [-> ->]; [apply extract_domain_of_address; [exact Hnl|] | exact Hnl |];
      intros Hin; apply in_app_or in Hin as [Hin|[Hin|[]]]; try tauto; discriminate.
Qed.

Lemma is_email_authorized_listed (self : state) (email : value) :
  exists b, is_email_authorized self email = Some b /\ (b = true <-> listed self email).
Proof.
  unfold is_email_authorized, listed. destruct email as [|e|n|l|d];
    try (exists false; split; [reflexivity|];
         split; [discriminate | intros (e' & ? & ? & H & _); discriminate]).
  destruct e as [|c e]; cbn [truthy negb].
  { exists false. split; [reflexivity|].
    split; [discriminate | intros (e' & ? & ? & H & Hne & _); congruence]. }
  destruct (_is_valid_email (normalized (c :: e))) eqn:Hv; cbn [negb].
  2:{ exists false. split; [reflexivity|]. split; [discriminate|].
      intros (e' & ? & ? & H & _ & _ & Hv' & _). injection H as <-. congruence. }
  destruct (valid_email_domain _ Hv) as (local & domain & He & _ & Hx & _).
  destruct (decide (normalized (c :: e) ∈ authorized_emails self)) as [Hin|Hnin].
  { exists true. split; [reflexivity|]. split; [|reflexivity]. intros _.
    exists (c :: e), local, domain. repeat split; auto; try discriminate. }
  rewrite Hx. destruct (decide (_ ∈ authorized_domains self)) as [Hd|Hnd].
  { exists true. split; [reflexivity|]. split; [|reflexivity]. intros _.
    exists (c :: e), local, domain. repeat split; auto; try discriminate. }
  exists false. split; [reflexivity|]. split; [discriminate|].
  intros (e' & local' & domain' & H & _ & He' & _ & [Hin|Hin]); injection H as <-;
    [contradiction|].
  rewrite He' in Hv, Hx. rewrite (valid_email_domain_unique _ _ Hv) in Hx.
  injection Hx as <-. contradiction.
Qed.

Lemma is_email_authorized_true (self : state) (email : value) :
  is_email_authorized self email = Some true <-> listed self email.
Proof.
  destruct (is_email_authorized_listed self email) as (b & -> & Hb).
  rewrite <- Hb. split; congruence.
Qed.

End Authorization.

(** X23. [is_email_authorized] never raises; it answers [True] exactly
    for a non-empty string whose normalized form is well formed and is on
    the list of addresses or has the part after its [@] on the list of
    domains. *)
Theorem authorized_iff_listed :
  forall (rt : Runtime) (self : EmailAuthorization.state) (email : value),
    exists b,
      EmailAuthorization.is_email_authorized self email = Some b
      /\ (b = true <-> listed self email).
Proof. intros rt. exact is_email_authorized_listed. Qed.

(** ** Changing the lists *)

Section Mutators.
Import EmailAuthorization.
Context {rt : Runtime}.

Lemma listed_mono (self self' : state) (email : value) :
  authorized_emails self ⊆ authorized_emails self' ->
  authorized_domains self ⊆ authorized_domains self' ->
  listed self email -> listed self' email.
Proof.
  intros He Hd (e & local & domain & E & Hne & Hn & Hv & Hin).
  exists e, local, domain. repeat split; try assumption.
  destruct Hin as [Hin|Hin]; [left | right]; set_solver.
Qed.

Lemma is_email_authorized_mono (self self' : state) (email : value) :
  authorized_emails self ⊆ authorized_emails self' ->
  authorized_domains self ⊆ authorized_domains self' ->
  is_email_authorized self email = Some true ->
  is_email_authorized self' email = Some true.
Proof.
  intros He Hd H. apply is_email_authorized_true in H. apply is_email_authorized_true.
  exact (listed_mono self self' email He Hd H).
Qed.

Lemma add_authorized_email_true (self self' : state) (email : value) :
  add_authorized_email self email = (self', true) ->
  exists e,
    email = VStr e /\ e <> [] /\ _is_valid_email (normalized e) = true
    /\ self' = {| authorized_emails := {[ normalized e ]} ∪ authorized_emails self;
                  authorized_domains := authorized_domains self;
                  admin_emails := admin_emails self |}.
Proof.
  unfold add_authorized_email. destruct email as [|e|n|l|d]; try discriminate.
  destruct e as [|c e]; cbn [truthy negb]; [discriminate|].
  destruct (_is_valid_email (normalized (c :: e))) eqn:Hv; cbn [negb]; [|discriminate].
  intros H. injection H as <-. exists (c :: e). repeat split; [discriminate | exact Hv].
Qed.

Lemma add_authorized_domain_true (self self' : state) (domain : value) :
  add_authorized_domain self domain = (self', true) ->
  exists d,
    domain = VStr d /\ d <> [] /\ _is_valid_domain (normalized d) = true
    /\ self' = {| authorized_emails := authorized_emails self;
                  authorized_domains := {[ normalized d ]} ∪ authorized_domains self;
                  admin_emails := admin_emails self |}.
Proof.
  unfold add_authorized_domain. destruct domain as [|e|n|l|d]; try discriminate.
  destruct e as [|c e]; cbn [truthy negb]; [discriminate|].
  destruct (_is_valid_domain (normalized (c :: e))) eqn:Hv; cbn [negb]; [|discriminate].
  intros H. injection H as <-. exists (c :: e). repeat split; [discriminate | exact Hv].
Qed.

Lemma remove_authorized_email_str (self self' : state) (e : str) (ok : bool) :
  remove_authorized_email self (VStr e) = Some (self', ok) ->
  e <> [] ->
  authorized_emails self' = authorized_emails self ∖ {[ normalized e ]}
  /\ authorized_domains self' = authorized_domains self
  /\ admin_emails self' = admin_emails self.
Proof.
  unfold remove_authorized_email. destruct e as [|c e]; [congruence|].
  cbn [truthy negb]. intros H _.
  destruct (decide (_ ∈ authorized_emails self)) as [Hin|Hnin];
    injection H as E1 E2; subst self' ok; cbn; repeat split.
  apply set_eq. intros x. rewrite elem_of_difference, elem_of_singleton.
  split; [|tauto]. intros Hx. split; [exact Hx|]. intros ->. contradiction.
Qed.

End Mutators.

(** X24. After [add_authorized_email] returned [True] the address is
    authorized, and so is every address that was authorized before. *)
Theorem added_email_is_authorized :
  forall (rt : Runtime) (self self' : EmailAuthorization.state) (email : value),
    EmailAuthorization.add_authorized_email self email = (self', true) ->
    EmailAuthorization.is_email_authorized self' email = Some true
    /\ forall other,
         EmailAuthorization.is_email_authorized self other = Some true ->
         EmailAuthorization.is_email_authorized self' other = Some true.
Proof.
  intros rt self self' email Hadd.
  apply add_authorized_email_true in Hadd as (e & -> & Hne & Hv & ->). split.
  - apply is_email_authorized_true.
    destruct (valid_email_domain _ Hv) as (local & domain & He & _ & _ & _).
    exists e, local, domain. repeat split; try assumption.
    left. cbn. set_solver.
  - intros other. apply is_email_authorized_mono; cbn; set_solver.
Qed.

Lemma added_email_witness :
  exists self',
    EmailAuthorization.add_authorized_email (rt := latin1) EmailAuthorization.init
      (VStr (lit " Ana.Souza@Example.org ")) = (self', true)
    /\ EmailAuthorization.is_email_authorized (rt := latin1) self'
         (VStr (lit " Ana.Souza@Example.org ")) = Some true
    /\ forall other,
         EmailAuthorization.is_email_authorized (rt := latin1)
           EmailAuthorization.init other = Some true ->
         EmailAuthorization.is_email_authorized (rt := latin1) self' other = Some true.
Proof.
  assert (Hv : EmailAuthorization._is_valid_email
                 (EmailAuthorization.normalized (rt := latin1)
                    (lit " Ana.Souza@Example.org ")) = true)
    by (vm_compute; reflexivity).
  assert (Hadd : exists self',
             EmailAuthorization.add_authorized_email (rt := latin1)
               EmailAuthorization.init (VStr (lit " Ana.Souza@Example.org "))
             = (self', true)).
  { unfold EmailAuthorization.add_authorized_email.
    change (truthy (VStr (lit " Ana.Souza@Example.org "))) with true. cbn [negb].
    rewrite Hv. cbn [negb]. eexists. reflexivity. }
  destruct Hadd as (self' & Hadd). exists self'. split; [exact Hadd|].
  exact (added_email_is_authorized latin1 EmailAuthorization.init self' _ Hadd).
Defined.

(** X25. After [remove_authorized_email] an address is authorized
    exactly when it is well formed and its domain is authorized: removing
    an address does not revoke the access its domain gives. *)
Theorem removed_email_keeps_domain_access :
  forall (rt : Runtime) (self self' : EmailAuthorization.state) (e : str) (ok : bool),
    EmailAuthorization.remove_authorized_email self (VStr e) = Some (self', ok) ->
    e <> [] ->
    EmailAuthorization.is_email_authorized self' (VStr e) = Some true
    <-> exists local domain,
          EmailAuthorization.normalized e
          = local ++ [EmailAuthorization.at_sign] ++ domain
          /\ EmailAuthorization._is_valid_email (EmailAuthorization.normalized e) = true
          /\ domain ∈ EmailAuthorization.authorized_domains self.
Proof.
  intros rt self self' e ok Hrem Hne.
  destruct (remove_authorized_email_str self self' e ok Hrem Hne) as (He & Hd & _).
  rewrite is_email_authorized_true. unfold listed. split.
  - intros (e' & local & domain & E & _ & Hn & Hv & Hin). injection E as <-.
    exists local, domain. split; [exact Hn|]. split; [exact Hv|].
    destruct Hin as [Hin|Hin]; [|rewrite <- Hd; exact Hin].
    rewrite He in Hin. apply elem_of_difference in Hin as [_ Hin].
    exfalso. apply Hin, elem_of_singleton. reflexivity.
  - intros (local & domain & Hn & Hv & Hin).
    exists e, local, domain. repeat split; try assumption.
    right. rewrite Hd. exact Hin.
Qed.

Lemma removed_email_witness :
  exists self',
    EmailAuthorization.remove_authorized_email (rt := latin1) EmailAuthorization.init
      (VStr (lit "fernando@forvismazars.com")) = Some (self', true)
    /\ lit "fernando@forvismazars.com" <> []
    /\ (EmailAuthorization.is_email_authorized (rt := latin1) self'
          (VStr (lit "fernando@forvismazars.com")) = Some true
        <-> exists local domain,
              EmailAuthorization.normalized (rt := latin1) (lit "fernando@forvismazars.com")
              = local ++ [EmailAuthorization.at_sign] ++ domain
              /\ EmailAuthorization._is_valid_email
                   (EmailAuthorization.normalized (rt := latin1)
                      (lit "fernando@forvismazars.com")) = true
              /\ domain ∈ EmailAuthorization.authorized_domains EmailAuthorization.init).
Proof.
  assert (Hne : lit "fernando@forvismazars.com" <> []) by (vm_compute; discriminate).
  assert (Hrem : exists self',
             EmailAuthorization.remove_authorized_email (rt := latin1)
               EmailAuthorization.init (VStr (lit "fernando@forvismazars.com"))
             = Some (self', true)).
  { unfold EmailAuthorization.remove_authorized_email.
    change (truthy (VStr (lit "fernando@forvismazars.com"))) with true. cbn [negb].
    replace (EmailAuthorization.normalized (rt := latin1) (lit "fernando@forvismazars.com"))
      with (lit "fernando@forvismazars.com") by (vm_compute; reflexivity).
    destruct (decide (lit "fernando@forvismazars.com"
                      ∈ EmailAuthorization.authorized_emails EmailAuthorization.init))
      as [Hin|Hnin]; [eexists; reflexivity|].
    exfalso. apply Hnin. unfold EmailAuthorization.init.
    cbn [EmailAuthorization.authorized_emails].
    apply elem_of_union. left. apply elem_of_singleton. reflexivity. }
  destruct Hrem as (self' & Hrem). exists self'. split; [exact Hrem|]. split; [exact Hne|].
  exact (removed_email_keeps_domain_access latin1 EmailAuthorization.init self' _ true
           Hrem Hne).
Defined.

(** X26. After [add_authorized_domain] returned [True] every well-formed
    address at that domain is authorized, and so is every address that was
    authorized before. *)
Theorem added_domain_authorizes_its_addresses :
  forall (rt : Runtime) (self self' : EmailAuthorization.state) (domain : value),
    EmailAuthorization.add_authorized_domain self domain = (self', true) ->
    exists d,
      domain = VStr d
      /\ (forall e local,
            e <> [] ->
            EmailAuthorization.normalized e
            = local ++ [EmailAuthorization.at_sign] ++ EmailAuthorization.normalized d ->
            EmailAuthorization._is_valid_email (EmailAuthorization.normalized e) = true ->
            EmailAuthorization.is_email_authorized self' (VStr e) = Some true)
      /\ forall other,
           EmailAuthorization.is_email_authorized self other = Some true ->
           EmailAuthorization.is_email_authorized self' other = Some true.
Proof.
  intros rt self self' domain Hadd.
  apply add_authorized_domain_true in Hadd as (d & -> & Hne & Hv & ->).
  exists d. split; [reflexivity|]. split.
  - intros e local He Hn Hvalid. apply is_email_authorized_true.
    exists e, local, (EmailAuthorization.normalized d). repeat split; try assumption.
    right. cbn. set_solver.
  - intros other. apply is_email_authorized_mono; cbn; set_solver.
Qed.

Lemma added_domain_witness :
  exists self',
    EmailAuthorization.add_authorized_domain (rt := latin1) EmailAuthorization.init
      (VStr (lit "Example.ORG")) = (self', true)
    /\ exists d,
      VStr (lit "Example.ORG") = VStr d
      /\ (forall e local,
            e <> [] ->
            EmailAuthorization.normalized (rt := latin1) e
            = local ++ [EmailAuthorization.at_sign]
                ++ EmailAuthorization.normalized (rt := latin1) d ->
            EmailAuthorization._is_valid_email
              (EmailAuthorization.normalized (rt := latin1) e) = true ->
            EmailAuthorization.is_email_authorized (rt := latin1) self' (VStr e)
            = Some true)
      /\ forall other,
           EmailAuthorization.is_email_authorized (rt := latin1)
             EmailAuthorization.init other = Some true ->
           EmailAuthorization.is_email_authorized (rt := latin1) self' other = Some true.
Proof.
  assert (Hv : EmailAuthorization._is_valid_domain
                 (EmailAuthorization.normalized (rt := latin1) (lit "Example.ORG")) = true)
    by (vm_compute; reflexivity).
  assert (Hadd : exists self',
             EmailAuthorization.add_authorized_domain (rt := latin1)
               EmailAuthorization.init (VStr (lit "Example.ORG")) = (self', true)).
  { unfold EmailAuthorization.add_authorized_domain.
    change (truthy (VStr (lit "Example.ORG"))) with true. cbn [negb].
    rewrite Hv. cbn [negb]. eexists. reflexivity. }
  destruct Hadd as (self' & Hadd). exists self'. split; [exact Hadd|].
  exact (added_domain_authorizes_its_addresses latin1 EmailAuthorization.init self' _ Hadd).
Defined.

(** X27. No operation on the lists changes who is an administrator. *)
Theorem administrators_never_change :
  forall (rt : Runtime) (self : EmailAuthorization.state) (arg who : value),
    EmailAuthorization.is_admin (fst (EmailAuthorization.add_authorized_email self arg)) who
    = EmailAuthorization.is_admin self who
    /\ EmailAuthorization.is_admin
         (fst (EmailAuthorization.add_authorized_domain self arg)) who
       = EmailAuthorization.is_admin self who
    /\ (forall self' ok,
          EmailAuthorization.remove_authorized_email self arg = Some (self', ok) ->
          EmailAuthorization.is_admin self' who = EmailAuthorization.is_admin self who)
    /\ (forall self' ok,
          EmailAuthorization.remove_authorized_domain self arg = Some (self', ok) ->
          EmailAuthorization.is_admin self' who = EmailAuthorization.is_admin self who).
Proof.
  intros rt self arg who.
  assert (Hadmin : forall self', EmailAuthorization.admin_emails self'
                                 = EmailAuthorization.admin_emails self ->
                                 EmailAuthorization.is_admin self' who
                                 = EmailAuthorization.is_admin self who).
  { intros self' E. unfold EmailAuthorization.is_admin. rewrite E. reflexivity. }
  split; [|split; [|split]].
  - apply Hadmin. unfold EmailAuthorization.add_authorized_email.
    destruct arg as [|e|n|l|d]; try reflexivity.
    destruct (negb (truthy (VStr e))); [reflexivity|].
    destruct (negb (EmailAuthorization._is_valid_email _)); reflexivity.
  - apply Hadmin. unfold EmailAuthorization.add_authorized_domain.
    destruct arg as [|e|n|l|d]; try reflexivity.
    destruct (negb (truthy (VStr e))); [reflexivity|].
    destruct (negb (EmailAuthorization._is_valid_domain _)); reflexivity.
  - intros self' ok H. apply Hadmin. unfold EmailAuthorization.remove_authorized_email in H.
    destruct (negb (truthy arg)); [injection H as <- _; reflexivity|].
    destruct arg as [|e|n|l|d]; try discriminate.
    destruct (decide (_ ∈ EmailAuthorization.authorized_emails self));
      injection H as <- _; reflexivity.
  - intros self' ok H. apply Hadmin. unfold EmailAuthorization.remove_authorized_domain in H.
    destruct (negb (truthy arg)); [injection H as <- _; reflexivity|].
    destruct arg as [|e|n|l|d]; try discriminate.
    destruct (decide (_ ∈ EmailAuthorization.authorized_domains self));
      injection H as <- _; reflexivity.
Qed.

(** ** The middleware *)

Section Middleware.
Import EmailAuthorization AccessMiddleware.
Context {rt : Runtime}.

Lemma split_on_nonempty (sep : cp) (s : str) : split_on sep s <> [].
Proof.
  destruct s as [|c s]; simpl; [discriminate|].
  destruct (c =? sep)%N; [discriminate|].
  destruct (split_on sep s); discriminate.
Qed.

Lemma split_on_two (sep : cp) (s : str) :
  In sep s -> exists a b rest, split_on sep s = a :: b :: rest.
Proof.
  induction s as [|c s IH]; simpl; intros Hin; [contradiction|].
  destruct (N.eqb_spec c sep) as [->|Hne].
  - pose proof (split_on_nonempty sep s) as Hs.
    destruct (split_on sep s) as [|b rest]; [contradiction|]. eauto.
  - destruct Hin as [Hin|Hin]; [contradiction|].
    destruct (IH Hin) as (a & b & rest & ->). eauto.
Qed.

(** [email.split('@')[1]] is in range whenever it is evaluated. *)
Lemma extract_domain_total (s : str) : exists d, _extract_domain s = Some d.
Proof.
  unfold _extract_domain. destruct (str_in [at_sign] s) eqn:E; [|eauto].
  apply str_in_single, split_on_two in E as (a & b & rest & ->). simpl. eauto.
Qed.

Lemma summary_of_str (self : state) (e : str) :
  exists s, get_authorization_summary self (VStr e) = Some s.
Proof.
  unfold get_authorization_summary. destruct (negb (truthy (VStr e))); [eauto|].
  destruct (extract_domain_total (normalized e)) as (d & ->).
  destruct (is_email_authorized_listed self (VStr (normalized e))) as (b & -> & _).
  unfold is_admin. destruct (negb (truthy (VStr (normalized e)))); eauto.
Qed.

Lemma is_str_spec (s : str) (v : value) : is_str s v = true <-> v = VStr s.
Proof.
  unfold is_str. destruct v as [|s'|n|l|d]; try (split; discriminate).
  destruct (decide (s' = s)) as [->|Hne]; split; congruence.
Qed.

(** The four ways in which [verify_email_authorization] ends. *)
Lemma verify_cases (email_auth : state) (user : AuthorizedUser) :
  (sub user = VStr fixed_user_id
   /\ verify_email_authorization email_auth user = inr user)
  \/ (sub user <> VStr fixed_user_id /\ truthy (email user) = false
      /\ verify_email_authorization email_auth user = inl (HTTPException 403 "NO_EMAIL"))
  \/ (sub user <> VStr fixed_user_id /\ listed email_auth (email user)
      /\ verify_email_authorization email_auth user = inr user)
  \/ (sub user <> VStr fixed_user_id /\ ~ listed email_auth (email user)
      /\ (exists e, email user = VStr e /\ e <> [])
      /\ verify_email_authorization email_auth user
         = inl (HTTPException 403 "EMAIL_NOT_AUTHORIZED"))
  \/ (sub user <> VStr fixed_user_id /\ truthy (email user) = true
      /\ (forall e, email user <> VStr e)
      /\ verify_email_authorization email_auth user = inl Uncaught).
Proof.
  unfold verify_email_authorization. cbv zeta.
  destruct (is_str fixed_user_id (sub user)) eqn:Hsub.
  { left. apply is_str_spec in Hsub. auto. }
  assert (Hne : sub user <> VStr fixed_user_id).
  { intros H. apply is_str_spec in H. congruence. }
  right. destruct (truthy (email user)) eqn:Ht; cbn [negb]; [|left; auto].
  right. destruct (email user) as [|e|n|l|d] eqn:Hemail;
    try discriminate;
    try (right; right; split; [exact Hne|]; split; [reflexivity|];
         split; [intros e'; discriminate|];
         unfold is_email_authorized, get_authorization_summary; rewrite Ht; reflexivity).
  destruct (is_email_authorized_listed email_auth (VStr e)) as ([|] & Hb & Hl); rewrite Hb.
  - left. split; [exact Hne|]. split; [apply Hl; reflexivity | reflexivity].
  - right; left. split; [exact Hne|]. split; [intros H; apply Hl in H; discriminate|].
    split; [exists e; split; [reflexivity|]; destruct e; [discriminate Ht | discriminate]|].
    destruct (summary_of_str email_auth e) as (s & ->). reflexivity.
Qed.

Lemma listed_is_str (self : state) (email : value) :
  listed self email -> exists e, email = VStr e /\ e <> [].
Proof. intros (e & _ & _ & E & Hne & _). eauto. Qed.

End Middleware.

(** X28. [verify_email_authorization] returns the user exactly when the
    user's id is the fixed one or the user's e-mail is authorized;
    otherwise it raises 403 [NO_EMAIL] for a missing or empty e-mail, 403
    [EMAIL_NOT_AUTHORIZED] for a string, and an uncaught exception for an
    e-mail that is not a string. *)
Theorem verify_passes_iff :
  forall (rt : Runtime) (email_auth : EmailAuthorization.state)
         (user : AccessMiddleware.AuthorizedUser),
    let result := AccessMiddleware.verify_email_authorization email_auth user in
    ((exists u, result = inr u)
     <-> AccessMiddleware.sub user = VStr AccessMiddleware.fixed_user_id
         \/ listed email_auth (AccessMiddleware.email user))
    /\ (forall u, result = inr u -> u = user)
    /\ (forall e, result = inl e ->
          (e = AccessMiddleware.HTTPException 403 "NO_EMAIL"
           /\ truthy (AccessMiddleware.email user) = false)
          \/ (e = AccessMiddleware.HTTPException 403 "EMAIL_NOT_AUTHORIZED"
              /\ exists s, AccessMiddleware.email user = VStr s /\ s <> [])
          \/ (e = AccessMiddleware.Uncaught
              /\ truthy (AccessMiddleware.email user) = true
              /\ forall s, AccessMiddleware.email user <> VStr s)).
Proof.
  intros rt email_auth user result. subst result.
  destruct (verify_cases email_auth user)
    as [(Hs & E)|[(Hs & Ht & E)|[(Hs & Hl & E)|[(Hs & Hl & He & E)|(Hs & Ht & He & E)]]]];
    rewrite E; (split; [split|split]).
  all: try (intros (u & H); discriminate).
  all: try (intros u H; injection H as <-; reflexivity).
  all: try (intros e H; discriminate).
  all: try (intros _; eauto; fail).
  all: try (intros e H; injection H as <-; auto; fail).
  - intros [H|H]; [contradiction|].
    apply listed_is_str in H as (e & H & Hne). rewrite H in Ht.
    destruct e; [congruence | discriminate].
  - intros [H|H]; contradiction.
  - intros [H|H]; [contradiction|].
    apply listed_is_str in H as (e & H & _). destruct (He e H).
Qed.

(** X29. [require_admin_access] returns the user exactly when
    [verify_email_authorization] does and the user's e-mail is a string
    whose normalized form is an administrator's; the fixed user id without
    an e-mail is refused with 403 [NOT_ADMIN]. *)
Theorem admin_access_iff :
  forall (rt : Runtime) (email_auth : EmailAuthorization.state)
         (user : AccessMiddleware.AuthorizedUser),
    ((exists u, AccessMiddleware.require_admin_access email_auth user = inr u)
     <-> (AccessMiddleware.sub user = VStr AccessMiddleware.fixed_user_id
          \/ listed email_auth (AccessMiddleware.email user))
         /\ exists e,
              AccessMiddleware.email user = VStr e /\ e <> []
              /\ EmailAuthorization.normalized e
                 ∈ EmailAuthorization.admin_emails email_auth)
    /\ (AccessMiddleware.sub user = VStr AccessMiddleware.fixed_user_id ->
        truthy (AccessMiddleware.email user) = false ->
        AccessMiddleware.require_admin_access email_auth user
        = inl (AccessMiddleware.HTTPException 403 "NOT_ADMIN")).
Proof.
  intros rt email_auth user.
  assert (Hadmin : forall u,
             AccessMiddleware.verify_email_authorization email_auth user = inr u ->
             u = user ->
             (exists u', AccessMiddleware.require_admin_access email_auth user = inr u')
             <-> exists e,
                   AccessMiddleware.email user = VStr e /\ e <> []
                   /\ EmailAuthorization.normalized e
                      ∈ EmailAuthorization.admin_emails email_auth).
  { intros u E ->. unfold AccessMiddleware.require_admin_access. rewrite E.
    unfold AccessMiddleware.check_admin_access, EmailAuthorization.is_admin. cbv zeta.
    destruct (AccessMiddleware.email user) as [|e|n|l|d]; cbn [truthy negb].
    - split; [intros (u' & H); discriminate | intros (e & H & _); discriminate].
    - destruct e as [|c e]; cbn [negb].
      + split; [intros (u' & H); discriminate | intros (e & H & Hne & _); congruence].
      + destruct (bool_decide_reflect
                    (EmailAuthorization.normalized (c :: e)
                     ∈ EmailAuthorization.admin_emails email_auth)) as [Hin|Hnin].
        * split; [intros _; exists (c :: e); repeat split; [discriminate | exact Hin]
                 | intros _; eauto].
        * split; [intros (u' & H); discriminate|].
          intros (e' & H & _ & Hin). injection H as <-. contradiction.
    - destruct (negb (negb (n =? 0))); cbn;
        (split; [intros (u' & H); discriminate | intros (e & H & _); discriminate]).
    - destruct l; cbn;
        (split; [intros (u' & H); discriminate | intros (e & H & _); discriminate]).
    - split; [intros (u' & H); discriminate | intros (e & H & _); discriminate]. }
  split.
  - destruct (verify_cases email_auth user)
      as [(Hs & E)|[(Hs & Ht & E)|[(Hs & Hl & E)|[(Hs & Hl & He & E)|(Hs & Ht & He & E)]]]].
    + rewrite (Hadmin user E eq_refl). split; [intros H; split; [left; exact Hs | exact H]|].
      intros [_ H]. exact H.
    + unfold AccessMiddleware.require_admin_access. rewrite E.
      split; [intros (u & H); discriminate|].
      intros [_ (e & H & Hne & _)]. rewrite H in Ht. destruct e; [congruence | discriminate].
    + rewrite (Hadmin user E eq_refl). split; [intros H; split; [right; exact Hl | exact H]|].
      intros [_ H]. exact H.
    + unfold AccessMiddleware.require_admin_access. rewrite E.
      split; [intros (u & H); discriminate|].
      intros [[H|H] _]; contradiction.
    + unfold AccessMiddleware.require_admin_access. rewrite E.
      split; [intros (u & H); discriminate|].
      intros [_ (e & H & _)]. destruct (He e H).
  - intros Hs Ht. unfold AccessMiddleware.require_admin_access,
      AccessMiddleware.verify_email_authorization. cbv zeta.
    apply is_str_spec in Hs. rewrite Hs.
    unfold AccessMiddleware.check_admin_access. cbv zeta. rewrite Ht. reflexivity.
Qed.

(** ** The summary *)

(** X30. For an address whose normalized form is left alone by a second
    normalization, [get_authorization_summary] reports what
    [is_email_authorized] answers, gives an authorization type exactly when
    the address is authorized, and prefers [individual_email]. *)
Theorem summary_agrees_with_authorization :
  forall (rt : Runtime) (self : EmailAuthorization.state) (e : str),
    e <> [] ->
    EmailAuthorization.normalized (EmailAuthorization.normalized e)
    = EmailAuthorization.normalized e ->
    exists s,
      EmailAuthorization.get_authorization_summary self (VStr e) = Some s
      /\ EmailAuthorization.s_email s = Some (EmailAuthorization.normalized e)
      /\ EmailAuthorization.s_domain s
         = EmailAuthorization._extract_domain (EmailAuthorization.normalized e)
      /\ Some (EmailAuthorization.s_is_authorized s)
         = EmailAuthorization.is_email_authorized self (VStr e)
      /\ (EmailAuthorization.s_authorization_type s = None
          <-> EmailAuthorization.s_is_authorized s = false)
      /\ (EmailAuthorization.s_authorization_type s
          = Some EmailAuthorization.individual_email
          <-> EmailAuthorization.s_is_authorized s = true
              /\ EmailAuthorization.normalized e
                 ∈ EmailAuthorization.authorized_emails self).
Proof.
  intros rt self e Hne Hnorm.
  assert (Hauth : EmailAuthorization.is_email_authorized self
                    (VStr (EmailAuthorization.normalized e))
                  = EmailAuthorization.is_email_authorized self (VStr e)).
  { unfold EmailAuthorization.is_email_authorized. rewrite Hnorm.
    destruct e as [|c e]; [congruence|]. cbn [truthy negb].
    destruct (EmailAuthorization.normalized (c :: e)) as [|c' e'] eqn:En; reflexivity. }
  unfold EmailAuthorization.get_authorization_summary.
  destruct e as [|c e]; [congruence|]. cbn [truthy negb].
  set (email := EmailAuthorization.normalized (c :: e)) in *.
  destruct (extract_domain_total email) as (domain & Hx). rewrite Hx, Hauth.
  pose proof (is_email_authorized_true self (VStr (c :: e))) as Htrue.
  destruct (is_email_authorized_listed self (VStr (c :: e))) as (b & Hb & _).
  rewrite Hb in *.
  assert (Hadmin : exists a, EmailAuthorization.is_admin self (VStr email) = Some a).
  { unfold EmailAuthorization.is_admin. destruct (negb (truthy (VStr email))); eauto. }
  destruct Hadmin as (a & ->). eexists. split; [reflexivity|]. cbn.
  split; [reflexivity|]. split; [reflexivity|]. split; [reflexivity|].
  destruct b.
  - destruct (proj1 Htrue eq_refl) as (e' & local & domain' & E & _ & Hn & Hv & Hin).
    injection E as <-. fold email in Hn, Hv, Hin.
    assert (domain' = domain) as ->.
    { rewrite Hn in Hv, Hx. rewrite (valid_email_domain_unique _ _ Hv) in Hx. congruence. }
    destruct (decide (email ∈ EmailAuthorization.authorized_emails self)) as [He|He].
    + split; [split; discriminate|]. split; [auto | reflexivity].
    + destruct Hin as [Hin|Hin]; [contradiction|].
      destruct (decide (domain ∈ EmailAuthorization.authorized_domains self)) as [Hd|Hd];
        [|contradiction].
      split; [split; discriminate|]. split; [discriminate | intros [_ H]; contradiction].
  - split; [split; reflexivity|]. split; [discriminate | intros [H _]; discriminate].
Qed.

Lemma summary_witness :
  lit " Ana@Forvismazars.com " <> []
  /\ EmailAuthorization.normalized (rt := latin1)
       (EmailAuthorization.normalized (rt := latin1) (lit " Ana@Forvismazars.com "))
     = EmailAuthorization.normalized (rt := latin1) (lit " Ana@Forvismazars.com ")
  /\ exists s,
      EmailAuthorization.get_authorization_summary (rt := latin1) EmailAuthorization.init
        (VStr (lit " Ana@Forvismazars.com ")) = Some s
      /\ EmailAuthorization.s_email s
         = Some (EmailAuthorization.normalized (rt := latin1) (lit " Ana@Forvismazars.com "))
      /\ EmailAuthorization.s_domain s
         = EmailAuthorization._extract_domain
             (EmailAuthorization.normalized (rt := latin1) (lit " Ana@Forvismazars.com "))
      /\ Some (EmailAuthorization.s_is_authorized s)
         = EmailAuthorization.is_email_authorized (rt := latin1) EmailAuthorization.init
             (VStr (lit " Ana@Forvismazars.com "))
      /\ (EmailAuthorization.s_authorization_type s = None
          <-> EmailAuthorization.s_is_authorized s = false)
      /\ (EmailAuthorization.s_authorization_type s
          = Some EmailAuthorization.individual_email
          <-> EmailAuthorization.s_is_authorized s = true
              /\ EmailAuthorization.normalized (rt := latin1)
                   (lit " Ana@Forvismazars.com ")
                 ∈ EmailAuthorization.authorized_emails EmailAuthorization.init).
Proof.
  assert (Hne : lit " Ana@Forvismazars.com " <> []) by (vm_compute; discriminate).
  assert (Hnorm : EmailAuthorization.normalized (rt := latin1)
                    (EmailAuthorization.normalized (rt := latin1)
                       (lit " Ana@Forvismazars.com "))
                  = EmailAuthorization.normalized (rt := latin1)
                      (lit " Ana@Forvismazars.com "))
    by (vm_compute; reflexivity).
  split; [exact Hne|]. split; [exact Hnorm|].
  exact (summary_agrees_with_authorization latin1 EmailAuthorization.init
           (lit " Ana@Forvismazars.com ") Hne Hnorm).
Defined.
